(** * Mount specifications of gvfs (common/gmountspec.c)

    A shallow embedding of the mount-specification value of gvfs: the sorted
    key/value item store, the path-prefix matcher, the text and wire codecs,
    the path canonicalizer and the process-wide table of unique specs.

    Conventions of the embedding.
    - A C string is the list of its characters up to, and without, the
      terminating NUL: reading the terminator is reading past the end of the
      list ([None]).  A nullable [char *] is an [option cstr].
    - [int] and [guint] counters and lengths are unbounded naturals: the
      strings and arrays handled here are far shorter than [INT_MAX].
    - Memory is managed by the functional values themselves ([g_strdup],
      [g_free] and ownership transfer leave no trace), except for the
      objects whose identity matters, which live in an explicit heap. *)

From Stdlib Require Import ZArith Ascii String List Sorting.Sorted Lia.
From stdpp Require Import base option list sorting gmap.

Local Open Scope Z_scope.

(** ** C strings *)

Abbreviation cstr := (list ascii).

(** A string literal of the source. *)
Definition lit (s : string) : cstr := list_ascii_of_string s.
Global Arguments lit : simpl never.

(** The value of a character read as [unsigned char]. *)
Definition uchar (c : ascii) : Z := Z.of_N (N_of_ascii c).

(** The value of a character read as [signed char]. *)
Definition schar (c : ascii) : Z :=
  if uchar c <? 128 then uchar c else uchar c - 256.

Definition ascii_eqb (a b : ascii) : bool := Ascii.eqb a b.

(** [s[i]]: [None] stands for the terminating NUL. *)
Definition char_at (s : cstr) (i : nat) : option ascii := s !! i.

(** [s[i] == c] for a character constant [c] other than NUL. *)
Definition char_is (s : cstr) (i : nat) (c : ascii) : bool :=
  match char_at s i with
  | Some d => ascii_eqb d c
  | None => false
  end.

(** [s[i] == 0] *)
Definition char_nul (s : cstr) (i : nat) : bool :=
  match char_at s i with
  | Some _ => false
  | None => true
  end.

Definition strlen (s : cstr) : nat := length s.

(** [strcmp] and [strncmp] return a negative, zero or positive [int]; the C
    standard fixes the sign only, which is all the callers look at.  The
    characters compare as [unsigned char], the terminator below all. *)
Definition char_cmp (c d : ascii) : Z :=
  if uchar c <? uchar d then -1 else 1.

Fixpoint strcmp (a b : cstr) : Z :=
  match a, b with
  | [], [] => 0
  | [], _ :: _ => -1
  | _ :: _, [] => 1
  | c :: a', d :: b' =>
      if ascii_eqb c d then strcmp a' b' else char_cmp c d
  end.

(** [strncmp]: as [strcmp], over at most [n] characters. *)
Fixpoint strncmp (a b : cstr) (n : nat) {struct n} : Z :=
  match n with
  | O => 0
  | S n' =>
      match a, b with
      | [], [] => 0
      | [], _ :: _ => -1
      | _ :: _, [] => 1
      | c :: a', d :: b' =>
          if ascii_eqb c d then strncmp a' b' n' else char_cmp c d
      end
  end.

(** A list of characters is a C string when none of them is NUL. *)
Definition is_cstring (s : cstr) : Prop := Forall (fun c => c <> zero) s.

(** ** Path prefix matching *)

Definition path_has_prefix (path : cstr) (prefix : option cstr) : bool :=
  match prefix with
  | None => true
  | Some prefix =>
      let prefix_len := strlen prefix in
      (strncmp path prefix prefix_len =? 0) &&
      ((prefix_len =? 0)%nat
       || char_is prefix (prefix_len - 1) "/"
       || char_nul path prefix_len
       || char_is path prefix_len "/")
  end.

(** ** GLib: hashing and sorting *)

Definition wrap32 (z : Z) : Z := z mod 2 ^ 32.

(** [g_str_hash]: [h = 5381], then [h = (h << 5) + h + c] for every
    character, read as [signed char], in a 32-bit unsigned integer. *)
Definition g_str_hash (v : cstr) : Z :=
  fold_left (fun h c => wrap32 (Z.shiftl h 5 + h + schar c)) v 5381.

(** [g_array_sort]: a stable sort by the comparison function, which returns
    a negative, zero or positive integer.  [sort_insert] puts an element
    in front of the first element that does not compare below it, and the
    elements are inserted from the last to the first. *)
Section Sort.
Context {A : Type} (compare_func : A -> A -> Z).

Fixpoint sort_insert (x : A) (l : list A) : list A :=
  match l with
  | [] => [x]
  | y :: l' =>
      if compare_func x y <=? 0 then x :: y :: l'
      else y :: sort_insert x l'
  end.

Definition g_array_sort (l : list A) : list A :=
  foldr sort_insert [] l.
End Sort.

(** ** The item store and the mount spec (gmountspec.h) *)

(** Modelled from the spec: the two structures of gmountspec.h, which is
    not among the sources at hand.  An item is a key and a value, both
    strings. *)
Record GMountSpecItem := {
  key : cstr;
  value : cstr;
}.

(** Modelled from the spec: a mount spec is a count of references, the
    array of its items, a mount prefix, which the code lets be null, and
    the mark of the specs that are in the table of unique specs. *)
Record GMountSpec := {
  ref_count : Z;
  items : list GMountSpecItem;
  mount_prefix : option cstr;
  is_unique : bool;
}.

Definition with_items (spec : GMountSpec) (its : list GMountSpecItem)
  : GMountSpec :=
  {| ref_count := ref_count spec; items := its;
     mount_prefix := mount_prefix spec; is_unique := is_unique spec |}.

Definition item_compare (a b : GMountSpecItem) : Z :=
  strcmp (key a) (key b).

(** The order of the items: by key, as [item_compare] has it. *)
Definition key_le (a b : GMountSpecItem) : Prop := item_compare a b <= 0.
Definition key_lt (a b : GMountSpecItem) : Prop := item_compare a b < 0.

(** [add_item], past its two null checks: the callers below pass strings
    that are not null. *)
Definition add_item (spec : GMountSpec) (k : cstr) (v : cstr) : GMountSpec :=
  with_items spec (items spec ++ [{| key := k; value := v |}]).

(** The copy of the value that [g_mount_spec_set_with_len] stores:
    [g_strdup] for the length -1, [g_strndup] otherwise, which copies at
    most [value_len] characters and which cannot allocate the
    [(gsize) value_len + 1] bytes of a negative length (the program is
    aborted: [None]). *)
Definition g_strndup (s : cstr) (n : nat) : cstr := take n s.

Definition value_copy (v : cstr) (value_len : Z) : option cstr :=
  if value_len =? -1 then Some v
  else if 0 <=? value_len then Some (g_strndup v (Z.to_nat value_len))
  else None.

(** The loop of [g_mount_spec_set_with_len]: the first item with the key
    gets the new value; [None] when no item has the key. *)
Fixpoint replace_value (its : list GMountSpecItem) (k : cstr) (v : cstr)
  : option (list GMountSpecItem) :=
  match its with
  | [] => None
  | item :: rest =>
      if strcmp (key item) k =? 0
      then Some ({| key := key item; value := v |} :: rest)
      else cons item <$> replace_value rest k v
  end.

Definition store_value (spec : GMountSpec) (k : cstr) (v : cstr)
  : GMountSpec :=
  match replace_value (items spec) k v with
  | Some its => with_items spec its
  | None =>
      let spec := add_item spec k v in
      with_items spec (g_array_sort item_compare (items spec))
  end.

(** [g_mount_spec_set_with_len]: a null key or value leaves the spec as it
    is ([g_return_if_fail]). *)
Definition g_mount_spec_set_with_len (spec : GMountSpec)
    (k : option cstr) (v : option cstr) (value_len : Z)
  : option GMountSpec :=
  match k, v with
  | Some k, Some v => store_value spec k <$> value_copy v value_len
  | _, _ => Some spec
  end.

Definition g_mount_spec_set (spec : GMountSpec)
    (k : option cstr) (v : option cstr) : GMountSpec :=
  match k, v with
  | Some k, Some v => store_value spec k v
  | _, _ => spec
  end.

Definition g_mount_spec_new (type : option cstr) : GMountSpec :=
  let spec := {| ref_count := 1; items := [];
                 mount_prefix := Some (lit "/"); is_unique := false |} in
  match type with
  | Some _ => g_mount_spec_set spec (Some (lit "type")) type
  | None => spec
  end.

Definition g_mount_spec_new_from_data (its : list GMountSpecItem)
    (prefix : option cstr) : GMountSpec :=
  {| ref_count := 1;
     items := g_array_sort item_compare its;
     mount_prefix :=
       match prefix with
       | None => Some (lit "/")
       | Some _ => prefix
       end;
     is_unique := false |}.

Definition g_mount_spec_set_mount_prefix (spec : GMountSpec)
    (prefix : option cstr) : GMountSpec :=
  {| ref_count := ref_count spec; items := items spec;
     mount_prefix := prefix; is_unique := is_unique spec |}.

Definition g_mount_spec_copy (spec : GMountSpec) : GMountSpec :=
  let copy := g_mount_spec_new None in
  let copy := g_mount_spec_set_mount_prefix copy (mount_prefix spec) in
  fold_left
    (fun copy item =>
       g_mount_spec_set copy (Some (key item)) (Some (value item)))
    (items spec) copy.

Fixpoint g_mount_spec_get_items (its : list GMountSpecItem) (k : cstr)
  : option cstr :=
  match its with
  | [] => None
  | item :: rest =>
      if strcmp (key item) k =? 0 then Some (value item)
      else g_mount_spec_get_items rest k
  end.

Definition g_mount_spec_get (spec : GMountSpec) (k : cstr) : option cstr :=
  g_mount_spec_get_items (items spec) k.

Definition g_mount_spec_get_type (spec : GMountSpec) : option cstr :=
  g_mount_spec_get spec (lit "type").

(** ** Equality, hash and matching *)

Fixpoint items_equal_from (a b : list GMountSpecItem) : bool :=
  match a, b with
  | item_a :: a', item_b :: b' =>
      if negb (strcmp (key item_a) (key item_b) =? 0) then false
      else if negb (strcmp (value item_a) (value item_b) =? 0) then false
      else items_equal_from a' b'
  | _, _ => true
  end.

Definition items_equal (a b : list GMountSpecItem) : bool :=
  if negb (length a =? length b)%nat then false
  else items_equal_from a b.

Definition g_mount_spec_hash (mount : GMountSpec) : Z :=
  let hash := 0 in
  let hash :=
    match mount_prefix mount with
    | Some prefix => Z.lxor hash (g_str_hash prefix)
    | None => hash
    end in
  fold_left (fun hash item => Z.lxor hash (g_str_hash (value item)))
    (items mount) hash.

(** The two prefixes are the same pointer (both null, or one string, which
    compares equal to itself), or two strings that compare equal. *)
Definition g_mount_spec_equal (mount1 mount2 : GMountSpec) : bool :=
  items_equal (items mount1) (items mount2) &&
  match mount_prefix mount1, mount_prefix mount2 with
  | None, None => true
  | Some p1, Some p2 => strcmp p1 p2 =? 0
  | _, _ => false
  end.

Definition g_mount_spec_match_with_path (mount spec : GMountSpec)
    (path : cstr) : bool :=
  if items_equal (items mount) (items spec) &&
     path_has_prefix path (mount_prefix mount)
  then true else false.

(** ** GLib: splitting and URI escaping *)

(** [g_strsplit (string, delimiter, 0)] for a delimiter of one character, as
    both callers have it: an empty string gives the empty vector, any other
    string gives its pieces between the delimiters, empty pieces
    included. *)
Fixpoint split_on (delim : ascii) (s : cstr) : list cstr :=
  match s with
  | [] => [[]]
  | c :: s' =>
      if ascii_eqb c delim then [] :: split_on delim s'
      else match split_on delim s' with
           | tok :: toks => (c :: tok) :: toks
           | [] => [[c]]
           end
  end.

Definition g_strsplit (s : cstr) (delim : ascii) : list cstr :=
  match s with
  | [] => []
  | _ :: _ => split_on delim s
  end.

Definition g_strv_length (v : list cstr) : nat := length v.

Definition in_range (lo hi : Z) (c : ascii) : bool :=
  (lo <=? uchar c) && (uchar c <=? hi).

(** The unreserved characters of RFC 3986: letters, digits, '-', '.', '_'
    and '~'. *)
Definition is_unreserved (c : ascii) : bool :=
  in_range 48 57 c || in_range 65 90 c || in_range 97 122 c
  || ascii_eqb c "-" || ascii_eqb c "." || ascii_eqb c "_"
  || ascii_eqb c "~".

(** The length of the UTF-8 character that starts the string, a character
    of two to four bytes that [g_utf8_get_char_validated] accepts: no
    overlong form, no surrogate, nothing above U+10FFFF.  0 when the string
    starts with no such character. *)
Definition utf8_cont (c : ascii) : bool := in_range 128 191 c.

Definition utf8_multibyte_len (s : cstr) : nat :=
  match s with
  | b0 :: b1 :: s1 =>
      if in_range 194 223 b0 && utf8_cont b1 then 2%nat
      else
        match s1 with
        | b2 :: s2 =>
            if ((ascii_eqb b0 (ascii_of_nat 224) && in_range 160 191 b1)
                || ((in_range 225 236 b0 || in_range 238 239 b0)
                    && utf8_cont b1)
                || (ascii_eqb b0 (ascii_of_nat 237) && in_range 128 159 b1))
               && utf8_cont b2
            then 3%nat
            else
              match s2 with
              | b3 :: _ =>
                  if ((ascii_eqb b0 (ascii_of_nat 240)
                       && in_range 144 191 b1)
                      || (in_range 241 243 b0 && utf8_cont b1)
                      || (ascii_eqb b0 (ascii_of_nat 244)
                          && in_range 128 143 b1))
                     && utf8_cont b2 && utf8_cont b3
                  then 4%nat
                  else 0%nat
              | [] => 0%nat
              end
        | [] => 0%nat
        end
  | _ => 0%nat
  end.

(** A byte of a multi-byte UTF-8 character. *)
Definition high (c : ascii) : Prop := 128 <= uchar c.

(** A character that is no delimiter of the text form. *)
Definition plain (c : ascii) : Prop := c <> ","%char /\ c <> "="%char.

Definition hex_digit (n : Z) : ascii :=
  if n <? 10 then ascii_of_N (Z.to_N (48 + n))
  else ascii_of_N (Z.to_N (55 + n)).

(** [g_uri_escape_string (unescaped, NULL, TRUE)]: a valid multi-byte UTF-8
    character is copied, an unreserved character is copied, any other
    character [c] becomes '%' and the two upper-case hexadecimal digits of
    [c].  [copy] counts the bytes of a UTF-8 character still to copy. *)
Fixpoint uri_escape_from (copy : nat) (s : cstr) : cstr :=
  match s with
  | [] => []
  | c :: s' =>
      match copy with
      | S copy' => c :: uri_escape_from copy' s'
      | O =>
          if (128 <=? uchar c) && (0 <? utf8_multibyte_len s)%nat
          then c :: uri_escape_from (utf8_multibyte_len s - 1) s'
          else if is_unreserved c
          then c :: uri_escape_from 0 s'
          else "%"%char :: hex_digit (Z.shiftr (uchar c) 4)
                 :: hex_digit (Z.land (uchar c) 15)
                 :: uri_escape_from 0 s'
      end
  end.

Definition g_uri_escape_string (unescaped : option cstr) : option cstr :=
  uri_escape_from 0 <$> unescaped.

(** [g_ascii_xdigit_value] *)
Definition g_ascii_xdigit_value (c : ascii) : option Z :=
  if in_range 48 57 c then Some (uchar c - 48)
  else if in_range 65 70 c then Some (uchar c - 55)
  else if in_range 97 102 c then Some (uchar c - 87)
  else None.

(** [g_uri_unescape_string (escaped, NULL)]: '%' and two hexadecimal digits
    give the character of that value; the result is null when a '%' is not
    followed by two hexadecimal digits, or gives the character NUL. *)
Fixpoint g_uri_unescape_string (escaped : cstr) : option cstr :=
  match escaped with
  | [] => Some []
  | c :: rest =>
      if ascii_eqb c "%" then
        match rest with
        | h1 :: h2 :: rest' =>
            match g_ascii_xdigit_value h1, g_ascii_xdigit_value h2 with
            | Some d1, Some d2 =>
                let character := Z.lor (Z.shiftl d1 4) d2 in
                if character <=? 0 then None
                else cons (ascii_of_N (Z.to_N character))
                       <$> g_uri_unescape_string rest'
            | _, _ => None
            end
        | _ => None
        end
      else cons c <$> g_uri_unescape_string rest
  end.

(** ** The text codec *)

(** What ["%s"] prints for a string, "(null)" for a null pointer. *)
Definition printf_s (s : option cstr) : cstr :=
  match s with
  | Some s => s
  | None => lit "(null)"
  end.

Definition g_mount_spec_to_string (spec : option GMountSpec) : cstr :=
  match spec with
  | None => lit "(null)"
  | Some spec =>
      let str :=
        fold_left
          (fun str item =>
             let k := g_uri_escape_string (Some (key item)) in
             let v := g_uri_escape_string (Some (value item)) in
             str ++ printf_s k ++ lit "=" ++ printf_s v ++ lit ",")
          (items spec) [] in
      let k := g_uri_escape_string (Some (lit "__mount_prefix")) in
      let v := g_uri_escape_string (mount_prefix spec) in
      str ++ printf_s k ++ lit "=" ++ printf_s v
  end.

Inductive GIOErrorEnum :=
| G_IO_ERROR_FAILED
| G_IO_ERROR_INVALID_ARGUMENT
| G_IO_ERROR_BUSY
| G_IO_ERROR_FAILED_HANDLED.

(** An error of the domain [G_IO_ERROR]. *)
Record GError := {
  code : GIOErrorEnum;
  message : cstr;
}.

(** The items collected so far: the value of an item is null when
    [g_uri_unescape_string] rejects it. *)
Definition raw_item : Type := cstr * option cstr.

(** What [g_mount_spec_new_from_string] does with its input. *)
Inductive decoded :=
| Decoded (spec : GMountSpec)
    (** a spec is returned *)
| DecodeError (error : GError)
    (** null is returned and the error is set *)
| NullKey
    (** the key of a pair does not unescape: [strcmp] reads the null
        pointer *)
| NullValue (its : list raw_item) (prefix : cstr)
    (** a spec is returned, with one reference and no mark, of these items
        in this order, one of them at least with the null pointer as its
        value, and of this prefix *).

(** [item_compare] on such items: it reads the keys only. *)
Definition raw_compare (a b : raw_item) : Z := strcmp a.1 b.1.

(** The items of the array, when none of the values is null. *)
Fixpoint checked_items (its : list raw_item)
  : option (list GMountSpecItem) :=
  match its with
  | [] => Some []
  | (k, Some v) :: rest =>
      cons {| key := k; value := v |} <$> checked_items rest
  | (_, None) :: _ => None
  end.

(** After the loop over the pairs. *)
Definition decode_finish (str : cstr) (its : list raw_item)
    (prefix : option cstr) : decoded :=
  match prefix with
  | None =>
      DecodeError
        {| code := G_IO_ERROR_INVALID_ARGUMENT;
           message :=
             lit "Didn't find __mount_prefix while decoding '" ++ str
             ++ lit "' GMountSpec" |}
  | Some prefix =>
      (* this constructor takes ownership of the data we pass in *)
      match checked_items its with
      | Some its => Decoded (g_mount_spec_new_from_data its (Some prefix))
      | None => NullValue (g_array_sort raw_compare its) prefix
      end
  end.

(** The loop over the pairs, with the items and the mount prefix found so
    far, and what follows it. *)
Fixpoint decode_pairs (str : cstr) (kv_pairs : list cstr)
    (its : list raw_item) (prefix : option cstr) : decoded :=
  match kv_pairs with
  | [] => decode_finish str its prefix
  | kv_pair :: kv_pairs' =>
      let tokens := g_strsplit kv_pair "=" in
      match tokens with
      | [token0; token1] =>
          match g_uri_unescape_string token0 with
          | None => NullKey
          | Some item_key =>
              let item_value := g_uri_unescape_string token1 in
              if strcmp item_key (lit "__mount_prefix") =? 0
              then decode_pairs str kv_pairs' its item_value
              else decode_pairs str kv_pairs'
                     (its ++ [(item_key, item_value)]) prefix
          end
      | _ =>
          DecodeError
            {| code := G_IO_ERROR_INVALID_ARGUMENT;
               message :=
                 lit "Encountered invalid key/value pair '" ++ kv_pair
                 ++ lit "' while decoding GMountSpec" |}
      end
  end.

Definition g_mount_spec_new_from_string (str : cstr) : decoded :=
  decode_pairs str (g_strsplit str ",") [] None.

(** The pair written for an item, without the comma that follows it. *)
Definition item_pair (item : GMountSpecItem) : cstr :=
  uri_escape_from 0 (key item) ++ lit "=" ++ uri_escape_from 0 (value item).

(** An item as the decoder collects it. *)
Definition raw (item : GMountSpecItem) : raw_item :=
  (key item, Some (value item)).

(** An item that the text form can carry: C strings, and a key other than
    the one kept for the prefix. *)
Definition text_item (item : GMountSpecItem) : Prop :=
  is_cstring (key item) /\ is_cstring (value item) /\
  key item <> lit "__mount_prefix".

(** A well-formed pair of the text form: it splits on '=' into exactly two
    tokens, and both unescape; the key and the value that it stands for. *)
Definition well_formed_pair (kv_pair : cstr) : option (cstr * cstr) :=
  match g_strsplit kv_pair "=" with
  | [token0; token1] =>
      match g_uri_unescape_string token0, g_uri_unescape_string token1 with
      | Some k, Some v => Some (k, v)
      | _, _ => None
      end
  | _ => None
  end.

Fixpoint well_formed_pairs (kv_pairs : list cstr)
  : option (list (cstr * cstr)) :=
  match kv_pairs with
  | [] => Some []
  | kv_pair :: kv_pairs' =>
      match well_formed_pair kv_pair, well_formed_pairs kv_pairs' with
      | Some kv, Some kvs => Some (kv :: kvs)
      | _, _ => None
      end
  end.

Definition is_prefix_pair (kv : cstr * cstr) : bool :=
  strcmp kv.1 (lit "__mount_prefix") =? 0.

(** The values of the pairs under the key "__mount_prefix", in order. *)
Definition prefix_values (kvs : list (cstr * cstr)) : list cstr :=
  snd <$> List.filter is_prefix_pair kvs.

(** The other pairs, as items, in order. *)
Definition item_pairs (kvs : list (cstr * cstr)) : list GMountSpecItem :=
  (fun kv => {| key := kv.1; value := kv.2 |})
    <$> List.filter (fun kv => negb (is_prefix_pair kv)) kvs.

(** *** The items that the decoders are given *)

(** The key and the value that a pair of the text form stands for, the
    value null when it does not unescape; [None] for a pair that does not
    split on '=' into exactly two tokens, or whose key does not
    unescape. *)
Definition raw_pair (kv_pair : cstr) : option raw_item :=
  match g_strsplit kv_pair "=" with
  | [token0; token1] =>
      match g_uri_unescape_string token0 with
      | Some k => Some (k, g_uri_unescape_string token1)
      | None => None
      end
  | _ => None
  end.

Fixpoint raw_pairs (kv_pairs : list cstr) : option (list raw_item) :=
  match kv_pairs with
  | [] => Some []
  | kv_pair :: kv_pairs' =>
      match raw_pair kv_pair, raw_pairs kv_pairs' with
      | Some r, Some rs => Some (r :: rs)
      | _, _ => None
      end
  end.

Definition is_prefix_key (r : raw_item) : bool :=
  strcmp r.1 (lit "__mount_prefix") =? 0.

(** The pairs that are items, in order. *)
Definition item_raws (rs : list raw_item) : list raw_item :=
  List.filter (fun r => negb (is_prefix_key r)) rs.

(** An item whose value may be null, as an item: the key is what the
    order of the items looks at. *)
Definition raw_as_item (r : raw_item) : GMountSpecItem :=
  {| key := r.1; value := default [] r.2 |}.

(** ** The path canonicalizer *)

(** [memmove (p, q, strlen (q) + 1)] inside the string [canon], for
    [p <= q]: the string from [q] on, with its terminator, moves to [p]. *)
Definition memmove_tail (canon : cstr) (p q : nat) : cstr :=
  take p canon ++ drop q canon.

(** Writing the terminator at [p]: the string now ends there. *)
Definition terminate_at (canon : cstr) (p : nat) : cstr := take p canon.

(** The loop that skips until the next separator, as the number of steps
    it makes on the string that starts at [p]. *)
Fixpoint segment_len (s : cstr) : nat :=
  match s with
  | [] => O
  | c :: s' => if ascii_eqb c "/" then O else S (segment_len s')
  end.

(** The loop that skips the additional separators, likewise. *)
Fixpoint slash_run (s : cstr) : nat :=
  match s with
  | [] => O
  | c :: s' => if ascii_eqb c "/" then S (slash_run s') else O
  end.

(** The position after the initial slash. *)
Definition start : nat := 1.

(** The loop that steps [p] back to the previous separator, no further
    than [start]. *)
Fixpoint back_to_separator (canon : cstr) (p : nat) : nat :=
  match p with
  | O => O
  | S p' =>
      if (start <? p)%nat && negb (char_is canon p "/")
      then back_to_separator canon p'
      else p
  end.

(** A string without the separators it starts with. *)
Definition strip (s : cstr) : cstr := drop (slash_run s) s.

(** What follows a segment: the end of the string, or a separator. *)
Definition ends_segment (after : cstr) : Prop :=
  after = [] \/ exists after', after = "/"%char :: after'.

(** The turn of the loop for a ".." segment at [p]: [p] steps back over the
    previous separator and the segment before it. *)
Definition previous_segment (canon : cstr) (p : nat) : nat :=
  (* Skip previous separator *)
  let p := if Z.of_nat p - 2 <? Z.of_nat start then start
           else Z.to_nat (Z.of_nat p - 2) in
  let p := back_to_separator canon p in
  if char_is canon p "/" then (p + 1)%nat else p.

(** The end of every turn: the separators at [p] are removed. *)
Definition remove_separators (canon : cstr) (p : nat) : cstr * nat :=
  let q := (p + slash_run (drop p canon))%nat in
  if negb (p =? q)%nat then (memmove_tail canon p q, p) else (canon, p).

(** One turn of the main loop. *)
Definition canonicalize_step (canon : cstr) (p : nat) : cstr * nat :=
  let '(canon, p) :=
    if char_is canon p "."
       && (char_nul canon (p + 1) || char_is canon (p + 1) "/")
    then (memmove_tail canon p (p + 1), p)
    else if char_is canon p "." && char_is canon (p + 1) "."
            && (char_nul canon (p + 2) || char_is canon (p + 2) "/")
    then
      let q := (p + 2)%nat in
      let p := previous_segment canon p in
      (memmove_tail canon p q, p)
    else
      (* Skip until next separator *)
      let p := (p + segment_len (drop p canon))%nat in
      (* Keep one separator *)
      let p := if negb (char_nul canon p) then (p + 1)%nat else p in
      (canon, p)
  in
  (* Remove additional separators *)
  remove_separators canon p.

(** The loop, for at most [fuel] turns: the string and [p] when it is left,
    [None] when the turns do not suffice. *)
Fixpoint canonicalize_loop (fuel : nat) (canon : cstr) (p : nat)
  : option (cstr * nat) :=
  if char_nul canon p then Some (canon, p)
  else
    match fuel with
    | O => None
    | S fuel' =>
        let '(canon, p) := canonicalize_step canon p in
        canonicalize_loop fuel' canon p
    end.

(** The end of [g_mount_spec_canonicalize_path]: a trailing slash is
    removed. *)
Definition remove_trailing (canon : cstr) (p : nat) : cstr :=
  if (start <? p)%nat && char_is canon (p - 1) "/"
  then terminate_at canon (p - 1)
  else canon.

(** The body of [g_mount_spec_canonicalize_path], its loop given [fuel]
    turns. *)
Definition canonicalize_with (fuel : nat) (path : cstr) : option cstr :=
  let canon :=
    if negb (char_is path 0 "/") then lit "/" ++ path else path in
  (* Skip initial slash *)
  match canonicalize_loop fuel canon start with
  | Some (canon, p) => Some (remove_trailing canon p)
  | None => None
  end.

(** [g_mount_spec_canonicalize_path]: the loop is given as many turns as
    the path has characters, which suffice, since every turn shortens the
    string that starts at [p] (see [canonicalize_path_canonical_form]). *)
Definition g_mount_spec_canonicalize_path (path : cstr) : option cstr :=
  canonicalize_with (strlen path) path.

(** *** The canonical form, by segments

    The path after its initial slash is cut at every '/' into segments.  A
    "." segment and an empty segment are dropped, a ".." segment drops the
    segment before it, any other segment is kept; the segments kept are
    joined by '/' after an initial '/'.  The first segment is kept even
    when it is empty, that is when the path starts with two slashes, and an
    empty segment is not dropped by "..". *)
Definition is_dot (s : cstr) : bool :=
  match s with
  | [c] => ascii_eqb c "."
  | _ => false
  end.

Definition is_dotdot (s : cstr) : bool :=
  match s with
  | [c; d] => ascii_eqb c "." && ascii_eqb d "."
  | _ => false
  end.

Definition is_empty (s : cstr) : bool :=
  match s with
  | [] => true
  | _ => false
  end.

Definition pop (stack : list cstr) : list cstr :=
  match last stack with
  | Some (_ :: _) => removelast stack
  | _ => stack
  end.

Fixpoint keep_segments (stack : list cstr) (segs : list cstr) : list cstr :=
  match segs with
  | [] => stack
  | s :: segs' =>
      if is_dot s then keep_segments stack segs'
      else if is_dotdot s then keep_segments (pop stack) segs'
      else if is_empty s then keep_segments stack segs'
      else keep_segments (stack ++ [s]) segs'
  end.

Fixpoint join_slash (segs : list cstr) : cstr :=
  match segs with
  | [] => []
  | [s] => s
  | s :: segs' => s ++ "/"%char :: join_slash segs'
  end.

Definition absolute (segs : list cstr) : cstr := "/"%char :: join_slash segs.

Definition canonical_form (path : cstr) : cstr :=
  let rest :=
    match path with
    | c :: path' => if ascii_eqb c "/" then path' else path
    | [] => path
    end in
  absolute
    match rest with
    | c :: rest' =>
        if ascii_eqb c "/" then keep_segments [[]] (split_on "/" rest')
        else keep_segments [] (split_on "/" rest)
    | [] => []
    end.

(** The string before [p] when the segments of [stack] are behind: every
    segment with its separator. *)
Definition behind (stack : list cstr) : cstr :=
  "/"%char :: concat ((fun s => s ++ ["/"%char]) <$> stack).

(** A segment that the loop keeps, and a stack of them: no segment but the
    first is empty. *)
Definition segment_ok (s : cstr) : Prop :=
  Forall (fun c => c <> "/"%char) s /\ is_dot s = false /\
  is_dotdot s = false.

Definition stack_ok (stack : list cstr) : Prop :=
  Forall segment_ok stack /\ Forall (fun s => s <> []) (tail stack).

(** The length of the string behind a stack, and of the segments that
    a string is cut into, each with its separator. *)
Definition with_separators (segs : list cstr) : nat :=
  length (concat ((fun s => s ++ ["/"%char]) <$> segs)).

(** ** The wire codec *)

(** The type codes of the message format that the codec looks at. *)
Inductive dbus_type :=
| DBUS_TYPE_INVALID
| DBUS_TYPE_STRING
| G_DBUS_TYPE_CSTRING
| DBUS_TYPE_ARRAY
| DBUS_TYPE_STRUCT
| DBUS_TYPE_OTHER.

Definition dbus_type_eqb (a b : dbus_type) : bool :=
  match a, b with
  | DBUS_TYPE_INVALID, DBUS_TYPE_INVALID
  | DBUS_TYPE_STRING, DBUS_TYPE_STRING
  | G_DBUS_TYPE_CSTRING, G_DBUS_TYPE_CSTRING
  | DBUS_TYPE_ARRAY, DBUS_TYPE_ARRAY
  | DBUS_TYPE_STRUCT, DBUS_TYPE_STRUCT
  | DBUS_TYPE_OTHER, DBUS_TYPE_OTHER => true
  | _, _ => false
  end.

(** Modelled from the spec: the message format of the transport and the
    helpers of gdbusutils, which are not part of the sources at hand.  A
    message is a sequence of values: standard strings, C-strings, arrays
    with the type of their elements, structs of fields, and values of the
    other types. *)
#[warnings="-register-all"]
Inductive dbus_value :=
| DString (s : cstr)
| DCString (s : cstr)
| DArray (element_type : dbus_type) (elements : list dbus_value)
| DStruct (fields : list dbus_value)
| DOther.

(** An iterator is the sequence of the values not yet read at its level. *)
Definition DBusMessageIter : Type := list dbus_value.

Definition value_type (v : dbus_value) : dbus_type :=
  match v with
  | DString _ => DBUS_TYPE_STRING
  | DCString _ => G_DBUS_TYPE_CSTRING
  | DArray _ _ => DBUS_TYPE_ARRAY
  | DStruct _ => DBUS_TYPE_STRUCT
  | DOther => DBUS_TYPE_OTHER
  end.

Definition dbus_message_iter_get_arg_type (iter : DBusMessageIter)
  : dbus_type :=
  match iter with
  | [] => DBUS_TYPE_INVALID
  | v :: _ => value_type v
  end.

Definition dbus_message_iter_get_element_type (iter : DBusMessageIter)
  : dbus_type :=
  match iter with
  | DArray t _ :: _ => t
  | _ => DBUS_TYPE_INVALID
  end.

Definition dbus_message_iter_recurse (iter : DBusMessageIter)
  : DBusMessageIter :=
  match iter with
  | DArray _ l :: _ => l
  | DStruct l :: _ => l
  | _ => []
  end.

Definition dbus_message_iter_next (iter : DBusMessageIter)
  : DBusMessageIter :=
  match iter with
  | [] => []
  | _ :: iter' => iter'
  end.

(** Modelled from the spec: [_g_dbus_message_iter_get_args] for one
    C-string: the string and the iterator after it, or [None] when the next
    value is no C-string. *)
Definition get_args_cstring (iter : DBusMessageIter)
  : option (cstr * DBusMessageIter) :=
  match iter with
  | DCString s :: iter' => Some (s, iter')
  | _ => None
  end.

(** Modelled from the spec: [_g_dbus_message_iter_get_args] for a standard
    string followed by a C-string. *)
Definition get_args_string_cstring (iter : DBusMessageIter)
  : option (cstr * cstr * DBusMessageIter) :=
  match iter with
  | DString k :: DCString v :: iter' => Some (k, v, iter')
  | _ => None
  end.

(** The loop over the array of [g_mount_spec_from_dbus]: an element that is
    a struct is read, and added when it reads as a key and a value; the
    loop ends at the first element that is no struct. *)
Fixpoint from_dbus_items (array_iter : DBusMessageIter) (spec : GMountSpec)
  : GMountSpec :=
  match array_iter with
  | DStruct fields :: array_iter' =>
      let struct_iter := fields in
      let spec :=
        match get_args_string_cstring struct_iter with
        | Some (k, v, _) => add_item spec k v
        | None => spec
        end in
      from_dbus_items array_iter' spec
  | _ => spec
  end.

(** [g_mount_spec_from_dbus]: the spec and the iterator moved past it, or
    [None] for the null result, which leaves the iterator where it is. *)
Definition g_mount_spec_from_dbus (iter : DBusMessageIter)
  : option (GMountSpec * DBusMessageIter) :=
  if negb (dbus_type_eqb (dbus_message_iter_get_arg_type iter)
             DBUS_TYPE_STRUCT)
  then None
  else
    let spec_iter := dbus_message_iter_recurse iter in
    match get_args_cstring spec_iter with
    | None => None
    | Some (prefix, spec_iter) =>
        let spec := g_mount_spec_new None in
        let spec := g_mount_spec_set_mount_prefix spec (Some prefix) in
        if negb (dbus_type_eqb (dbus_message_iter_get_arg_type spec_iter)
                   DBUS_TYPE_ARRAY)
           || negb (dbus_type_eqb
                      (dbus_message_iter_get_element_type spec_iter)
                      DBUS_TYPE_STRUCT)
        then None
        else
          let array_iter := dbus_message_iter_recurse spec_iter in
          let spec := from_dbus_items array_iter spec in
          let iter := dbus_message_iter_next iter in
          (* Sort on key *)
          Some (with_items spec (g_array_sort item_compare (items spec)),
                iter)
    end.

(** [g_mount_spec_to_dbus_with_path] appends one struct to the message under
    construction: the path, or the empty string for a null path, as a
    C-string, then the array of the items, each a struct of the key as a
    standard string and the value as a C-string
    ([G_MOUNT_SPEC_ITEM_TYPE_AS_STRING] is the signature of that struct).
    The appends of the transport are taken to succeed: one that fails ends
    the process in [_g_dbus_oom]. *)
Definition g_mount_spec_to_dbus_with_path (iter : list dbus_value)
    (spec : GMountSpec) (path : option cstr) : list dbus_value :=
  let spec_iter :=
    [DCString (match path with Some path => path | None => lit "" end)] in
  let array_iter :=
    fold_left
      (fun array_iter item =>
         let item_iter := [DString (key item); DCString (value item)] in
         array_iter ++ [DStruct item_iter])
      (items spec) [] in
  let spec_iter := spec_iter ++ [DArray DBUS_TYPE_STRUCT array_iter] in
  iter ++ [DStruct spec_iter].

Definition g_mount_spec_to_dbus (iter : list dbus_value) (spec : GMountSpec)
  : list dbus_value :=
  g_mount_spec_to_dbus_with_path iter spec (mount_prefix spec).

(** The struct of an item on the wire. *)
Definition item_struct (item : GMountSpecItem) : dbus_value :=
  DStruct [DString (key item); DCString (value item)].

(** The item that an element of the array of a message stands for: a
    struct that starts with a standard string and a C-string. *)
Definition struct_item (v : dbus_value) : option GMountSpecItem :=
  match v with
  | DStruct (DString k :: DCString v :: _) => Some {| key := k; value := v |}
  | _ => None
  end.

(** ** The table of unique specs *)

(** A [GMountSpec *] is an address of the heap of spec objects. *)
Definition ptr := nat.

(** The [GHashTable] from spec to spec: its entries, a key and a value
    each, in the order of insertion. *)
Definition GHashTable : Type := list (ptr * ptr).

(** The heap and the static [unique_hash], null until the first call. *)
Record state := {
  heap : gmap ptr GMountSpec;
  unique_hash : option GHashTable;
}.

(** [g_hash_table_lookup] with [g_mount_spec_hash] and
    [g_mount_spec_equal]: the value of the first entry whose key has the
    hash of the looked-up key and is equal to it. *)
Definition key_matches (h : gmap ptr GMountSpec) (spec : GMountSpec)
    (entry : ptr * ptr) : bool :=
  match h !! entry.1 with
  | Some node_key =>
      (g_mount_spec_hash node_key =? g_mount_spec_hash spec)
      && g_mount_spec_equal node_key spec
  | None => false
  end.

Definition g_hash_table_lookup (h : gmap ptr GMountSpec)
    (table : GHashTable) (spec : GMountSpec) : option ptr :=
  snd <$> find (key_matches h spec) table.

(** [g_hash_table_insert]: the value of the entry with an equal key is
    replaced; a key that is not in the table is added. *)
Fixpoint g_hash_table_insert (h : gmap ptr GMountSpec)
    (table : GHashTable) (spec : GMountSpec) (k v : ptr) : GHashTable :=
  match table with
  | [] => [(k, v)]
  | entry :: table' =>
      if key_matches h spec entry then (entry.1, v) :: table'
      else entry :: g_hash_table_insert h table' spec k v
  end.

(** [g_hash_table_remove] *)
Fixpoint g_hash_table_remove (h : gmap ptr GMountSpec)
    (table : GHashTable) (spec : GMountSpec) : GHashTable :=
  match table with
  | [] => []
  | entry :: table' =>
      if key_matches h spec entry then table'
      else entry :: g_hash_table_remove h table' spec
  end.

Definition set_ref_count (spec : GMountSpec) (n : Z) : GMountSpec :=
  {| ref_count := n; items := items spec;
     mount_prefix := mount_prefix spec; is_unique := is_unique spec |}.

Definition set_is_unique (spec : GMountSpec) (b : bool) : GMountSpec :=
  {| ref_count := ref_count spec; items := items spec;
     mount_prefix := mount_prefix spec; is_unique := b |}.

(** The counter of references is a [volatile int], of 32 bits: the
    value that the sum of two of them wraps to. *)
Definition wrap_int (n : Z) : Z := (n + 2 ^ 31) mod 2 ^ 32 - 2 ^ 31.

(** [g_atomic_int_inc], as the value that it leaves. *)
Definition g_atomic_int_inc (n : Z) : Z := wrap_int (n + 1).

(** [g_atomic_int_dec_and_test], as the value that it leaves and whether
    that value is zero. *)
Definition g_atomic_int_dec_and_test (n : Z) : Z * bool :=
  let n := wrap_int (n - 1) in (n, n =? 0).

(** [g_mount_spec_ref] on the object at [p]. *)
Definition g_mount_spec_ref (st : state) (p : ptr) : state :=
  {| heap := alter (fun spec =>
                      set_ref_count spec (g_atomic_int_inc (ref_count spec)))
               p (heap st);
     unique_hash := unique_hash st |}.

(** The table of a state, empty when it was not created yet. *)
Definition table_of (st : state) : GHashTable :=
  match unique_hash st with
  | None => []
  | Some table => table
  end.

(** [g_mount_spec_get_unique_for]: the returned pointer and the state after
    the call; [None] when [spec] points to no object.  The calls are taken
    one at a time, each one whole: the lock on the table is not modelled. *)
Definition g_mount_spec_get_unique_for (st : state) (spec : ptr)
  : option (ptr * state) :=
  match heap st !! spec with
  | None => None
  | Some obj =>
      if is_unique obj then Some (spec, g_mount_spec_ref st spec)
      else
        let table := table_of st in
        let '(unique_spec, st) :=
          match g_hash_table_lookup (heap st) table obj with
          | None =>
              let h := <[spec := set_is_unique obj true]> (heap st) in
              (spec,
               {| heap := h;
                  unique_hash :=
                    Some (g_hash_table_insert h table obj spec spec) |})
          | Some unique_spec =>
              (unique_spec,
               {| heap := heap st; unique_hash := Some table |})
          end in
        Some (unique_spec, g_mount_spec_ref st unique_spec)
  end.

(** [g_mount_spec_unref]: the last reference removes a unique spec from the
    table and frees the object. *)
Definition g_mount_spec_unref (st : state) (spec : ptr) : option state :=
  match heap st !! spec with
  | None => None
  | Some obj =>
      let '(count, is_zero) := g_atomic_int_dec_and_test (ref_count obj) in
      if is_zero then
        Some {| heap := delete spec (heap st);
                unique_hash :=
                  match unique_hash st with
                  | Some table =>
                      if is_unique obj
                      then Some (g_hash_table_remove (heap st) table obj)
                      else Some table
                  | None => None
                  end |}
      else
        Some {| heap := <[spec := set_ref_count obj count]> (heap st);
                unique_hash := unique_hash st |}
  end.

(** A sequence of calls of [g_mount_spec_get_unique_for], one for each
    pointer of [calls]: the pointers returned, in order, and the last
    state. *)
Fixpoint get_unique_for_all (st : state) (calls : list ptr)
  : option (list ptr * state) :=
  match calls with
  | [] => Some ([], st)
  | spec :: calls' =>
      match g_mount_spec_get_unique_for st spec with
      | None => None
      | Some (unique_spec, st) =>
          match get_unique_for_all st calls' with
          | None => None
          | Some (results, st) => Some (unique_spec :: results, st)
          end
      end
  end.

(** The state of a process that has not called
    [g_mount_spec_get_unique_for] yet: no table, and no spec marked
    unique. *)
Definition fresh (st : state) : Prop :=
  unique_hash st = None /\
  map_Forall (fun _ obj => is_unique obj = false) (heap st).

(** The unique specs of a state are pairwise different in content. *)
Definition one_unique_per_class (st : state) : Prop :=
  forall p q A B,
    heap st !! p = Some A -> heap st !! q = Some B ->
    is_unique A = true -> is_unique B = true ->
    g_mount_spec_equal A B = true -> p = q.

(** The table holds the unique specs, each under itself. *)
Definition registry_ok (st : state) : Prop :=
  (forall k v, (k, v) ∈ table_of st ->
               k = v /\ exists obj, heap st !! k = Some obj /\
                                    is_unique obj = true) /\
  (forall p obj, heap st !! p = Some obj -> is_unique obj = true ->
                 (p, p) ∈ table_of st) /\
  one_unique_per_class st.

(** The content of a spec, which a call leaves alone; a call may mark the
    spec unique and count a reference. *)
Definition same_spec (A B : GMountSpec) : Prop :=
  items B = items A /\ mount_prefix B = mount_prefix A /\
  (is_unique A = true -> is_unique B = true).

Definition same_heap (st st' : state) : Prop :=
  forall p,
    match heap st !! p, heap st' !! p with
    | Some A, Some B => same_spec A B
    | None, None => True
    | _, _ => False
    end.

(** The spec that a call returns, seen from the state before the call and
    the state after it: it is marked unique and has the content of the
    argument. *)
Definition returned (st st' : state) (p r : ptr) : Prop :=
  exists obj R,
    heap st !! p = Some obj /\ heap st' !! r = Some R /\
    is_unique R = true /\
    items R = items obj /\ mount_prefix R = mount_prefix obj.

(** ** Sequences of calls *)

(** A call of a client on a spec: [g_mount_spec_ref],
    [g_mount_spec_unref] or [g_mount_spec_get_unique_for]. *)
Inductive spec_call :=
| CallRef (spec : ptr)
| CallUnref (spec : ptr)
| CallGetUniqueFor (spec : ptr).

(** The state after a call, [None] when the spec points to no object. *)
Definition run_call (st : state) (call : spec_call) : option state :=
  match call with
  | CallRef spec =>
      match heap st !! spec with
      | Some _ => Some (g_mount_spec_ref st spec)
      | None => None
      end
  | CallUnref spec => g_mount_spec_unref st spec
  | CallGetUniqueFor spec => snd <$> g_mount_spec_get_unique_for st spec
  end.

Fixpoint run_calls (st : state) (calls : list spec_call) : option state :=
  match calls with
  | [] => Some st
  | call :: calls' =>
      match run_call st call with
      | Some st => run_calls st calls'
      | None => None
      end
  end.

(** ** The arguments of a daemon *)

(** The static variables of daemon-main.c that [daemon_parse_args]
    writes. *)
Record daemon_globals := {
  spawner_id : option cstr;
  spawner_path : option cstr;
  print_debug : bool;
}.

(** [strchr (s, c)], as the offset of the first [c] in [s]; [None] is the
    null pointer. *)
Fixpoint strchr (s : cstr) (c : ascii) : option nat :=
  match s with
  | [] => None
  | d :: s' => if ascii_eqb d c then Some O else S <$> strchr s' c
  end.

(** The messages that [daemon_parse_args] prints before [exit (1)], each
    with the [argv[0]] that it names. *)
Inductive usage_error :=
| UsageSpawner (argv0 : option cstr)
| UsageKeyValue (argv0 : option cstr)
| NoMountType (argv0 : option cstr).

(** What a call of [daemon_parse_args] does: it returns a spec, or null,
    and leaves the static variables; or it ends the process. *)
Inductive parse_outcome :=
| Returns (mount_spec : option GMountSpec) (globals : daemon_globals)
| Exits (status : Z) (printed : usage_error).

(** The loop over [argv[1]], ..., [argv[argc - 1]]: the spec and
    [found_type] after it, [None] when an argument is no key=value. *)
Fixpoint parse_key_values (args : list cstr) (mount_spec : GMountSpec)
    (found_type : bool) : option (GMountSpec * bool) :=
  match args with
  | [] => Some (mount_spec, found_type)
  | arg :: args' =>
      match strchr arg "=" with
      | None => None
      | Some p =>
          if char_nul arg (p + 1) || (p =? 0)%nat then None
          else
            let k := g_strndup arg p in
            let found_type :=
              if strcmp k (lit "type") =? 0 then true else found_type in
            let mount_spec :=
              g_mount_spec_set mount_spec (Some k)
                (Some (drop (p + 1) arg)) in
            parse_key_values args' mount_spec found_type
      end
  end.

(** [daemon_parse_args], given the static variables and whether the
    environment has GVFS_DEBUG; [argc] is the length of [argv]. *)
Definition daemon_parse_args (globals : daemon_globals) (gvfs_debug : bool)
    (argv : list cstr) (default_type : option cstr) : parse_outcome :=
  let '(debug, argv) :=
    if (1 <? length argv)%nat
       && (strcmp (default [] (argv !! 1%nat)) (lit "--debug") =? 0)
    then (true, tail argv)
    else if gvfs_debug then (true, argv)
    else (print_debug globals, argv) in
  if (1 <? length argv)%nat
     && (strcmp (default [] (argv !! 1%nat)) (lit "--spawner") =? 0)
  then
    if (length argv <? 4)%nat then Exits 1 (UsageSpawner (head argv))
    else
      Returns None
        {| spawner_id := argv !! 2%nat; spawner_path := argv !! 3%nat;
           print_debug := debug |}
  else
    let globals :=
      {| spawner_id := spawner_id globals;
         spawner_path := spawner_path globals; print_debug := debug |} in
    if (1 <? length argv)%nat || bool_decide (is_Some default_type)
    then
      let mount_spec := g_mount_spec_new default_type in
      let found_type := bool_decide (is_Some default_type) in
      match parse_key_values (tail argv) mount_spec found_type with
      | None => Exits 1 (UsageKeyValue (head argv))
      | Some (mount_spec, found_type) =>
          if negb found_type then Exits 1 (NoMountType (head argv))
          else Returns (Some mount_spec) globals
      end
    else Returns None globals.

(** The argument written for a key and a value. *)
Definition key_value_arg (kv : cstr * cstr) : cstr :=
  kv.1 ++ "="%char :: kv.2.

(** A key and a value that an argument can carry. *)
Definition arg_pair (kv : cstr * cstr) : Prop :=
  kv.1 <> [] /\ ("="%char ∉ kv.1) /\ kv.2 <> [].

(** ** The errors of udisks *)

(** The domain of an error: the quark of udisks, the one of GIO, or
    another one. *)
Inductive error_domain :=
| UDISKS_ERROR
| G_IO_ERROR
| OTHER_DOMAIN (quark : N).

(** The codes of [UDisksError] that the conversion tells apart, and the
    codes of [GIOErrorEnum]. *)
Definition UDISKS_ERROR_NOT_AUTHORIZED_DISMISSED : Z := 5.
Definition UDISKS_ERROR_DEVICE_BUSY : Z := 14.

Definition gio_code (e : GIOErrorEnum) : Z :=
  match e with
  | G_IO_ERROR_FAILED => 0
  | G_IO_ERROR_INVALID_ARGUMENT => 13
  | G_IO_ERROR_BUSY => 26
  | G_IO_ERROR_FAILED_HANDLED => 30
  end.

(** A [GError] of any domain. *)
Record domain_error := {
  error_domain_of : error_domain;
  error_code : Z;
  error_message : cstr;
}.

Section UDisksErrors.

(** [g_dbus_error_strip_remote_error] of GIO, on the message. *)
Variable g_dbus_error_strip_remote_error : cstr -> cstr.

(** [gvfs_udisks2_utils_udisks_error_to_gio_error], on an error that is
    not null. *)
Definition gvfs_udisks2_utils_udisks_error_to_gio_error
    (error : domain_error) : domain_error :=
  let new_code :=
    match error_domain_of error with
    | UDISKS_ERROR =>
        if error_code error =? UDISKS_ERROR_DEVICE_BUSY
        then gio_code G_IO_ERROR_BUSY
        else if error_code error =? UDISKS_ERROR_NOT_AUTHORIZED_DISMISSED
        then gio_code G_IO_ERROR_FAILED_HANDLED
        else gio_code G_IO_ERROR_FAILED
    | _ => gio_code G_IO_ERROR_FAILED
    end in
  {| error_domain_of := G_IO_ERROR;
     error_code := new_code;
     error_message := g_dbus_error_strip_remote_error (error_message error) |}.

End UDisksErrors.

(** ** The items after a store *)

(** The items that [g_mount_spec_set_with_len] leaves, as a function of the
    items before: the spec keeps its other fields. *)
Definition stored (its : list GMountSpecItem) (k v : cstr)
  : list GMountSpecItem :=
  items (store_value
           {| ref_count := 1; items := its; mount_prefix := None;
              is_unique := false |} k v).

(** ** Matching a spec against a mount *)

(** [g_mount_spec_match (mount, path)], which hands the prefix of [path] to
    [g_mount_spec_match_with_path] as the path: [None] when that prefix is
    null and [path_has_prefix] passes it to [strncmp]. *)
Definition g_mount_spec_match (mount path : GMountSpec) : option bool :=
  if items_equal (items mount) (items path) then
    match mount_prefix mount, mount_prefix path with
    | None, _ => Some true
    | Some _, None => None
    | Some _, Some p =>
        Some (if path_has_prefix p (mount_prefix mount) then true else false)
    end
  else Some false.

(** ** Sample values *)

Definition ftp_items : list GMountSpecItem :=
  [{| key := lit "host"; value := lit "example.com" |};
   {| key := lit "type"; value := lit "ftp" |}].

Definition ftp_spec : GMountSpec :=
  {| ref_count := 1; items := ftp_items;
     mount_prefix := Some (lit "/pub"); is_unique := false |}.

Definition ftp_spec_shared : GMountSpec :=
  {| ref_count := 3; items := ftp_items;
     mount_prefix := Some (lit "/pub"); is_unique := true |}.

(** The spec left by [g_mount_spec_set_mount_prefix (spec, NULL)]. *)
Definition null_prefix_spec : GMountSpec :=
  g_mount_spec_set_mount_prefix ftp_spec None.

(** A spec with an item under the key that the text form keeps for the
    prefix, as [g_mount_spec_set] builds it. *)
Definition reserved_key_spec : GMountSpec :=
  g_mount_spec_set (g_mount_spec_new None)
    (Some (lit "__mount_prefix")) (Some (lit "x")).

(** Three specs of a process, the first two of one content. *)
Definition three_specs : state :=
  {| heap := {[ 1%nat := ftp_spec;
                2%nat := g_mount_spec_copy ftp_spec;
                3%nat := reserved_key_spec ]};
     unique_hash := None |}.

(** * Properties *)

Section CStrings.

Lemma ascii_eqb_true a b : ascii_eqb a b = true <-> a = b.
Proof. unfold ascii_eqb. apply Ascii.eqb_eq. Qed.

Lemma ascii_eqb_refl a : ascii_eqb a a = true.
Proof. by apply ascii_eqb_true. Qed.

Lemma ascii_eqb_false a b : ascii_eqb a b = false <-> a <> b.
Proof. unfold ascii_eqb. apply Ascii.eqb_neq. Qed.

Lemma uchar_range c : 0 <= uchar c < 256.
Proof. unfold uchar. pose proof (N_ascii_bounded c) as Hb. lia. Qed.

Lemma uchar_inj c d : uchar c = uchar d -> c = d.
Proof.
  unfold uchar. intros H. apply N2Z.inj in H.
  rewrite <- (ascii_N_embedding c), <- (ascii_N_embedding d). by rewrite H.
Qed.

Lemma char_cmp_nonzero c d : char_cmp c d <> 0.
Proof. unfold char_cmp. by destruct (uchar c <? uchar d). Qed.

Lemma strcmp_zero a b : strcmp a b = 0 <-> a = b.
Proof.
  revert b. induction a as [|c a IH]; intros [|d b]; simpl; try done.
  destruct (ascii_eqb c d) eqn:E.
  - apply ascii_eqb_true in E. subst d. rewrite IH. split; congruence.
  - apply ascii_eqb_false in E. pose proof (char_cmp_nonzero c d).
    split; [done | congruence].
Qed.

Lemma strcmp_refl a : strcmp a a = 0.
Proof. by apply strcmp_zero. Qed.

(** [strncmp] over the length of [b] is 0 exactly when [a] starts with
    [b]. *)
Lemma strncmp_prefix a b :
  strncmp a b (strlen b) = 0 <-> exists rest, a = b ++ rest.
Proof.
  unfold strlen. revert a. induction b as [|d b IH]; intros a; simpl.
  - split; [intros _; by exists a | done].
  - destruct a as [|c a].
    + split; [done | by intros [r Hr]].
    + destruct (ascii_eqb c d) eqn:E.
      * apply ascii_eqb_true in E. subst d. rewrite IH.
        split; intros [r Hr]; exists r; simpl in *; congruence.
      * apply ascii_eqb_false in E. pose proof (char_cmp_nonzero c d).
        split; [done |]. intros [r Hr]. simpl in Hr. congruence.
Qed.

End CStrings.

Section PathMatcher.

Lemma char_is_last (s : cstr) c :
  char_is s (strlen s - 1) c = true <-> last s = Some c.
Proof.
  unfold char_is, char_at, strlen. rewrite last_lookup.
  replace (Nat.pred (length s)) with (length s - 1)%nat by lia.
  destruct (s !! (length s - 1)%nat) as [d|] eqn:E;
    [rewrite ascii_eqb_true|]; split; congruence.
Qed.

Lemma char_nul_app (a b : cstr) :
  char_nul (a ++ b) (strlen a) = true <-> b = [].
Proof.
  unfold char_nul, char_at, strlen.
  rewrite lookup_app_r by lia. rewrite Nat.sub_diag.
  by destruct b; split.
Qed.

Lemma char_is_app (a b : cstr) c :
  char_is (a ++ b) (strlen a) c = true <-> head b = Some c.
Proof.
  unfold char_is, char_at, strlen.
  rewrite lookup_app_r by lia. rewrite Nat.sub_diag.
  destruct b as [|d b]; simpl; [by split|].
  rewrite ascii_eqb_true. split; congruence.
Qed.

(** C1, as stated, fails on one of its own examples: the path "/foo" does
    not start with the five characters of the prefix "/foo/", so
    [strncmp] is not 0 and the answer is false. *)
Lemma path_has_prefix_trailing_slash_counterexample :
  ~ (path_has_prefix (lit "/foo") (Some (lit "/foo/")) = true).
Proof. vm_compute. discriminate. Qed.

(** C1, amended. [path_has_prefix] answers true for a null prefix; for any
    other prefix it answers true if and only if the path starts with the
    characters of the prefix and the prefix is empty, or ends in '/', or
    is followed in the path by the end of the string or by '/'.  So
    "/foo/bar" has the prefix "/foo", "/foobar" has not, "/foo" has not
    the prefix "/foo/" (the trailing '/' of the prefix must be in the
    path too), and every path has the empty and the null prefix. *)
Theorem path_has_prefix_spec :
  (forall path, path_has_prefix path None = true) /\
  (forall path prefix,
      path_has_prefix path (Some prefix) = true <->
      exists rest,
        path = prefix ++ rest /\
        (prefix = [] \/ last prefix = Some "/"%char \/
         rest = [] \/ head rest = Some "/"%char)) /\
  path_has_prefix (lit "/foo/bar") (Some (lit "/foo")) = true /\
  path_has_prefix (lit "/foobar") (Some (lit "/foo")) = false /\
  path_has_prefix (lit "/foo") (Some (lit "/foo/")) = false /\
  (forall path, path_has_prefix path (Some (lit "")) = true).
Proof.
  split; [done|]. split; [|repeat split; intros; reflexivity].
  intros path prefix. unfold path_has_prefix.
  rewrite andb_true_iff, Z.eqb_eq, strncmp_prefix. split.
  - intros [[rest ->] Hb]. exists rest. split; [done|].
    rewrite !orb_true_iff, Nat.eqb_eq, char_is_last,
      char_nul_app, char_is_app in Hb.
    destruct prefix; [by left|]. simpl in Hb.
    destruct Hb as [[[?|?]|?]|?]; [done|by right;left| |]; auto.
  - intros (rest & -> & Hc). split; [by exists rest|].
    rewrite !orb_true_iff, Nat.eqb_eq, char_is_last,
      char_nul_app, char_is_app.
    destruct Hc as [->|[?|[?|?]]]; auto.
Qed.

End PathMatcher.

Section EqualityAndHash.

Lemma items_equal_from_eq a b :
  length a = length b -> items_equal_from a b = true -> a = b.
Proof.
  revert b. induction a as [|[ka va] a IH]; intros [|[kb vb] b] Hlen;
    simpl in *; try done.
  destruct (strcmp ka kb =? 0) eqn:Ek; simpl; [|done].
  destruct (strcmp va vb =? 0) eqn:Ev; simpl; [|done].
  apply Z.eqb_eq, strcmp_zero in Ek, Ev. subst. intros H.
  f_equal. apply IH; [lia | done].
Qed.

Lemma items_equal_eq a b : items_equal a b = true <-> a = b.
Proof.
  unfold items_equal. split.
  - destruct (length a =? length b)%nat eqn:E; simpl; [|done].
    apply Nat.eqb_eq in E. by apply items_equal_from_eq.
  - intros <-. rewrite Nat.eqb_refl. simpl.
    induction a as [|[ka va] a IH]; simpl; [done|].
    by rewrite !strcmp_refl.
Qed.

(** Two specs are equal when they have the same items and the same
    prefix, both null or both the same string. *)
Lemma g_mount_spec_equal_eq A B :
  g_mount_spec_equal A B = true <->
  items A = items B /\ mount_prefix A = mount_prefix B.
Proof.
  unfold g_mount_spec_equal. rewrite andb_true_iff, items_equal_eq.
  destruct (mount_prefix A) as [pa|], (mount_prefix B) as [pb|];
    try (split; [intros [? ?] | intros [? ?]]; done).
  rewrite Z.eqb_eq, strcmp_zero. split; intros [? ?]; split; congruence.
Qed.

Lemma g_mount_spec_equal_refl A : g_mount_spec_equal A A = true.
Proof. by apply g_mount_spec_equal_eq. Qed.

Lemma g_mount_spec_equal_sym A B :
  g_mount_spec_equal A B = g_mount_spec_equal B A.
Proof.
  destruct (g_mount_spec_equal A B) eqn:E1,
    (g_mount_spec_equal B A) eqn:E2; try done.
  - apply g_mount_spec_equal_eq in E1 as [? ?].
    assert (g_mount_spec_equal B A = true) by by apply g_mount_spec_equal_eq.
    congruence.
  - apply g_mount_spec_equal_eq in E2 as [? ?].
    assert (g_mount_spec_equal A B = true) by by apply g_mount_spec_equal_eq.
    congruence.
Qed.

(** The hash is the exclusive-or of the hash of the prefix, when there is
    one, and of the hashes of the values: the keys are not looked at. *)
Lemma g_mount_spec_hash_values A B :
  value <$> items A = value <$> items B ->
  mount_prefix A = mount_prefix B ->
  g_mount_spec_hash A = g_mount_spec_hash B.
Proof.
  unfold g_mount_spec_hash. intros Hv ->.
  generalize (match mount_prefix B with
              | Some prefix => Z.lxor 0 (g_str_hash prefix)
              | None => 0
              end).
  revert Hv. generalize (items B). induction (items A) as [|a la IH];
    intros [|b lb] Hv h; simpl in *; try done.
  injection Hv as Hab Hl. rewrite Hab. by apply IH.
Qed.

(** C6. Two specs that [g_mount_spec_equal] finds equal have the same
    [g_mount_spec_hash]. *)
Theorem g_mount_spec_equal_hash (A B : GMountSpec) :
  g_mount_spec_equal A B = true ->
  g_mount_spec_hash A = g_mount_spec_hash B.
Proof.
  intros [Hi Hp]%g_mount_spec_equal_eq.
  apply g_mount_spec_hash_values; [by rewrite Hi | done].
Qed.

Lemma g_mount_spec_equal_hash_witness :
  g_mount_spec_equal ftp_spec ftp_spec_shared = true /\
  g_mount_spec_hash ftp_spec = g_mount_spec_hash ftp_spec_shared.
Proof.
  split; [reflexivity|].
  apply (g_mount_spec_equal_hash ftp_spec ftp_spec_shared). reflexivity.
Defined.

End EqualityAndHash.

Section StringOrder.

Lemma char_cmp_flip c d : c <> d -> char_cmp d c = - char_cmp c d.
Proof.
  intros Hne. unfold char_cmp.
  assert (uchar c <> uchar d) by (intros ?; by apply Hne, uchar_inj).
  destruct (uchar c <? uchar d) eqn:E1, (uchar d <? uchar c) eqn:E2; lia.
Qed.

Lemma ascii_eqb_sym c d : ascii_eqb c d = ascii_eqb d c.
Proof. unfold ascii_eqb. apply Ascii.eqb_sym. Qed.

Lemma strcmp_flip a b : strcmp b a = - strcmp a b.
Proof.
  revert b. induction a as [|c a IH]; intros [|d b]; simpl; try done.
  rewrite (ascii_eqb_sym d c). destruct (ascii_eqb c d) eqn:E; [done|].
  apply ascii_eqb_false in E. by apply char_cmp_flip.
Qed.

Lemma strcmp_le_trans a b c :
  strcmp a b <= 0 -> strcmp b c <= 0 -> strcmp a c <= 0.
Proof.
  revert b c. induction a as [|x a IH]; intros [|y b] [|z c]; simpl;
    try lia.
  destruct (ascii_eqb x y) eqn:Exy.
  - apply ascii_eqb_true in Exy. subst y.
    destruct (ascii_eqb x z) eqn:Exz; [apply IH | done].
  - apply ascii_eqb_false in Exy.
    destruct (ascii_eqb y z) eqn:Eyz.
    + apply ascii_eqb_true in Eyz. subst z.
      apply ascii_eqb_false in Exy. rewrite Exy. lia.
    + destruct (ascii_eqb x z) eqn:Exz.
      * apply ascii_eqb_true in Exz. subst z.
        rewrite (char_cmp_flip x y) by done. pose proof (char_cmp_nonzero x y). lia.
      * unfold char_cmp.
        destruct (uchar x <? uchar y) eqn:E1, (uchar y <? uchar z) eqn:E2,
          (uchar x <? uchar z) eqn:E3; lia.
Qed.

Global Instance key_le_trans : Transitive key_le.
Proof. intros a b c. unfold key_le, item_compare. apply strcmp_le_trans. Qed.

Global Instance key_le_total : Total key_le.
Proof.
  intros a b. unfold key_le, item_compare.
  rewrite (strcmp_flip (key a) (key b)). lia.
Qed.

Global Instance key_lt_trans : Transitive key_lt.
Proof.
  intros a b c. unfold key_lt, item_compare. intros Hab Hbc.
  assert (strcmp (key a) (key c) <= 0) as Hle
    by (apply (strcmp_le_trans _ (key b)); lia).
  destruct (decide (strcmp (key a) (key c) = 0)) as [E|]; [|lia].
  apply strcmp_zero in E. rewrite E in Hab.
  rewrite (strcmp_flip (key b) (key c)) in Hab. lia.
Qed.

Lemma key_lt_le a b : key_lt a b -> key_le a b.
Proof. unfold key_lt, key_le. lia. Qed.

Lemma key_lt_alt a b : key_lt a b <-> key_le a b /\ key a <> key b.
Proof.
  unfold key_lt, key_le, item_compare. rewrite <- strcmp_zero. lia.
Qed.

End StringOrder.

Section SortFacts.

Lemma sort_insert_perm (x : GMountSpecItem) l :
  sort_insert item_compare x l ≡ₚ x :: l.
Proof.
  induction l as [|y l IH]; simpl; [done|].
  destruct (item_compare x y <=? 0); [done|].
  rewrite IH. apply Permutation_swap.
Qed.

Lemma g_array_sort_perm (l : list GMountSpecItem) :
  g_array_sort item_compare l ≡ₚ l.
Proof.
  induction l as [|x l IH]; simpl; [done|].
  by rewrite sort_insert_perm, IH.
Qed.

Lemma sort_insert_HdRel a x l :
  key_le a x -> HdRel key_le a l ->
  HdRel key_le a (sort_insert item_compare x l).
Proof.
  intros Hax Hal. destruct l as [|y l]; simpl; [by constructor|].
  destruct (item_compare x y <=? 0); constructor; [done|].
  by inversion Hal.
Qed.

Lemma sort_insert_Sorted x l :
  Sorted key_le l -> Sorted key_le (sort_insert item_compare x l).
Proof.
  induction 1 as [|y l Hs IH Hhd]; simpl; [by repeat constructor|].
  destruct (item_compare x y <=? 0) eqn:E.
  - apply Z.leb_le in E. by repeat constructor.
  - apply Z.leb_gt in E. constructor; [done|].
    apply sort_insert_HdRel; [|done].
    destruct (total key_le y x) as [|Hxy]; [done|].
    unfold key_le in Hxy. lia.
Qed.

Lemma g_array_sort_Sorted l : Sorted key_le (g_array_sort item_compare l).
Proof.
  induction l as [|x l IH]; simpl; [constructor|].
  by apply sort_insert_Sorted.
Qed.

(** Sorting a sorted array leaves it as it is: the sort is stable. *)
Lemma g_array_sort_sorted l :
  Sorted key_le l -> g_array_sort item_compare l = l.
Proof.
  induction 1 as [|x l Hs IH Hhd]; simpl; [done|].
  rewrite IH. destruct Hhd as [|y l Hxy]; simpl; [done|].
  unfold key_le in Hxy. apply Z.leb_le in Hxy. by rewrite Hxy.
Qed.

Lemma increasing_sorted l : StronglySorted key_lt l -> Sorted key_le l.
Proof.
  intros H. apply StronglySorted_Sorted in H.
  induction H as [|x l Hs IH Hhd]; constructor; [done|].
  destruct Hhd; constructor. by apply key_lt_le.
Qed.

Lemma increasing_NoDup l : StronglySorted key_lt l -> NoDup (key <$> l).
Proof.
  induction 1 as [|x l Hs IH Hall]; simpl; constructor; [|done].
  rewrite list_elem_of_fmap. intros (y & Hk & Hy).
  rewrite Forall_forall in Hall.
  destruct (proj1 (key_lt_alt x y) (Hall y Hy)) as [_ Hne]. by apply Hne.
Qed.

(** Keys in order, each once, are keys in strictly increasing order. *)
Lemma sorted_NoDup_increasing l :
  Sorted key_le l -> NoDup (key <$> l) -> StronglySorted key_lt l.
Proof.
  intros Hs Hnd. apply Sorted_StronglySorted; [apply _|].
  induction Hs as [|x l Hs IH Hhd]; [constructor|].
  simpl in Hnd. apply NoDup_cons in Hnd as [Hx Hnd].
  constructor; [by apply IH|].
  destruct Hhd as [|y l Hxy]; constructor.
  apply key_lt_alt. split; [done|]. intros E. apply Hx. rewrite E.
  simpl. left.
Qed.

End SortFacts.

Section ItemStore.

Lemma Sorted_key_le_keys l1 l2 :
  key <$> l1 = key <$> l2 -> Sorted key_le l1 -> Sorted key_le l2.
Proof.
  intros Hk Hs. revert l2 Hk.
  induction Hs as [|x l Hs IH Hhd]; intros l2 Hk.
  - destruct l2; [constructor | done].
  - destruct l2 as [|y l2]; [done|]. simpl in Hk. injection Hk as Hxy Hk.
    constructor; [by apply IH|].
    destruct Hhd as [|z l Hxz].
    + destruct l2; [constructor | done].
    + destruct l2 as [|z2 l2]; [done|]. simpl in Hk.
      injection Hk as Hz _. constructor.
      unfold key_le, item_compare in *. congruence.
Qed.

Lemma replace_value_keys its k v its' :
  replace_value its k v = Some its' -> key <$> its' = key <$> its.
Proof.
  revert its'. induction its as [|item its IH]; intros its'; simpl; [done|].
  destruct (strcmp (key item) k =? 0).
  - by intros [= <-].
  - destruct (replace_value its k v) as [r|]; simpl; [|done].
    intros [= <-]. simpl. f_equal. by apply IH.
Qed.

Lemma replace_value_None its k v :
  replace_value its k v = None -> k ∉ key <$> its.
Proof.
  induction its as [|item its IH]; simpl; [intros _; apply not_elem_of_nil|].
  destruct (strcmp (key item) k =? 0) eqn:E; [done|].
  apply Z.eqb_neq in E. rewrite strcmp_zero in E.
  destruct (replace_value its k v); simpl; [done|]. intros _.
  rewrite not_elem_of_cons. split; [congruence | by apply IH].
Qed.

Lemma store_value_sorted spec k v :
  Sorted key_le (items spec) -> Sorted key_le (items (store_value spec k v)).
Proof.
  intros Hs. unfold store_value.
  destruct (replace_value (items spec) k v) as [its|] eqn:E; simpl.
  - apply replace_value_keys in E. by eapply Sorted_key_le_keys.
  - apply g_array_sort_Sorted.
Qed.

Lemma store_value_increasing spec k v :
  StronglySorted key_lt (items spec) ->
  StronglySorted key_lt (items (store_value spec k v)).
Proof.
  intros Hs. apply sorted_NoDup_increasing.
  { by apply store_value_sorted, increasing_sorted. }
  apply increasing_NoDup in Hs. unfold store_value.
  destruct (replace_value (items spec) k v) as [its|] eqn:E; simpl.
  - apply replace_value_keys in E. by rewrite E.
  - apply replace_value_None in E.
    rewrite g_array_sort_perm, fmap_app. simpl.
    apply NoDup_app. split; [done|]. split.
    + intros x Hx [->|[]%elem_of_nil]%elem_of_cons. done.
    + apply NoDup_singleton.
Qed.

Lemma from_dbus_sorted iter spec iter' :
  g_mount_spec_from_dbus iter = Some (spec, iter') ->
  Sorted key_le (items spec).
Proof.
  unfold g_mount_spec_from_dbus.
  destruct (negb _); [done|].
  destruct (get_args_cstring _) as [[prefix spec_iter]|]; [|done].
  destruct (_ || _); [done|].
  intros [= <- _]. simpl. apply g_array_sort_Sorted.
Qed.

Lemma decode_pairs_sorted str kv_pairs its prefix spec :
  decode_pairs str kv_pairs its prefix = Decoded spec ->
  Sorted key_le (items spec).
Proof.
  revert its prefix. induction kv_pairs as [|kv_pair kv_pairs IH];
    intros its prefix; simpl.
  - unfold decode_finish. destruct prefix as [prefix|]; [|done].
    destruct (checked_items its); [|done].
    intros [= <-]. simpl. apply g_array_sort_Sorted.
  - destruct (g_strsplit kv_pair "=") as [|token0 [|token1 [|? ?]]];
      try done.
    destruct (g_uri_unescape_string token0) as [item_key|]; [|done].
    destruct (strcmp item_key _ =? 0); apply IH.
Qed.

Lemma new_from_string_sorted str spec :
  g_mount_spec_new_from_string str = Decoded spec ->
  Sorted key_le (items spec).
Proof. apply decode_pairs_sorted. Qed.

(** The sort, for any order: it keeps the elements, and goes through a
    function that keeps the comparison. *)
Lemma sort_insert_perm_any {A} (compare_func : A -> A -> Z) x l :
  sort_insert compare_func x l ≡ₚ x :: l.
Proof.
  induction l as [|y l IH]; simpl; [done|].
  destruct (compare_func x y <=? 0); [done|].
  rewrite IH. apply Permutation_swap.
Qed.

Lemma g_array_sort_perm_any {A} (compare_func : A -> A -> Z) l :
  g_array_sort compare_func l ≡ₚ l.
Proof.
  induction l as [|x l IH]; simpl; [done|].
  by rewrite sort_insert_perm_any, IH.
Qed.

Lemma sort_insert_fmap {A B} (f : A -> B) (compare_a : A -> A -> Z)
    (compare_b : B -> B -> Z) x l :
  (forall x y, compare_b (f x) (f y) = compare_a x y) ->
  f <$> sort_insert compare_a x l = sort_insert compare_b (f x) (f <$> l).
Proof.
  intros Hf. induction l as [|y l IH]; [done|].
  cbn [sort_insert fmap list_fmap]. rewrite Hf.
  destruct (compare_a x y <=? 0); [done|].
  cbn [fmap list_fmap]. f_equal. exact IH.
Qed.

Lemma g_array_sort_fmap {A B} (f : A -> B) (compare_a : A -> A -> Z)
    (compare_b : B -> B -> Z) l :
  (forall x y, compare_b (f x) (f y) = compare_a x y) ->
  f <$> g_array_sort compare_a l = g_array_sort compare_b (f <$> l).
Proof.
  intros Hf. induction l as [|x l IH]; [done|].
  unfold g_array_sort in *. cbn [foldr fmap list_fmap].
  rewrite (sort_insert_fmap f compare_a compare_b) by done.
  f_equal. exact IH.
Qed.

Lemma raw_sort_Sorted its :
  Sorted key_le (raw_as_item <$> g_array_sort raw_compare its).
Proof.
  rewrite (g_array_sort_fmap raw_as_item raw_compare item_compare)
    by done.
  apply g_array_sort_Sorted.
Qed.

Lemma checked_items_Some rs l :
  checked_items rs = Some l -> raw <$> l = rs.
Proof.
  revert l. induction rs as [|[k [v|]] rs IH]; intros l; simpl;
    [by intros [= <-] | | done].
  destruct (checked_items rs) as [l'|]; [|done]. simpl.
  intros [= <-]. cbn [fmap list_fmap]. unfold raw at 1. simpl.
  f_equal. by apply IH.
Qed.

(** The loop of the decoder of the text form, on pairs that split and
    whose keys unescape: the pairs under the key of the prefix set the
    prefix, the last one last, and the other ones are the items. *)
Lemma decode_raw_pairs str kv_pairs its prefix :
  match raw_pairs kv_pairs with
  | Some raws =>
      decode_pairs str kv_pairs its prefix
      = decode_finish str (its ++ item_raws raws)
          match last (List.filter is_prefix_key raws) with
          | Some r => r.2
          | None => prefix
          end
  | None =>
      match decode_pairs str kv_pairs its prefix with
      | Decoded _ | NullValue _ _ => False
      | _ => True
      end
  end.
Proof.
  revert its prefix. induction kv_pairs as [|kv_pair kv_pairs IH];
    intros its prefix.
  { simpl. by rewrite app_nil_r. }
  cbn [raw_pairs decode_pairs]. unfold raw_pair.
  destruct (g_strsplit kv_pair "=") as [|token0 [|token1 [|? ?]]];
    try done.
  destruct (g_uri_unescape_string token0) as [k|]; [|done].
  destruct (strcmp k (lit "__mount_prefix") =? 0) eqn:E.
  - specialize (IH its (g_uri_unescape_string token1)).
    destruct (raw_pairs kv_pairs) as [raws|]; [|done].
    rewrite IH. unfold item_raws, is_prefix_key. cbn [List.filter fst].
    rewrite E. cbn [negb]. f_equal.
    destruct (List.filter _ raws) as [|r rs] eqn:Ef; [done|].
    rewrite (last_cons ((k, g_uri_unescape_string token1) : raw_item)).
    by destruct (last (r :: rs)).
  - specialize (IH (its ++ [(k, g_uri_unescape_string token1)]) prefix).
    destruct (raw_pairs kv_pairs) as [raws|]; [|done].
    rewrite IH. unfold item_raws, is_prefix_key. cbn [List.filter fst].
    rewrite E. cbn [negb]. by rewrite <- app_assoc.
Qed.

(** What the decoder of the text form returns, when it returns a spec:
    the items that it was given, sorted. *)
Lemma new_from_string_given str :
  match g_mount_spec_new_from_string str with
  | Decoded spec =>
      exists raws,
        raw_pairs (g_strsplit str ",") = Some raws /\
        raw <$> items spec ≡ₚ item_raws raws
  | NullValue its prefix =>
      Sorted key_le (raw_as_item <$> its) /\
      exists raws,
        raw_pairs (g_strsplit str ",") = Some raws /\
        its ≡ₚ item_raws raws /\
        exists k, (k, None) ∈ its
  | _ => True
  end.
Proof.
  unfold g_mount_spec_new_from_string.
  pose proof (decode_raw_pairs str (g_strsplit str ",") [] None) as H.
  destruct (raw_pairs (g_strsplit str ",")) as [raws|].
  - rewrite H. cbn [app]. unfold decode_finish.
    destruct (last _) as [[k [prefix|]]|]; try done; cbn [snd].
    destruct (checked_items (item_raws raws)) as [l|] eqn:El.
    + exists raws. split; [done|]. cbn [items g_mount_spec_new_from_data].
      rewrite (g_array_sort_perm l). by rewrite (checked_items_Some _ _ El).
    + split; [apply raw_sort_Sorted|]. exists raws. split; [done|].
      split; [apply g_array_sort_perm_any|].
      assert (exists k, (k, None) ∈ item_raws raws) as [k' Hk'].
      { revert El. generalize (item_raws raws). intros rs.
        induction rs as [|[k' [v|]] rs IH]; simpl; [done| |].
        - destruct (checked_items rs); [done|]. intros _.
          destruct IH as [k'' Hk'']; [done|]. exists k''. by right.
        - intros _. exists k'. by left. }
      exists k'. by rewrite (g_array_sort_perm_any raw_compare).
  - by destruct (decode_pairs _ _ _ _).
Qed.

(** The loop of the decoder of the wire form, on an array of structs: the
    elements that read as a key and a value are the items. *)
Lemma from_dbus_items_given elements spec :
  Forall (fun v => value_type v = DBUS_TYPE_STRUCT) elements ->
  items (from_dbus_items elements spec)
  = items spec ++ omap struct_item elements.
Proof.
  intros Hall. revert spec.
  induction Hall as [|v elements Hv Hall IH]; intros spec.
  { simpl. by rewrite app_nil_r. }
  destruct v as [| | |fields|]; try done.
  cbn [from_dbus_items omap list_omap struct_item]. rewrite IH.
  destruct fields as [|[k| | | |] [|[|v| | |] fields]]; simpl;
    try done.
  by rewrite <- app_assoc.
Qed.

Lemma from_dbus_given iter spec iter' prefix elements more :
  g_mount_spec_from_dbus iter = Some (spec, iter') ->
  head iter
  = Some (DStruct (DCString prefix :: DArray DBUS_TYPE_STRUCT elements
                     :: more)) ->
  Forall (fun v => value_type v = DBUS_TYPE_STRUCT) elements ->
  items spec ≡ₚ omap struct_item elements.
Proof.
  intros Hdec Hhead Hall. destruct iter as [|v iter]; [done|].
  injection Hhead as ->. unfold g_mount_spec_from_dbus in Hdec.
  simpl in Hdec. injection Hdec as <- _. cbn [items with_items].
  rewrite (g_array_sort_perm _). by rewrite from_dbus_items_given.
Qed.

(** C3, as stated, fails for the bulk constructor and for the decoders:
    they sort the items they are given and keep two items of one key. *)
Lemma new_from_data_duplicate_keys_counterexample :
  let its := [{| key := lit "host"; value := lit "a" |};
              {| key := lit "host"; value := lit "b" |}] in
  ~ StronglySorted key_lt (items (g_mount_spec_new_from_data its None)) /\
  (exists spec,
      g_mount_spec_new_from_string
        (lit "host=a,host=b,__mount_prefix=/") = Decoded spec /\
      ~ StronglySorted key_lt (items spec)).
Proof.
  assert (forall x y,
             key x = key y -> ~ StronglySorted key_lt [x; y]) as Hdup.
  { intros x y E H. apply increasing_NoDup in H. simpl in H.
    rewrite E in H. apply NoDup_cons in H as [H _]. apply H. left. }
  split.
  - by apply Hdup.
  - eexists. split; [reflexivity|]. by apply Hdup.
Qed.

(** C3, amended. After [g_mount_spec_set_with_len], after the bulk
    constructor and after both decoders the items are sorted by key, in
    non-decreasing byte-wise order; [g_mount_spec_set_with_len] moreover
    keeps the keys strictly increasing, no two items sharing a key, when
    they were so before the call, and a new spec has them so.  The bulk
    constructor and the decoders only sort the items they are given: the
    items of the spec are those of the array, of the structs of the
    message, of the pairs of the string that are not under the key of the
    prefix, each as often as it was given; so the keys are strictly
    increasing exactly when they were given once each.  This holds of
    the spec that the decoder of the text form returns with a null
    value, too. *)
Theorem item_store_sorted :
  (forall spec k v value_len spec',
      g_mount_spec_set_with_len spec k v value_len = Some spec' ->
      (Sorted key_le (items spec) -> Sorted key_le (items spec')) /\
      (StronglySorted key_lt (items spec) ->
       StronglySorted key_lt (items spec'))) /\
  (forall type, StronglySorted key_lt (items (g_mount_spec_new type))) /\
  (forall its prefix,
      items (g_mount_spec_new_from_data its prefix) ≡ₚ its /\
      Sorted key_le (items (g_mount_spec_new_from_data its prefix)) /\
      (NoDup (key <$> its) <->
       StronglySorted key_lt (items (g_mount_spec_new_from_data its prefix)))) /\
  (forall iter spec iter',
      g_mount_spec_from_dbus iter = Some (spec, iter') ->
      Sorted key_le (items spec) /\
      (NoDup (key <$> items spec) <-> StronglySorted key_lt (items spec)) /\
      (forall prefix elements more,
          head iter
          = Some (DStruct (DCString prefix
                             :: DArray DBUS_TYPE_STRUCT elements :: more)) ->
          Forall (fun v => value_type v = DBUS_TYPE_STRUCT) elements ->
          items spec ≡ₚ omap struct_item elements)) /\
  (forall str,
      match g_mount_spec_new_from_string str with
      | Decoded spec =>
          Sorted key_le (items spec) /\
          (NoDup (key <$> items spec) <->
           StronglySorted key_lt (items spec)) /\
          exists raws,
            raw_pairs (g_strsplit str ",") = Some raws /\
            raw <$> items spec ≡ₚ item_raws raws
      | NullValue its prefix =>
          Sorted key_le (raw_as_item <$> its) /\
          (NoDup (key <$> (raw_as_item <$> its)) <->
           StronglySorted key_lt (raw_as_item <$> its)) /\
          exists raws,
            raw_pairs (g_strsplit str ",") = Some raws /\
            its ≡ₚ item_raws raws
      | DecodeError _ | NullKey => True
      end).
Proof.
  assert (forall l, Sorted key_le l ->
            NoDup (key <$> l) <-> StronglySorted key_lt l) as Hstrict.
  { intros l Hl. split; [by apply sorted_NoDup_increasing|].
    apply increasing_NoDup. }
  split; [|split; [|split; [|split]]].
  - intros spec [k|] [v|] value_len spec'; simpl;
      try (intros [= <-]; done).
    destruct (value_copy v value_len) as [vc|]; simpl; [|done].
    intros [= <-]. split.
    + apply store_value_sorted.
    + apply store_value_increasing.
  - intros [type|]; simpl; repeat constructor.
  - intros its prefix. cbn [items g_mount_spec_new_from_data].
    split; [apply g_array_sort_perm|].
    split; [apply g_array_sort_Sorted|].
    rewrite <- Hstrict by apply g_array_sort_Sorted.
    by rewrite (g_array_sort_perm its).
  - intros iter spec iter' Hdec.
    pose proof (from_dbus_sorted _ _ _ Hdec) as Hs.
    split; [done|]. split; [by apply Hstrict|].
    intros prefix elements more. by apply (from_dbus_given iter spec iter').
  - intros str. pose proof (new_from_string_given str) as Hgiven.
    pose proof (new_from_string_sorted str) as Hsorted.
    destruct (g_mount_spec_new_from_string str) as [spec| | |its prefix];
      try done.
    + split; [by apply Hsorted|]. split; [|done].
      apply Hstrict. by apply Hsorted.
    + destruct Hgiven as (Hs & raws & Hraws & Hperm & _).
      split; [done|]. split; [by apply Hstrict|]. by exists raws.
Qed.

Lemma item_store_sorted_witness :
  (g_mount_spec_set_with_len (g_mount_spec_new (Some (lit "ftp")))
     (Some (lit "host")) (Some (lit "example.com/x")) 11
   = Some (g_mount_spec_set_mount_prefix ftp_spec (Some (lit "/"))) /\
   StronglySorted key_lt
     (items (g_mount_spec_set_mount_prefix ftp_spec (Some (lit "/"))))) /\
  StronglySorted key_lt
    (items (g_mount_spec_new_from_data
              [{| key := lit "type"; value := lit "ftp" |};
               {| key := lit "host"; value := lit "example.com" |}] None)) /\
  (exists spec,
     g_mount_spec_from_dbus
       [DStruct [DCString (lit "/pub");
                 DArray DBUS_TYPE_STRUCT
                   [DStruct [DString (lit "type"); DCString (lit "ftp")];
                    DStruct [DOther];
                    DStruct [DString (lit "host");
                             DCString (lit "example.com")]]]]
     = Some (spec, []) /\
     items spec ≡ₚ [{| key := lit "type"; value := lit "ftp" |};
                    {| key := lit "host"; value := lit "example.com" |}] /\
     StronglySorted key_lt (items spec)) /\
  (exists its,
     g_mount_spec_new_from_string (lit "b=%zz,a=1,__mount_prefix=/")
     = NullValue its (lit "/") /\
     its ≡ₚ [(lit "b", None); (lit "a", Some (lit "1"))] /\
     StronglySorted key_lt (raw_as_item <$> its)).
Proof.
  destruct item_store_sorted as (Hset & Hnew & Hdata & Hwire & Htext).
  split; [|split; [|split]].
  - split; [reflexivity|].
    apply (Hset (g_mount_spec_new (Some (lit "ftp")))
             (Some (lit "host")) (Some (lit "example.com/x")) 11).
    + reflexivity.
    + apply Hnew.
  - apply Hdata. cbn [fmap list_fmap key].
    apply NoDup_cons. split; [|apply NoDup_singleton].
    intros H%list_elem_of_singleton. by vm_compute in H.
  - destruct (g_mount_spec_from_dbus _) as [[spec iter']|] eqn:E;
      [|by vm_compute in E].
    assert (iter' = []) as -> by (vm_compute in E; congruence).
    exists spec. split; [done|].
    destruct (Hwire _ _ _ E) as (_ & Hstrict & Hgiven).
    specialize (Hgiven (lit "/pub") _ [] eq_refl).
    assert (items spec
            ≡ₚ [{| key := lit "type"; value := lit "ftp" |};
                {| key := lit "host"; value := lit "example.com" |}])
      as Hperm by (apply Hgiven; by repeat constructor).
    split; [done|]. apply Hstrict. rewrite Hperm.
    cbn [fmap list_fmap key].
    apply NoDup_cons. split; [|apply NoDup_singleton].
    intros H%list_elem_of_singleton. by vm_compute in H.
  - specialize (Htext (lit "b=%zz,a=1,__mount_prefix=/")).
    destruct (g_mount_spec_new_from_string
                (lit "b=%zz,a=1,__mount_prefix=/"))
      as [spec| | |its prefix] eqn:E; try (by vm_compute in E).
    vm_compute in E. injection E as <- <-.
    eexists. split; [reflexivity|].
    destruct Htext as (_ & Hstrict & raws & Hraws & Hperm).
    split.
    + vm_compute in Hraws. injection Hraws as <-. exact Hperm.
    + apply Hstrict. cbn [fmap list_fmap key raw_as_item fst].
      apply NoDup_cons. split; [|apply NoDup_singleton].
      intros H%list_elem_of_singleton. by vm_compute in H.
Defined.

End ItemStore.

Section WireCodec.

Lemma to_dbus_array (its : list GMountSpecItem) acc :
  fold_left
    (fun array_iter item =>
       array_iter ++ [DStruct [DString (key item); DCString (value item)]])
    its acc
  = acc ++ (item_struct <$> its).
Proof.
  revert acc. induction its as [|item its IH]; intros acc; simpl.
  - by rewrite app_nil_r.
  - rewrite IH. by rewrite <- app_assoc.
Qed.

Lemma to_dbus_with_path_eq iter spec path :
  g_mount_spec_to_dbus_with_path iter spec path
  = iter ++ [DStruct [DCString (default [] path);
                      DArray DBUS_TYPE_STRUCT (item_struct <$> items spec)]].
Proof.
  unfold g_mount_spec_to_dbus_with_path. rewrite to_dbus_array.
  by destruct path.
Qed.

Lemma from_dbus_items_structs its spec :
  from_dbus_items (item_struct <$> its) spec
  = with_items spec (items spec ++ its).
Proof.
  revert spec. induction its as [|[k v] its IH]; intros spec; simpl.
  - rewrite app_nil_r. by destruct spec.
  - rewrite IH. unfold add_item, with_items. simpl.
    by rewrite <- app_assoc.
Qed.

(** C8, as stated, fails for a spec with a null prefix: the encoder writes
    the empty string for it, and the decoded spec has the empty prefix,
    which [g_mount_spec_equal] tells from the null one. *)
Lemma wire_round_trip_null_prefix_counterexample :
  exists spec,
    g_mount_spec_from_dbus (g_mount_spec_to_dbus [] null_prefix_spec)
    = Some (spec, []) /\
    mount_prefix spec = Some (lit "") /\
    mount_prefix null_prefix_spec = None /\
    g_mount_spec_equal spec null_prefix_spec = false.
Proof. eexists. split; [reflexivity|]. by repeat split. Qed.

(** C8, amended. For every mount spec [S] with sorted items and a prefix
    that is not null, the encoder emits one struct of the prefix as a
    C-string and of the array of the (key, value) structs in the order of
    the items, and [g_mount_spec_from_dbus] applied to it returns a spec
    with the items and the prefix of [S], equal to [S], and moves the
    iterator past the struct. *)
Theorem wire_round_trip (S : GMountSpec) (prefix : cstr)
    (rest : list dbus_value) :
  Sorted key_le (items S) ->
  mount_prefix S = Some prefix ->
  g_mount_spec_to_dbus [] S
  = [DStruct [DCString prefix;
              DArray DBUS_TYPE_STRUCT (item_struct <$> items S)]] /\
  exists S',
    g_mount_spec_from_dbus (g_mount_spec_to_dbus [] S ++ rest)
    = Some (S', rest) /\
    items S' = items S /\
    mount_prefix S' = mount_prefix S /\
    g_mount_spec_equal S' S = true.
Proof.
  intros Hsorted Hprefix. unfold g_mount_spec_to_dbus.
  rewrite to_dbus_with_path_eq, Hprefix. simpl. split; [done|].
  unfold g_mount_spec_from_dbus. simpl.
  rewrite from_dbus_items_structs. simpl.
  rewrite (g_array_sort_sorted _ Hsorted).
  eexists. split; [reflexivity|]. simpl. repeat split.
  apply g_mount_spec_equal_eq. simpl. by rewrite Hprefix.
Qed.

Lemma wire_round_trip_witness :
  Sorted key_le (items ftp_spec) /\
  mount_prefix ftp_spec = Some (lit "/pub") /\
  exists S',
    g_mount_spec_from_dbus (g_mount_spec_to_dbus [] ftp_spec ++ [DOther])
    = Some (S', [DOther]) /\
    g_mount_spec_equal S' ftp_spec = true.
Proof.
  assert (Sorted key_le (items ftp_spec)) as Hs.
  { repeat constructor. by vm_compute. }
  split; [done|]. split; [done|].
  destruct (wire_round_trip ftp_spec (lit "/pub") [DOther] Hs eq_refl)
    as (_ & S' & Hdec & _ & _ & Heq).
  by exists S'.
Defined.

End WireCodec.

Section UriEscaping.

Ltac bool_hyps :=
  repeat match goal with
    | H : _ && _ = true |- _ => apply andb_true_iff in H as [? ?]
    | H : _ || _ = true |- _ => apply orb_true_iff in H as [?|?]
    | H : in_range _ _ _ = true |- _ =>
        unfold in_range in H; apply andb_true_iff in H as [?%Z.leb_le ?%Z.leb_le]
    | H : utf8_cont _ = true |- _ => unfold utf8_cont in H
    end.

Lemma utf8_multibyte_high c s :
  (0 < utf8_multibyte_len (c :: s))%nat ->
  Forall high (take (utf8_multibyte_len (c :: s) - 1) s).
Proof.
  unfold utf8_multibyte_len.
  destruct s as [|b1 s]; [simpl; lia|].
  destruct (in_range 194 223 c && utf8_cont b1) eqn:E2.
  { intros _. simpl. bool_hyps. repeat constructor. by unfold high. }
  destruct s as [|b2 s]; [simpl; lia|].
  match goal with |- context [if ?b then 3%nat else _] =>
    destruct b eqn:E3 end.
  { intros _. simpl. bool_hyps; repeat constructor; unfold high; lia. }
  destruct s as [|b3 s]; [simpl; lia|].
  match goal with |- context [if ?b then 4%nat else _] =>
    destruct b eqn:E4 end; [|simpl; lia].
  intros _. simpl. bool_hyps; repeat constructor; unfold high; lia.
Qed.

Lemma high_not_percent c : high c -> ascii_eqb c "%" = false.
Proof.
  intros H. apply ascii_eqb_false. intros ->. unfold high in H.
  vm_compute in H. by apply H.
Qed.

Lemma unreserved_not_percent c :
  is_unreserved c = true -> ascii_eqb c "%" = false.
Proof. intros H. apply ascii_eqb_false. intros ->. done. Qed.

(** The two digits written for a character read back as the character. *)
Lemma hex_digits_value c :
  g_ascii_xdigit_value (hex_digit (Z.shiftr (uchar c) 4))
  = Some (Z.shiftr (uchar c) 4) /\
  g_ascii_xdigit_value (hex_digit (Z.land (uchar c) 15))
  = Some (Z.land (uchar c) 15) /\
  ascii_of_N
    (Z.to_N (Z.lor (Z.shiftl (Z.shiftr (uchar c) 4) 4)
               (Z.land (uchar c) 15))) = c /\
  (Z.lor (Z.shiftl (Z.shiftr (uchar c) 4) 4) (Z.land (uchar c) 15) <=? 0)
  = ascii_eqb c zero.
Proof.
  destruct c as [[] [] [] [] [] [] [] []]; vm_compute; by repeat split.
Qed.

Lemma unescape_plain c rest :
  ascii_eqb c "%" = false ->
  g_uri_unescape_string (c :: rest)
  = cons c <$> g_uri_unescape_string rest.
Proof. intros H. simpl. by rewrite H. Qed.

Lemma unescape_escaped c rest :
  c <> zero ->
  g_uri_unescape_string
    ("%"%char :: hex_digit (Z.shiftr (uchar c) 4)
       :: hex_digit (Z.land (uchar c) 15) :: rest)
  = cons c <$> g_uri_unescape_string rest.
Proof.
  intros Hc. destruct (hex_digits_value c) as (H1 & H2 & H3 & H4).
  cbn [g_uri_unescape_string]. rewrite ascii_eqb_refl, H1, H2, H3, H4.
  apply ascii_eqb_false in Hc. by rewrite Hc.
Qed.

(** Unescaping undoes escaping, on a C string. *)
Lemma unescape_escape_from copy s :
  is_cstring s -> Forall high (take copy s) ->
  g_uri_unescape_string (uri_escape_from copy s) = Some s.
Proof.
  intros Hs. revert copy. induction Hs as [|c s Hc Hs IH]; intros copy Hh.
  { by destruct copy. }
  destruct copy as [|copy].
  - cbn [uri_escape_from].
    destruct ((128 <=? uchar c) && (0 <? utf8_multibyte_len (c :: s))%nat)
      eqn:E.
    + apply andb_true_iff in E as [Ehigh Elen].
      apply Z.leb_le in Ehigh. apply Nat.ltb_lt in Elen.
      rewrite unescape_plain by by apply high_not_percent.
      rewrite IH; [done|]. by apply utf8_multibyte_high.
    + destruct (is_unreserved c) eqn:Eu.
      * rewrite unescape_plain by by apply unreserved_not_percent.
        rewrite IH; [done|]. constructor.
      * rewrite unescape_escaped by done. rewrite IH; [done|]. constructor.
  - cbn [uri_escape_from]. simpl in Hh. apply Forall_cons in Hh as [Hch Hh].
    rewrite unescape_plain by by apply high_not_percent.
    by rewrite IH.
Qed.

Lemma unescape_escape s :
  is_cstring s -> g_uri_unescape_string (uri_escape_from 0 s) = Some s.
Proof. intros Hs. apply unescape_escape_from; [done | constructor]. Qed.

(** The characters that the escaping writes are not delimiters. *)
Lemma high_plain c : high c -> plain c.
Proof.
  intros H. split; intros ->; unfold high in H; vm_compute in H;
    by apply H.
Qed.

Lemma unreserved_plain c : is_unreserved c = true -> plain c.
Proof. intros H. split; intros ->; done. Qed.

Lemma hex_digits_plain c :
  plain (hex_digit (Z.shiftr (uchar c) 4)) /\
  plain (hex_digit (Z.land (uchar c) 15)).
Proof.
  destruct c as [[] [] [] [] [] [] [] []]; vm_compute;
    repeat split; discriminate.
Qed.

Lemma escape_from_plain copy s :
  Forall high (take copy s) -> Forall plain (uri_escape_from copy s).
Proof.
  revert copy. induction s as [|c s IH]; intros copy Hh; [constructor|].
  destruct copy as [|copy].
  - cbn [uri_escape_from].
    destruct ((128 <=? uchar c) && (0 <? utf8_multibyte_len (c :: s))%nat)
      eqn:E.
    + apply andb_true_iff in E as [Ehigh Elen].
      apply Z.leb_le in Ehigh. apply Nat.ltb_lt in Elen.
      constructor; [by apply high_plain|].
      apply IH. by apply utf8_multibyte_high.
    + destruct (is_unreserved c) eqn:Eu.
      * constructor; [by apply unreserved_plain|]. apply IH. constructor.
      * destruct (hex_digits_plain c) as [H1 H2].
        repeat (constructor; [done|]). apply IH. constructor.
  - cbn [uri_escape_from]. simpl in Hh. apply Forall_cons in Hh as [Hch Hh].
    constructor; [by apply high_plain | by apply IH].
Qed.

Lemma escape_plain s : Forall plain (uri_escape_from 0 s).
Proof. apply escape_from_plain. constructor. Qed.

End UriEscaping.

Section TextCodec.

Lemma split_on_plain delim (a : cstr) :
  Forall (fun c => c <> delim) a -> split_on delim a = [a].
Proof.
  induction 1 as [|c a Hc Ha IH]; simpl; [done|].
  apply ascii_eqb_false in Hc. by rewrite Hc, IH.
Qed.

Lemma split_on_app delim (a b : cstr) :
  Forall (fun c => c <> delim) a ->
  split_on delim (a ++ delim :: b) = a :: split_on delim b.
Proof.
  induction 1 as [|c a Hc Ha IH]; simpl.
  - by rewrite ascii_eqb_refl.
  - apply ascii_eqb_false in Hc. by rewrite Hc, IH.
Qed.

Lemma g_strsplit_app delim (a b : cstr) :
  g_strsplit (a ++ delim :: b) delim = split_on delim (a ++ delim :: b).
Proof. by destruct a. Qed.

Lemma plain_comma s : Forall plain s -> Forall (fun c => c <> ","%char) s.
Proof. intros H. eapply Forall_impl; [exact H|]. by intros c [? ?]. Qed.

Lemma plain_equals s : Forall plain s -> Forall (fun c => c <> "="%char) s.
Proof. intros H. eapply Forall_impl; [exact H|]. by intros c [? ?]. Qed.

Lemma item_pair_comma item : Forall (fun c => c <> ","%char) (item_pair item).
Proof.
  unfold item_pair. rewrite !Forall_app. split; [|split].
  - apply plain_comma, escape_plain.
  - by repeat constructor.
  - apply plain_comma, escape_plain.
Qed.

Lemma to_string_items (its : list GMountSpecItem) acc :
  fold_left
    (fun str item =>
       let k := g_uri_escape_string (Some (key item)) in
       let v := g_uri_escape_string (Some (value item)) in
       str ++ printf_s k ++ lit "=" ++ printf_s v ++ lit ",")
    its acc
  = acc ++ concat ((fun item => item_pair item ++ lit ",") <$> its).
Proof.
  revert acc. induction its as [|item its IH]; intros acc.
  - simpl. by rewrite app_nil_r.
  - cbn [fold_left]. rewrite IH. rewrite fmap_cons. cbn [concat].
    unfold item_pair. cbn. by rewrite <- !app_assoc.
Qed.

Lemma to_string_eq spec :
  g_mount_spec_to_string (Some spec)
  = concat ((fun item => item_pair item ++ lit ",") <$> items spec)
    ++ lit "__mount_prefix=" ++
    printf_s (g_uri_escape_string (mount_prefix spec)).
Proof.
  unfold g_mount_spec_to_string. rewrite to_string_items. done.
Qed.

Lemma split_pairs (its : list GMountSpecItem) (last_pair : cstr) :
  Forall (fun c => c <> ","%char) last_pair ->
  split_on ","
    (concat ((fun item => item_pair item ++ lit ",") <$> its) ++ last_pair)
  = (item_pair <$> its) ++ [last_pair].
Proof.
  intros Hl. induction its as [|item its IH].
  - by apply split_on_plain.
  - rewrite !fmap_cons. cbn [concat]. rewrite <- !app_assoc.
    change (lit "," ++ ?x) with (","%char :: x).
    rewrite split_on_app by apply item_pair_comma. by rewrite IH.
Qed.

Lemma split_item_pair k v :
  g_strsplit (uri_escape_from 0 k ++ lit "=" ++ uri_escape_from 0 v) "="
  = [uri_escape_from 0 k; uri_escape_from 0 v].
Proof.
  change (lit "=" ++ uri_escape_from 0 v)
    with ("="%char :: uri_escape_from 0 v).
  rewrite g_strsplit_app, split_on_app by apply plain_equals, escape_plain.
  by rewrite split_on_plain by apply plain_equals, escape_plain.
Qed.

Lemma checked_items_raw its : checked_items (raw <$> its) = Some its.
Proof.
  induction its as [|[k v] its IH]; [done|].
  rewrite fmap_cons. unfold raw at 1. cbn [checked_items key value].
  by rewrite IH.
Qed.

Lemma decode_item_pairs str its more acc prefix :
  Forall text_item its ->
  decode_pairs str ((item_pair <$> its) ++ more) acc prefix
  = decode_pairs str more (acc ++ (raw <$> its)) prefix.
Proof.
  intros Hits. revert acc.
  induction Hits as [|item its (Hk & Hv & Hne) Hits IH]; intros acc.
  { simpl. by rewrite app_nil_r. }
  cbn [fmap list_fmap app decode_pairs]. unfold item_pair at 1.
  rewrite split_item_pair, !unescape_escape by done.
  destruct (strcmp (key item) (lit "__mount_prefix") =? 0) eqn:E.
  { apply Z.eqb_eq, strcmp_zero in E. done. }
  rewrite IH. by rewrite <- app_assoc.
Qed.

Lemma decode_prefix_pair str acc old prefix :
  is_cstring prefix ->
  decode_pairs str [lit "__mount_prefix=" ++ uri_escape_from 0 prefix]
    acc old
  = decode_finish str acc (Some prefix).
Proof.
  intros Hp. cbn [decode_pairs].
  change (lit "__mount_prefix=" ++ uri_escape_from 0 prefix)
    with (uri_escape_from 0 (lit "__mount_prefix") ++ lit "="
            ++ uri_escape_from 0 prefix).
  rewrite split_item_pair, !unescape_escape; [done | done |].
  by repeat constructor.
Qed.

(** C2, as stated, fails for a spec with an item under the key
    "__mount_prefix", which holds no '=' and no ',': the decoder takes the
    pair of the item for a prefix and stores no item. *)
Lemma text_round_trip_reserved_key_counterexample :
  exists spec,
    g_mount_spec_new_from_string
      (g_mount_spec_to_string (Some reserved_key_spec)) = Decoded spec /\
    items reserved_key_spec
    = [{| key := lit "__mount_prefix"; value := lit "x" |}] /\
    items spec = [] /\
    g_mount_spec_equal spec reserved_key_spec = false.
Proof. eexists. split; [reflexivity|]. by repeat split. Qed.

(** C2, amended. For every mount spec [S] with sorted items, none of them
    under the key "__mount_prefix", and with a prefix that is not null,
    decoding the text encoding of [S] succeeds and yields a spec with the
    items and the prefix of [S], equal to [S]; keys and values with '='
    and ',' included.  (The strings of a spec are C strings.) *)
Theorem text_round_trip (S : GMountSpec) (prefix : cstr) :
  Sorted key_le (items S) ->
  Forall text_item (items S) ->
  mount_prefix S = Some prefix ->
  is_cstring prefix ->
  exists S',
    g_mount_spec_new_from_string (g_mount_spec_to_string (Some S))
    = Decoded S' /\
    items S' = items S /\
    mount_prefix S' = mount_prefix S /\
    g_mount_spec_equal S' S = true.
Proof.
  intros Hsorted Hitems Hprefix Hcstr.
  rewrite to_string_eq, Hprefix. cbn [g_uri_escape_string fmap option_fmap
    option_map printf_s].
  unfold g_mount_spec_new_from_string.
  set (last_pair := lit "__mount_prefix=" ++ uri_escape_from 0 prefix).
  set (body := concat _).
  assert (g_strsplit (body ++ last_pair) ","
          = split_on "," (body ++ last_pair)) as ->.
  { by destruct body. }
  subst body. rewrite split_pairs.
  2:{ subst last_pair. apply Forall_app. split; [by repeat constructor|].
      apply plain_comma, escape_plain. }
  rewrite decode_item_pairs by done. subst last_pair.
  rewrite decode_prefix_pair by done.
  unfold decode_finish. cbn [app]. rewrite checked_items_raw.
  eexists. split; [reflexivity|]. cbn [items mount_prefix
    g_mount_spec_new_from_data].
  rewrite (g_array_sort_sorted _ Hsorted). repeat split.
  apply g_mount_spec_equal_eq.
  cbn [items mount_prefix g_mount_spec_new_from_data].
  by rewrite (g_array_sort_sorted _ Hsorted), Hprefix.
Qed.

Lemma text_round_trip_witness :
  Sorted key_le (items ftp_spec) /\
  Forall text_item (items ftp_spec) /\
  mount_prefix ftp_spec = Some (lit "/pub") /\
  is_cstring (lit "/pub") /\
  exists S',
    g_mount_spec_new_from_string (g_mount_spec_to_string (Some ftp_spec))
    = Decoded S' /\
    g_mount_spec_equal S' ftp_spec = true.
Proof.
  assert (Sorted key_le (items ftp_spec)) as Hs.
  { repeat constructor. by vm_compute. }
  assert (Forall text_item (items ftp_spec)) as Hi.
  { repeat constructor; discriminate. }
  assert (is_cstring (lit "/pub")) as Hp.
  { repeat constructor; discriminate. }
  split; [done|]. split; [done|]. split; [done|]. split; [done|].
  destruct (text_round_trip ftp_spec (lit "/pub") Hs Hi eq_refl Hp)
    as (S' & Hdec & _ & _ & Heq).
  by exists S'.
Defined.

Lemma prefix_values_cons k v kvs :
  prefix_values ((k, v) :: kvs)
  = if strcmp k (lit "__mount_prefix") =? 0 then v :: prefix_values kvs
    else prefix_values kvs.
Proof.
  unfold prefix_values. cbn [List.filter]. unfold is_prefix_pair at 1.
  cbn [fst]. by destruct (strcmp k _ =? 0).
Qed.

Lemma item_pairs_cons k v kvs :
  item_pairs ((k, v) :: kvs)
  = if strcmp k (lit "__mount_prefix") =? 0 then item_pairs kvs
    else {| key := k; value := v |} :: item_pairs kvs.
Proof.
  unfold item_pairs. cbn [List.filter]. unfold is_prefix_pair at 1.
  cbn [fst]. by destruct (strcmp k _ =? 0).
Qed.

Lemma decode_well_formed_pairs str kv_pairs kvs its prefix :
  well_formed_pairs kv_pairs = Some kvs ->
  decode_pairs str kv_pairs its prefix
  = decode_finish str (its ++ (raw <$> item_pairs kvs))
      (match last (prefix_values kvs) with
       | Some v => Some v
       | None => prefix
       end).
Proof.
  revert kvs its prefix.
  induction kv_pairs as [|kv_pair kv_pairs IH]; intros kvs its prefix.
  { intros [= <-]. simpl. by rewrite app_nil_r. }
  cbn [well_formed_pairs decode_pairs]. unfold well_formed_pair.
  destruct (g_strsplit kv_pair "=") as [|token0 [|token1 [|? ?]]];
    try done.
  destruct (g_uri_unescape_string token0) as [k|]; [|done].
  destruct (g_uri_unescape_string token1) as [v|]; [|done].
  destruct (well_formed_pairs kv_pairs) as [kvs'|]; [|done].
  intros [= <-]. rewrite prefix_values_cons, item_pairs_cons.
  destruct (strcmp k (lit "__mount_prefix") =? 0) eqn:E.
  - rewrite (IH kvs') by done.
    destruct (prefix_values kvs') as [|v' vs] eqn:Ev; [done|].
    rewrite (last_cons v). by destruct (last (v' :: vs)).
  - rewrite (IH kvs') by done. by rewrite !fmap_cons, <- app_assoc.
Qed.

Lemma item_pairs_not_prefix kvs :
  Forall (fun item => key item <> lit "__mount_prefix") (item_pairs kvs).
Proof.
  induction kvs as [|[k v] kvs IH]; [constructor|].
  rewrite item_pairs_cons.
  destruct (strcmp k (lit "__mount_prefix") =? 0) eqn:E; [done|].
  constructor; [|done]. simpl. intros ->. by rewrite strcmp_refl in E.
Qed.

(** C10. When the input is made of well-formed pairs and some of them,
    one or several, are under the key "__mount_prefix", decoding succeeds;
    the items of the spec are the other pairs, sorted, none of them under
    the key "__mount_prefix"; and the prefix of the spec is the unescaped
    value of the last pair under that key. *)
Theorem last_prefix_wins (str : cstr) (kvs : list (cstr * cstr))
    (v : cstr) :
  well_formed_pairs (g_strsplit str ",") = Some kvs ->
  last (prefix_values kvs) = Some v ->
  exists spec,
    g_mount_spec_new_from_string str = Decoded spec /\
    mount_prefix spec = Some v /\
    items spec = g_array_sort item_compare (item_pairs kvs) /\
    Forall (fun item => key item <> lit "__mount_prefix") (items spec).
Proof.
  intros Hwf Hlast. unfold g_mount_spec_new_from_string.
  rewrite (decode_well_formed_pairs _ _ kvs) by done.
  rewrite Hlast. unfold decode_finish. cbn [app].
  rewrite checked_items_raw. eexists. split; [reflexivity|].
  cbn [items mount_prefix g_mount_spec_new_from_data].
  repeat split. rewrite g_array_sort_perm. apply item_pairs_not_prefix.
Qed.

Lemma last_prefix_wins_witness :
  exists spec,
    g_mount_spec_new_from_string
      (lit "__mount_prefix=/a,type=ftp,__mount_prefix=%2Fb")
    = Decoded spec /\
    mount_prefix spec = Some (lit "/b") /\
    items spec = [{| key := lit "type"; value := lit "ftp" |}].
Proof.
  destruct (last_prefix_wins
              (lit "__mount_prefix=/a,type=ftp,__mount_prefix=%2Fb")
              [(lit "__mount_prefix", lit "/a"); (lit "type", lit "ftp");
               (lit "__mount_prefix", lit "/b")]
              (lit "/b") eq_refl eq_refl)
    as (spec & Hdec & Hprefix & Hitems & _).
  exists spec. by repeat split.
Defined.

(** The examples of the specification for the strict decoder. *)
Lemma new_from_string_examples :
  g_mount_spec_new_from_string (lit "type=ftp")
  = DecodeError
      {| code := G_IO_ERROR_INVALID_ARGUMENT;
         message :=
           lit "Didn't find __mount_prefix while decoding 'type=ftp' GMountSpec" |}
  /\
  g_mount_spec_new_from_string (lit "badtoken,type=ftp,__mount_prefix=/")
  = DecodeError
      {| code := G_IO_ERROR_INVALID_ARGUMENT;
         message :=
           lit "Encountered invalid key/value pair 'badtoken' while decoding GMountSpec" |}.
Proof. by split. Qed.

(** What holds of the strict decoder: as long as the keys of the pairs
    unescape, the first pair that does not split on '=' into exactly two
    tokens ends the decoding with the error that names it. *)
Lemma decode_invalid_pair str good bad more its prefix :
  Forall
    (fun kv_pair =>
       exists token0 token1,
         g_strsplit kv_pair "=" = [token0; token1] /\
         is_Some (g_uri_unescape_string token0)) good ->
  g_strv_length (g_strsplit bad "=") <> 2%nat ->
  decode_pairs str (good ++ bad :: more) its prefix
  = DecodeError
      {| code := G_IO_ERROR_INVALID_ARGUMENT;
         message :=
           lit "Encountered invalid key/value pair '" ++ bad
           ++ lit "' while decoding GMountSpec" |}.
Proof.
  intros Hgood Hbad. revert its prefix.
  induction Hgood as [|kv_pair good (t0 & t1 & Hsplit & [k Hk]) _ IH];
    intros its prefix.
  - cbn [app decode_pairs]. unfold g_strv_length in Hbad.
    by destruct (g_strsplit bad "=") as [|? [|? [|? ?]]].
  - cbn [app decode_pairs]. rewrite Hsplit, Hk.
    destruct (strcmp k _ =? 0); apply IH.
Qed.

(** And when every pair is well formed and none is under the key
    "__mount_prefix", the decoding ends with the error that names the
    input. *)
Lemma decode_missing_prefix str kvs :
  well_formed_pairs (g_strsplit str ",") = Some kvs ->
  prefix_values kvs = [] ->
  g_mount_spec_new_from_string str
  = DecodeError
      {| code := G_IO_ERROR_INVALID_ARGUMENT;
         message :=
           lit "Didn't find __mount_prefix while decoding '" ++ str
           ++ lit "' GMountSpec" |}.
Proof.
  intros Hwf Hnone. unfold g_mount_spec_new_from_string.
  rewrite (decode_well_formed_pairs _ _ kvs) by done. by rewrite Hnone.
Qed.

(** C4 fails on a pair whose key does not unescape: the pair "%zz=a"
    splits on '=' into exactly two tokens, [g_uri_unescape_string] returns
    null for "%zz", and the null key goes to [strcmp]; no error is
    returned, neither for the missing prefix nor for the invalid pair that
    follows. *)
Theorem new_from_string_null_key :
  g_strsplit (lit "%zz=a") "=" = [lit "%zz"; lit "a"] /\
  g_uri_unescape_string (lit "%zz") = None /\
  g_mount_spec_new_from_string (lit "%zz=a") = NullKey /\
  g_mount_spec_new_from_string (lit "%zz=a,badtoken") = NullKey.
Proof. by repeat split. Qed.

End TextCodec.

Section UniqueTable.

Implicit Types (st : state) (p q r : ptr) (A B : GMountSpec).

Lemma g_mount_spec_equal_content A A' B B' :
  items A' = items A -> mount_prefix A' = mount_prefix A ->
  items B' = items B -> mount_prefix B' = mount_prefix B ->
  g_mount_spec_equal A' B' = g_mount_spec_equal A B.
Proof. unfold g_mount_spec_equal. by intros -> -> -> ->. Qed.

Lemma same_spec_refl A : same_spec A A.
Proof. by repeat split. Qed.

Lemma same_spec_trans A B C : same_spec A B -> same_spec B C -> same_spec A C.
Proof.
  intros (Hi & Hp & Hu) (Hi' & Hp' & Hu'). repeat split; try congruence.
  auto.
Qed.

Lemma same_heap_refl st : same_heap st st.
Proof. intros p. destruct (heap st !! p); [apply same_spec_refl | done]. Qed.

Lemma same_heap_trans st1 st2 st3 :
  same_heap st1 st2 -> same_heap st2 st3 -> same_heap st1 st3.
Proof.
  intros H12 H23 p. specialize (H12 p). specialize (H23 p).
  destruct (heap st1 !! p), (heap st2 !! p), (heap st3 !! p); try done.
  by eapply same_spec_trans.
Qed.

(** What a lookup that finds nothing, and one that finds a spec, say of
    the table. *)
Lemma lookup_miss (h : gmap ptr GMountSpec) table obj k v A :
  g_hash_table_lookup h table obj = None ->
  (k, v) ∈ table -> h !! k = Some A -> g_mount_spec_equal A obj = false.
Proof.
  unfold g_hash_table_lookup. intros Hfind Hin HA.
  destruct (find _ table) as [e|] eqn:E; [done|].
  apply list_elem_of_In in Hin.
  pose proof (find_none _ _ E _ Hin) as Hm.
  unfold key_matches in Hm. simpl in Hm. rewrite HA in Hm.
  destruct (g_mount_spec_equal A obj) eqn:Eq; [|done].
  destruct (proj1 (g_mount_spec_equal_eq A obj) Eq) as [Hi Hp].
  rewrite (g_mount_spec_hash_values A obj), Z.eqb_refl in Hm
    by (done || by rewrite Hi).
  done.
Qed.

Lemma lookup_hit (h : gmap ptr GMountSpec) table obj q :
  g_hash_table_lookup h table obj = Some q ->
  exists k A, (k, q) ∈ table /\ h !! k = Some A /\
              g_mount_spec_equal A obj = true.
Proof.
  unfold g_hash_table_lookup.
  destruct (find _ table) as [[k v]|] eqn:E; [|done]. intros [= <-].
  apply find_some in E as [Hin Hm]. apply list_elem_of_In in Hin.
  unfold key_matches in Hm. simpl in Hm.
  destruct (h !! k) as [A|] eqn:HA; [|done].
  apply andb_true_iff in Hm as [_ Heq]. by exists k, A.
Qed.

Lemma insert_miss (h : gmap ptr GMountSpec) table obj k v :
  (forall e, e ∈ table -> key_matches h obj e = false) ->
  g_hash_table_insert h table obj k v = table ++ [(k, v)].
Proof.
  induction table as [|e table IH]; intros Hm; simpl; [done|].
  rewrite Hm by left. rewrite IH; [done|].
  intros e' He'. apply Hm. by right.
Qed.

(** Counting a reference changes neither the content of a spec nor its
    mark. *)
Lemma ref_lookup st p q :
  heap (g_mount_spec_ref st p) !! q
  = (fun A => if decide (p = q)
              then set_ref_count A (g_atomic_int_inc (ref_count A))
              else A) <$> heap st !! q.
Proof.
  unfold g_mount_spec_ref. simpl. rewrite lookup_alter.
  destruct (decide (p = q)) as [->|]; [done|].
  by destruct (heap st !! q).
Qed.

Lemma ref_same_heap st p : same_heap st (g_mount_spec_ref st p).
Proof.
  intros q. rewrite ref_lookup. destruct (heap st !! q) as [A|]; simpl;
    [|done].
  destruct (decide (p = q)); by repeat split.
Qed.

Lemma ref_registry_ok st p : registry_ok st -> registry_ok (g_mount_spec_ref st p).
Proof.
  intros (H1 & H2 & H3).
  assert (forall q B, heap (g_mount_spec_ref st p) !! q = Some B ->
            exists A, heap st !! q = Some A /\ items B = items A /\
                      mount_prefix B = mount_prefix A /\
                      is_unique B = is_unique A) as Hback.
  { intros q B. rewrite ref_lookup.
    destruct (heap st !! q) as [A|]; simpl; [|done].
    intros [= <-]. exists A. by destruct (decide (p = q)). }
  split; [|split].
  - intros k v Hin. destruct (H1 k v Hin) as (-> & obj & Hobj & Hu).
    split; [done|]. rewrite ref_lookup, Hobj. simpl.
    eexists. split; [done|]. by destruct (decide (p = v)).
  - intros q B HB Hu. destruct (Hback q B HB) as (A & HA & _ & _ & Hu').
    apply (H2 q A HA). congruence.
  - intros q1 q2 B1 B2 HB1 HB2 Hu1 Hu2 Heq.
    destruct (Hback q1 B1 HB1) as (A1 & HA1 & Hi1 & Hp1 & Hu1').
    destruct (Hback q2 B2 HB2) as (A2 & HA2 & Hi2 & Hp2 & Hu2').
    apply (H3 q1 q2 A1 A2 HA1 HA2); [congruence | congruence |].
    by rewrite <- (g_mount_spec_equal_content A1 B1 A2 B2).
Qed.

Lemma returned_later st st' st'' p r :
  returned st st' p r -> same_heap st' st'' -> returned st st'' p r.
Proof.
  intros (obj & R & Hobj & HR & Hu & Hi & Hp) Hsame.
  specialize (Hsame r). rewrite HR in Hsame.
  destruct (heap st'' !! r) as [R'|] eqn:HR'; [|done].
  destruct Hsame as (Hi' & Hp' & Hu').
  exists obj, R'. split; [done|]. split; [done|].
  split; [by apply Hu'|]. split; congruence.
Qed.

Lemma returned_earlier st0 st st' p r :
  same_heap st0 st -> returned st st' p r -> returned st0 st' p r.
Proof.
  intros Hsame (obj & R & Hobj & HR & Hu & Hi & Hp).
  specialize (Hsame p). rewrite Hobj in Hsame.
  destruct (heap st0 !! p) as [obj0|] eqn:Hobj0; [|done].
  destruct Hsame as (Hi' & Hp' & Hu').
  exists obj0, R. split; [done|]. split; [done|].
  split; [done|]. split; congruence.
Qed.

(** A miss: the argument is marked and enters the table. *)
Lemma miss_registry_ok st p obj :
  registry_ok st ->
  heap st !! p = Some obj -> is_unique obj = false ->
  g_hash_table_lookup (heap st) (table_of st) obj = None ->
  let h := <[p := set_is_unique obj true]> (heap st) in
  let st' := {| heap := h;
                unique_hash :=
                  Some (g_hash_table_insert h (table_of st) obj p p) |} in
  table_of st' = table_of st ++ [(p, p)] /\
  registry_ok st' /\ same_heap st st'.
Proof.
  intros (H1 & H2 & H3) Hobj Hnu Hmiss h st'.
  assert (forall k v, (k, v) ∈ table_of st -> k <> p) as Hnp.
  { intros k v Hin ->. destruct (H1 p v Hin) as (_ & o & Ho & Hu).
    congruence. }
  assert (table_of st' = table_of st ++ [(p, p)]) as Htable.
  { unfold st', table_of at 1. simpl. apply insert_miss.
    intros [k v] Hin. unfold key_matches. simpl.
    unfold h. rewrite lookup_insert_ne by (intros <-; by eapply Hnp).
    destruct (heap st !! k) as [A|] eqn:HA; [|done].
    by rewrite (lookup_miss _ _ _ _ _ _ Hmiss Hin HA), andb_false_r. }
  split; [done|]. split; [split; [|split]|].
  - intros k v. rewrite Htable, elem_of_app, list_elem_of_singleton.
    intros [Hin|[= -> ->]].
    + destruct (H1 k v Hin) as (-> & o & Ho & Hu). split; [done|].
      exists o. split; [|done]. simpl. unfold h.
      rewrite lookup_insert_ne; [done|]. intros <-. by eapply Hnp.
    + split; [done|]. eexists. split; [apply lookup_insert_eq | done].
  - intros q B. simpl. unfold h. rewrite Htable, elem_of_app.
    destruct (decide (p = q)) as [<-|Hne].
    + intros _ _. right. by apply list_elem_of_singleton.
    + rewrite lookup_insert_ne by done. intros HB Hu. left. by eapply H2.
  - intros q1 q2 B1 B2. simpl. unfold h.
    destruct (decide (p = q1)) as [<-|Hne1];
      destruct (decide (p = q2)) as [<-|Hne2]; try done.
    + rewrite lookup_insert_eq, lookup_insert_ne by done.
      intros [= <-] HB2 _ Hu2 Heq. exfalso.
      rewrite g_mount_spec_equal_sym in Heq.
      rewrite (g_mount_spec_equal_content B2 B2 obj (set_is_unique obj true))
        in Heq by done.
      pose proof (H2 q2 B2 HB2 Hu2) as Hin.
      by rewrite (lookup_miss _ _ _ _ _ _ Hmiss Hin HB2) in Heq.
    + rewrite lookup_insert_eq, lookup_insert_ne by done.
      intros HB1 [= <-] Hu1 _ Heq. exfalso.
      rewrite (g_mount_spec_equal_content B1 B1 obj (set_is_unique obj true))
        in Heq by done.
      pose proof (H2 q1 B1 HB1 Hu1) as Hin.
      by rewrite (lookup_miss _ _ _ _ _ _ Hmiss Hin HB1) in Heq.
    + rewrite !lookup_insert_ne by done. apply H3.
  - intros q. simpl. unfold h. destruct (decide (p = q)) as [<-|Hne].
    + rewrite lookup_insert_eq, Hobj. by repeat split.
    + rewrite lookup_insert_ne by done.
      destruct (heap st !! q); [apply same_spec_refl | done].
Qed.

(** A call keeps the table in order, leaves the content of every spec
    alone, and returns a unique spec with the content of its argument. *)
Lemma get_unique_for_ok st p r st' :
  registry_ok st ->
  g_mount_spec_get_unique_for st p = Some (r, st') ->
  registry_ok st' /\ same_heap st st' /\ returned st st' p r.
Proof.
  intros Hok. unfold g_mount_spec_get_unique_for.
  destruct (heap st !! p) as [obj|] eqn:Hobj; [|done].
  destruct (is_unique obj) eqn:Hu.
  { intros [= <- <-]. split; [by apply ref_registry_ok|].
    split; [apply ref_same_heap|].
    apply (returned_later st st); [|apply ref_same_heap].
    by exists obj, obj. }
  destruct (g_hash_table_lookup _ _ obj) as [q|] eqn:Hlookup.
  - intros [= <- <-].
    set (st1 := {| heap := heap st; unique_hash := Some (table_of st) |}).
    assert (registry_ok st1) as Hok1.
    { destruct Hok as (H1 & H2 & H3). by split; [|split]. }
    split; [by apply ref_registry_ok|].
    split; [apply (ref_same_heap st1)|].
    apply (returned_later st st1); [|apply ref_same_heap].
    destruct (lookup_hit _ _ _ _ Hlookup) as (k & A & Hin & HA & Heq).
    destruct Hok as (H1 & _ & _).
    destruct (H1 k q Hin) as (-> & obj' & Hobj' & Hu').
    assert (obj' = A) as -> by congruence.
    apply g_mount_spec_equal_eq in Heq as [Hi Hp].
    by exists obj, A.
  - intros [= <- <-].
    destruct (miss_registry_ok st p obj Hok Hobj Hu Hlookup)
      as (_ & Hok1 & Hsame1).
    split; [by apply ref_registry_ok|].
    split; [eapply same_heap_trans; [exact Hsame1 | apply ref_same_heap]|].
    eapply returned_later; [|apply ref_same_heap].
    exists obj, (set_is_unique obj true). simpl.
    by rewrite lookup_insert_eq.
Qed.

Lemma get_unique_for_all_ok st calls results st' :
  registry_ok st ->
  get_unique_for_all st calls = Some (results, st') ->
  registry_ok st' /\ same_heap st st' /\
  Forall2 (returned st st') calls results.
Proof.
  revert st results. induction calls as [|p calls IH]; intros st results Hok.
  { intros [= <- <-]. split; [done|]. split; [apply same_heap_refl|].
    constructor. }
  cbn [get_unique_for_all].
  destruct (g_mount_spec_get_unique_for st p) as [[r st1]|] eqn:Hcall;
    [|done].
  destruct (get_unique_for_all st1 calls) as [[results' st2]|] eqn:Hrest;
    [|done].
  intros [= <- <-].
  destruct (get_unique_for_ok _ _ _ _ Hok Hcall) as (Hok1 & Hsame1 & Hret).
  destruct (IH _ _ Hok1 Hrest) as (Hok2 & Hsame2 & Hrets).
  split; [done|]. split; [by eapply same_heap_trans|].
  constructor; [by eapply returned_later|].
  eapply Forall2_impl; [exact Hrets|].
  intros p' r'. by apply returned_earlier.
Qed.

Lemma fresh_registry_ok st : fresh st -> registry_ok st.
Proof.
  intros [Htable Hnone]. unfold registry_ok, table_of. rewrite Htable.
  pose proof (proj1 (map_Forall_lookup _ _) Hnone) as Hnone'.
  clear Hnone. rename Hnone' into Hnone. simpl in Hnone.
  split; [|split].
  - intros k v []%elem_of_nil.
  - intros p obj Hobj Hu. rewrite (Hnone p obj Hobj) in Hu. done.
  - intros p q A B HA _ Hu. rewrite (Hnone p A HA) in Hu. done.
Qed.

(** The calls return whenever they are given specs that exist. *)
Lemma get_unique_for_defined st p :
  is_Some (heap st !! p) ->
  is_Some (g_mount_spec_get_unique_for st p).
Proof.
  intros [obj Hobj]. unfold g_mount_spec_get_unique_for. rewrite Hobj.
  destruct (is_unique obj); [done|].
  by destruct (g_hash_table_lookup _ _ obj).
Qed.

(** C7. From the state of a process that made no such call yet, after
    any sequence of calls of [g_mount_spec_get_unique_for]: no two specs
    marked unique are equal, and two calls on specs of equal content
    returned the same pointer.  One more call, on a spec marked unique,
    returns that spec with one more reference; on a spec that the lookup
    misses, it marks the spec, adds it to the table under itself and
    returns it; on a spec for which the lookup finds an entry, it returns
    the spec of the entry, another one, unique and equal to the argument,
    with one more reference, and leaves the argument and the table as
    they are.  The reference is counted by [g_atomic_int_inc] in an int of
    32 bits: the count is one more than before, but for the largest
    count, which is followed by the smallest. *)
Theorem get_unique_for_contract (st0 : state) (calls results : list ptr)
    (st : state) :
  fresh st0 ->
  get_unique_for_all st0 calls = Some (results, st) ->
  one_unique_per_class st /\
  (forall i j a b A B,
      calls !! i = Some a -> calls !! j = Some b ->
      heap st0 !! a = Some A -> heap st0 !! b = Some B ->
      g_mount_spec_equal A B = true ->
      results !! i = results !! j) /\
  (forall p obj,
      heap st !! p = Some obj ->
      match is_unique obj,
            g_hash_table_lookup (heap st) (table_of st) obj with
      | true, _ =>
          g_mount_spec_get_unique_for st p
          = Some (p, g_mount_spec_ref st p)
      | false, None =>
          exists st',
            g_mount_spec_get_unique_for st p = Some (p, st') /\
            heap st' !! p
            = Some (set_ref_count (set_is_unique obj true)
                      (g_atomic_int_inc (ref_count obj))) /\
            table_of st' = table_of st ++ [(p, p)]
      | false, Some q =>
          exists st' R,
            g_mount_spec_get_unique_for st p = Some (q, st') /\
            q <> p /\
            heap st !! q = Some R /\
            is_unique R = true /\
            g_mount_spec_equal R obj = true /\
            heap st' !! q
            = Some (set_ref_count R (g_atomic_int_inc (ref_count R))) /\
            heap st' !! p = Some obj /\
            table_of st' = table_of st
      end) /\
  (forall n, - 2 ^ 31 <= n < 2 ^ 31 - 1 -> g_atomic_int_inc n = n + 1) /\
  g_atomic_int_inc (2 ^ 31 - 1) = - 2 ^ 31.
Proof.
  intros Hfresh Hrun. apply fresh_registry_ok in Hfresh.
  destruct (get_unique_for_all_ok _ _ _ _ Hfresh Hrun)
    as (Hok & Hsame & Hrets).
  split; [apply Hok|]. split; [|split; [|split; [|done]]].
  - intros i j a b A B Ha Hb HA HB Heq.
    destruct (Forall2_lookup_l _ _ _ _ _ Hrets Ha)
      as (ra & Hra & (A' & RA & HA' & HRA & HuA & HiA & HpA)).
    destruct (Forall2_lookup_l _ _ _ _ _ Hrets Hb)
      as (rb & Hrb & (B' & RB & HB' & HRB & HuB & HiB & HpB)).
    rewrite Hra, Hrb. f_equal.
    assert (A' = A) as -> by congruence.
    assert (B' = B) as -> by congruence.
    destruct Hok as (_ & _ & H3).
    apply (H3 ra rb RA RB HRA HRB HuA HuB).
    by rewrite (g_mount_spec_equal_content A RA B RB).
  - intros p obj Hobj.
    destruct (is_unique obj) eqn:Hu.
    { unfold g_mount_spec_get_unique_for. by rewrite Hobj, Hu. }
    destruct (g_hash_table_lookup _ _ obj) as [q|] eqn:Hlookup.
    + destruct (lookup_hit _ _ _ _ Hlookup) as (k & R & Hin & HR & Heq).
      destruct Hok as (H1 & _ & _).
      destruct (H1 k q Hin) as (-> & R' & HR' & HuR).
      assert (R' = R) as -> by congruence.
      assert (q <> p) as Hne by (intros ->; congruence).
      eexists _, R. split.
      { unfold g_mount_spec_get_unique_for.
        by rewrite Hobj, Hu, Hlookup. }
      repeat (split; [done|]). rewrite !ref_lookup. simpl.
      rewrite HR, Hobj. simpl. rewrite decide_True by done.
      by rewrite decide_False by done.
    + destruct (miss_registry_ok st p obj Hok Hobj Hu Hlookup)
        as (Htable & _ & _).
      eexists. split.
      { unfold g_mount_spec_get_unique_for.
        by rewrite Hobj, Hu, Hlookup. }
      split.
      * rewrite ref_lookup. simpl. rewrite lookup_insert_eq. simpl.
        by rewrite decide_True by done.
      * exact Htable.
  - intros n Hn. unfold g_atomic_int_inc, wrap_int.
    rewrite Z.mod_small by lia. lia.
Qed.

Lemma get_unique_for_contract_witness :
  fresh three_specs /\
  exists st,
    get_unique_for_all three_specs [1; 2; 1; 3]%nat
    = Some ([1; 1; 1; 3]%nat, st) /\
    one_unique_per_class st.
Proof.
  assert (fresh three_specs) as Hfresh.
  { split; [done|]. apply (bool_decide_unpack _). by vm_compute. }
  split; [done|].
  destruct (get_unique_for_all three_specs [1; 2; 1; 3]%nat)
    as [[results st]|] eqn:Hrun; [|by vm_compute in Hrun].
  assert (results = [1; 1; 1; 3]%nat) as ->.
  { vm_compute in Hrun. by injection Hrun as <- _. }
  exists st. split; [done|].
  by destruct (get_unique_for_contract _ _ _ _ Hfresh Hrun) as (H1 & _).
Defined.

End UniqueTable.

Section Canonicalizer.

Implicit Types (pre rest seg after : cstr) (stack : list cstr).

(** *** Reading and moving behind a prefix *)

Lemma char_is_behind pre rest k c :
  char_is (pre ++ rest) (length pre + k) c = char_is rest k c.
Proof.
  unfold char_is, char_at. rewrite lookup_app_r by lia.
  by replace (length pre + k - length pre)%nat with k by lia.
Qed.

Lemma char_nul_behind pre rest k :
  char_nul (pre ++ rest) (length pre + k) = char_nul rest k.
Proof.
  unfold char_nul, char_at. rewrite lookup_app_r by lia.
  by replace (length pre + k - length pre)%nat with k by lia.
Qed.

Lemma char_is_here pre rest c :
  char_is (pre ++ rest) (length pre) c = char_is rest 0 c.
Proof. by rewrite <- (char_is_behind pre rest 0), Nat.add_0_r. Qed.

Lemma char_nul_here pre rest :
  char_nul (pre ++ rest) (length pre) = char_nul rest 0.
Proof. by rewrite <- (char_nul_behind pre rest 0), Nat.add_0_r. Qed.

Lemma memmove_behind pre rest k :
  memmove_tail (pre ++ rest) (length pre) (length pre + k)
  = pre ++ drop k rest.
Proof.
  unfold memmove_tail. rewrite take_app_length. f_equal.
  rewrite drop_app_ge by lia. f_equal. lia.
Qed.

Lemma strip_slash s : strip ("/"%char :: s) = strip s.
Proof. done. Qed.

Lemma strip_other c s : ascii_eqb c "/" = false -> strip (c :: s) = c :: s.
Proof. intros H. unfold strip. simpl. by rewrite H. Qed.

Lemma strip_head s : head (strip s) <> Some "/"%char.
Proof.
  induction s as [|c s IH]; [done|].
  destruct (ascii_eqb c "/") eqn:E.
  - apply ascii_eqb_true in E. subst c. by rewrite strip_slash.
  - rewrite strip_other by done. simpl. apply ascii_eqb_false in E.
    congruence.
Qed.

Lemma strip_length s : (length (strip s) <= length s)%nat.
Proof. unfold strip. rewrite length_drop. lia. Qed.

Lemma remove_separators_behind pre rest :
  remove_separators (pre ++ rest) (length pre)
  = (pre ++ strip rest, length pre).
Proof.
  unfold remove_separators, strip. rewrite drop_app_length.
  destruct (slash_run rest) as [|n] eqn:E.
  - by rewrite Nat.add_0_r, Nat.eqb_refl.
  - replace (length pre =? length pre + S n)%nat with false
      by (symmetry; apply Nat.eqb_neq; lia).
    cbn [negb]. by rewrite memmove_behind.
Qed.

(** *** The three turns of the loop *)

Lemma step_dot pre after :
  ends_segment after ->
  canonicalize_step (pre ++ "."%char :: after) (length pre)
  = (pre ++ strip after, length pre).
Proof.
  intros Hend. unfold canonicalize_step.
  rewrite char_is_here, char_nul_behind, char_is_behind.
  assert (char_is ("."%char :: after) 0 "." = true) as -> by done.
  assert (char_nul ("."%char :: after) 1
          || char_is ("."%char :: after) 1 "/" = true) as ->.
  { by destruct Hend as [->|[after' ->]]. }
  cbn [andb]. rewrite memmove_behind. cbn [drop].
  apply remove_separators_behind.
Qed.

Lemma step_dotdot pre after :
  ends_segment after ->
  (previous_segment (pre ++ lit ".." ++ after) (length pre) <= length pre)%nat ->
  canonicalize_step (pre ++ lit ".." ++ after) (length pre)
  = (take (previous_segment (pre ++ lit ".." ++ after) (length pre)) pre
       ++ strip after,
     previous_segment (pre ++ lit ".." ++ after) (length pre)).
Proof.
  intros Hend Hle. unfold canonicalize_step.
  set (p' := previous_segment _ _) in *.
  rewrite !char_is_here, !char_nul_behind, !char_is_behind.
  assert (char_is (lit ".." ++ after) 0 "." = true) as -> by done.
  assert (char_is (lit ".." ++ after) 1 "." = true) as -> by done.
  assert (char_nul (lit ".." ++ after) 1
          || char_is (lit ".." ++ after) 1 "/" = false) as -> by done.
  assert (char_nul (lit ".." ++ after) 2
          || char_is (lit ".." ++ after) 2 "/" = true) as ->.
  { by destruct Hend as [->|[after' ->]]. }
  cbn [andb].
  assert (memmove_tail (pre ++ lit ".." ++ after) p' (length pre + 2)
          = take p' pre ++ after) as ->.
  { unfold memmove_tail. rewrite take_app_le by done.
    rewrite drop_app_ge by lia.
    by replace (length pre + 2 - length pre)%nat with 2%nat by lia. }
  pose proof (remove_separators_behind (take p' pre) after) as H.
  by rewrite length_take_le in H by done.
Qed.

Lemma segment_len_app seg after :
  Forall (fun c => c <> "/"%char) seg -> ends_segment after ->
  segment_len (seg ++ after) = length seg.
Proof.
  intros Hseg Hend. induction Hseg as [|c seg Hc Hseg IH]; simpl.
  - by destruct Hend as [->|[after' ->]].
  - apply ascii_eqb_false in Hc. by rewrite Hc, IH.
Qed.

Ltac no_slash :=
  repeat match goal with
    | H : Forall _ (_ :: _) |- _ =>
        apply Forall_cons in H as [?%ascii_eqb_false ?]
    end.

Ltac slash_tests :=
  repeat match goal with
    | H : ascii_eqb ?x "/" = false |- context [ascii_eqb ?x "/"] =>
        rewrite H
    end;
  rewrite ?andb_false_r.

Lemma not_dot_turn seg after :
  Forall (fun c => c <> "/"%char) seg -> is_dot seg = false ->
  ends_segment after ->
  char_is (seg ++ after) 0 "."
  && (char_nul (seg ++ after) 1 || char_is (seg ++ after) 1 "/") = false.
Proof.
  intros Hseg Hdot Hend. unfold char_is, char_nul, char_at.
  destruct seg as [|c [|d seg]]; no_slash;
    destruct Hend as [->|[after' ->]]; simpl in *;
    rewrite ?Hdot, ?andb_false_r; try done; by slash_tests.
Qed.

Lemma not_dotdot_turn seg after :
  Forall (fun c => c <> "/"%char) seg -> is_dotdot seg = false ->
  ends_segment after ->
  char_is (seg ++ after) 0 "." && char_is (seg ++ after) 1 "."
  && (char_nul (seg ++ after) 2 || char_is (seg ++ after) 2 "/") = false.
Proof.
  intros Hseg Hdot Hend. unfold char_is, char_nul, char_at.
  destruct seg as [|c [|d [|e seg]]]; no_slash;
    destruct Hend as [->|[after' ->]]; simpl in *;
    rewrite ?Hdot, ?andb_false_r; try done; by slash_tests.
Qed.

Lemma step_keep pre seg after :
  Forall (fun c => c <> "/"%char) seg ->
  is_dot seg = false -> is_dotdot seg = false ->
  ends_segment after ->
  canonicalize_step (pre ++ seg ++ after) (length pre)
  = match after with
    | [] => (pre ++ seg, length (pre ++ seg))
    | _ :: after' =>
        ((pre ++ seg ++ ["/"%char]) ++ strip after',
         length (pre ++ seg ++ ["/"%char]))
    end.
Proof.
  intros Hseg Hdot Hdotdot Hend. unfold canonicalize_step.
  rewrite !char_is_here, !char_nul_behind, !char_is_behind.
  rewrite not_dot_turn, not_dotdot_turn by done.
  rewrite drop_app_length, segment_len_app by done.
  rewrite ?char_nul_behind.
  assert (char_nul (seg ++ after) (length seg)
          = match after with [] => true | _ => false end) as ->.
  { rewrite <- (Nat.add_0_r (length seg)), char_nul_behind.
    by destruct after. }
  destruct Hend as [->|[after' ->]]; cbn [negb].
  - rewrite app_nil_r, <- length_app.
    rewrite <- (app_nil_r (pre ++ seg)) at 1.
    by rewrite remove_separators_behind, app_nil_r.
  - replace (length pre + length seg + 1)%nat
      with (length (pre ++ seg ++ ["/"%char]))
      by (rewrite !length_app; simpl; lia).
    replace (pre ++ seg ++ "/"%char :: after')
      with ((pre ++ seg ++ ["/"%char]) ++ after')
      by (by rewrite <- !app_assoc).
    apply remove_separators_behind.
Qed.

(** *** Stepping back over a segment *)

Lemma previous_segment_root rest :
  previous_segment ("/"%char :: lit ".." ++ rest) 1 = 1%nat.
Proof. done. Qed.

Lemma previous_segment_empty rest :
  previous_segment ("/"%char :: "/"%char :: rest) 2 = 2%nat.
Proof. done. Qed.

Lemma back_to_separator_segment (x s rest : cstr) k :
  Forall (fun c => c <> "/"%char) s -> (k < length s)%nat ->
  back_to_separator ((x ++ ["/"%char]) ++ s ++ rest) (length x + 1 + k)
  = if (length x =? 0)%nat then 1%nat else length x.
Proof.
  intros Hs. set (canon := (x ++ ["/"%char]) ++ s ++ rest).
  assert (forall j, (j < length s)%nat ->
            char_is canon (length x + 1 + j) "/" = false) as Hchar.
  { intros j Hj. unfold canon.
    replace (length x + 1)%nat with (length (x ++ ["/"%char]))
      by (rewrite length_app; simpl; lia).
    rewrite char_is_behind. unfold char_is, char_at.
    rewrite lookup_app_l by done.
    destruct (s !! j) as [c|] eqn:E; [|done].
    apply ascii_eqb_false. rewrite Forall_forall in Hs.
    apply Hs. by eapply list_elem_of_lookup_2. }
  induction k as [|k IH]; intros Hk.
  - replace (length x + 1 + 0)%nat with (S (length x)) by lia.
    cbn [back_to_separator].
    specialize (Hchar 0%nat Hk).
    replace (length x + 1 + 0)%nat with (S (length x)) in Hchar by lia.
    rewrite Hchar. cbn [negb]. rewrite andb_true_r. unfold start.
    destruct (length x) as [|n] eqn:En; [done|].
    replace (1 <? S (S n))%nat with true by done.
    cbn [back_to_separator].
    assert (char_is canon (S n) "/" = true) as ->.
    { unfold canon. rewrite <- !app_assoc, <- En.
      by rewrite char_is_here. }
    by rewrite andb_false_r.
  - replace (length x + 1 + S k)%nat with (S (length x + 1 + k)) by lia.
    cbn [back_to_separator].
    specialize (Hchar (S k) Hk).
    replace (length x + 1 + S k)%nat with (S (length x + 1 + k))
      in Hchar by lia.
    rewrite Hchar. cbn [negb]. rewrite andb_true_r. unfold start.
    replace (1 <? S (length x + 1 + k))%nat with true
      by (symmetry; apply Nat.ltb_lt; lia).
    apply IH. lia.
Qed.

Lemma previous_segment_pop (x s rest : cstr) :
  Forall (fun c => c <> "/"%char) s -> s <> [] ->
  previous_segment ((x ++ ["/"%char]) ++ s ++ "/"%char :: rest)
    (length ((x ++ ["/"%char]) ++ s ++ ["/"%char]))
  = length (x ++ ["/"%char]).
Proof.
  intros Hs Hne. unfold previous_segment.
  assert (0 < length s)%nat as Hlen by (destruct s; [done | simpl; lia]).
  rewrite !length_app. cbn [length].
  replace (Z.of_nat (length x + 1 + (length s + 1)) - 2 <? Z.of_nat start)
    with false by (symmetry; apply Z.ltb_ge; unfold start; lia).
  replace (Z.to_nat (Z.of_nat (length x + 1 + (length s + 1)) - 2))
    with (length x + 1 + (length s - 1))%nat by lia.
  rewrite back_to_separator_segment by (done || lia).
  destruct (length x) as [|n] eqn:En.
  - cbn [Nat.eqb]. destruct x; [|done]. destruct s as [|c s]; [done|].
    apply Forall_cons in Hs as [Hc%ascii_eqb_false _].
    unfold char_is, char_at. simpl. by rewrite Hc.
  - cbn [Nat.eqb].
    assert (char_is ((x ++ ["/"%char]) ++ s ++ "/"%char :: rest) (S n) "/"
            = true) as ->.
    { rewrite <- !app_assoc, <- En. by rewrite char_is_here. }
    lia.
Qed.

(** *** The strings behind and the stacks *)

Lemma behind_snoc stack s :
  behind (stack ++ [s]) = behind stack ++ s ++ ["/"%char].
Proof.
  unfold behind. rewrite fmap_app, concat_app. simpl.
  by rewrite app_nil_r.
Qed.

Lemma behind_ends stack : exists x, behind stack = x ++ ["/"%char].
Proof.
  destruct stack as [|s stack _] using rev_ind.
  - by exists [].
  - rewrite behind_snoc. exists (behind stack ++ s).
    by rewrite <- app_assoc.
Qed.

Lemma join_slash_snoc stack s :
  "/"%char :: join_slash (stack ++ [s]) = behind stack ++ s.
Proof.
  unfold behind. induction stack as [|t stack IH]; [done|].
  cbn [fmap list_fmap concat app]. rewrite <- !app_assoc.
  cbn [app]. injection IH as IH. rewrite <- IH.
  simpl. by destruct (stack ++ [s]) eqn:E; [destruct stack|].
Qed.

Lemma absolute_snoc stack s : absolute (stack ++ [s]) = behind stack ++ s.
Proof. apply join_slash_snoc. Qed.

Lemma stack_cases stack :
  stack_ok stack ->
  stack = [] \/ stack = [[]] \/
  exists st s, stack = st ++ [s] /\ s <> [] /\ stack_ok st /\
               segment_ok s.
Proof.
  intros [Hok Hne]. destruct stack as [|s st _] using rev_ind;
    [by left|]. right.
  apply Forall_app in Hok as [Hst Hs]. apply Forall_cons in Hs as [Hs _].
  destruct st as [|t st].
  - destruct s as [|c s]; [by left|]. right. exists [], (c :: s).
    split; [done|]. split; [done|]. split; [|done]. split; constructor.
  - right. simpl in Hne. apply Forall_app in Hne as [Hne Hs'].
    apply Forall_cons in Hs' as [Hs' _]. exists (t :: st), s.
    split; [done|]. split; [done|]. split; [|done]. by split.
Qed.

Lemma stack_ok_snoc stack s :
  stack_ok stack -> segment_ok s -> s <> [] -> stack_ok (stack ++ [s]).
Proof.
  intros [Hok Hne] Hs Hnes. split.
  - apply Forall_app. split; [done | by constructor].
  - destruct stack as [|t stack]; [constructor|]. simpl in *.
    apply Forall_app. split; [done | by constructor].
Qed.

Lemma pop_snoc stack s : s <> [] -> pop (stack ++ [s]) = stack.
Proof.
  intros Hs. unfold pop. rewrite last_snoc.
  destruct s; [done|]. by rewrite removelast_last.
Qed.

Lemma stack_ok_pop stack : stack_ok stack -> stack_ok (pop stack).
Proof.
  intros Hok. destruct (stack_cases stack Hok)
    as [->|[->|(st & s & -> & Hs & Hst & _)]]; try done.
  by rewrite pop_snoc.
Qed.

(** The ".." turn steps back to the string behind the popped stack. *)
Lemma previous_segment_stack stack after :
  stack_ok stack ->
  previous_segment (behind stack ++ lit ".." ++ after)
    (length (behind stack))
  = length (behind (pop stack)) /\
  take (length (behind (pop stack))) (behind stack) = behind (pop stack).
Proof.
  intros Hok. destruct (stack_cases stack Hok)
    as [->|[->|(st & s & -> & Hs & Hst & Hseg)]]; try done.
  rewrite pop_snoc by done. rewrite behind_snoc.
  destruct (behind_ends st) as [x Hx]. rewrite Hx.
  split; [|by rewrite take_app_length].
  replace (((x ++ ["/"%char]) ++ s ++ ["/"%char]) ++ lit ".." ++ after)
    with ((x ++ ["/"%char]) ++ s ++ "/"%char :: (lit ".." ++ after))
    by (by rewrite <- !app_assoc).
  apply previous_segment_pop; [apply Hseg | done].
Qed.

Lemma remove_trailing_behind stack :
  remove_trailing (behind stack) (length (behind stack)) = absolute stack.
Proof.
  destruct stack as [|s stack _] using rev_ind; [done|].
  rewrite absolute_snoc, behind_snoc. unfold remove_trailing.
  replace (behind stack ++ s ++ ["/"%char])
    with ((behind stack ++ s) ++ ["/"%char]) by (by rewrite <- app_assoc).
  rewrite length_app. cbn [length].
  replace (length (behind stack ++ s) + 1 - 1)%nat
    with (length (behind stack ++ s)) by lia.
  rewrite char_is_here. unfold terminate_at. rewrite take_app_length.
  replace (start <? length (behind stack ++ s) + 1)%nat with true; [done|].
  symmetry. apply Nat.ltb_lt. unfold start, behind.
  rewrite length_app. simpl. lia.
Qed.

Lemma remove_trailing_segment pre s :
  Forall (fun c => c <> "/"%char) s -> s <> [] ->
  remove_trailing (pre ++ s) (length (pre ++ s)) = pre ++ s.
Proof.
  intros Hs Hne. unfold remove_trailing.
  destruct s as [|c s _] using rev_ind; [done|].
  apply Forall_app in Hs as [_ Hc].
  apply Forall_cons in Hc as [Hc%ascii_eqb_false _].
  rewrite app_assoc, length_app. cbn [length].
  replace (length (pre ++ s) + 1 - 1)%nat with (length (pre ++ s)) by lia.
  rewrite char_is_here. unfold char_is, char_at. simpl.
  by rewrite Hc, andb_false_r.
Qed.

(** *** The segments of a string *)

Lemma segment_split rest :
  exists seg after,
    rest = seg ++ after /\ Forall (fun c => c <> "/"%char) seg /\
    ends_segment after.
Proof.
  induction rest as [|c rest (seg & after & -> & Hseg & Hend)].
  - exists [], []. repeat split; [constructor | by left].
  - destruct (ascii_eqb c "/") eqn:E.
    + apply ascii_eqb_true in E. subst c.
      exists [], ("/"%char :: seg ++ after).
      repeat split; [constructor | right; by eexists].
    + apply ascii_eqb_false in E. exists (c :: seg), after.
      repeat split; [by constructor | done].
Qed.

Lemma split_on_segment seg after :
  Forall (fun c => c <> "/"%char) seg -> ends_segment after ->
  split_on "/" (seg ++ after)
  = seg :: match after with
           | [] => []
           | _ :: after' => split_on "/" after'
           end.
Proof.
  intros Hseg [->|[after' ->]].
  - rewrite app_nil_r. by apply split_on_plain.
  - by apply split_on_app.
Qed.

Lemma split_on_no_slash s :
  Forall (Forall (fun c => c <> "/"%char)) (split_on "/" s).
Proof.
  induction s as [|c s IH]; simpl; [by repeat constructor|].
  destruct (ascii_eqb c "/") eqn:E; [by repeat constructor|].
  apply ascii_eqb_false in E.
  destruct (split_on "/" s) as [|tok toks]; [by repeat constructor|].
  apply Forall_cons in IH as [Htok Htoks]. by repeat constructor.
Qed.

Lemma keep_strip stack s :
  keep_segments stack (split_on "/" (strip s))
  = keep_segments stack (split_on "/" s).
Proof.
  induction s as [|c s IH]; [done|].
  destruct (ascii_eqb c "/") eqn:E.
  - apply ascii_eqb_true in E. subst c. rewrite strip_slash, IH. done.
  - by rewrite strip_other.
Qed.

Lemma keep_after stack after :
  ends_segment after ->
  keep_segments stack (split_on "/" (strip after))
  = keep_segments stack
      match after with
      | [] => []
      | _ :: after' => split_on "/" after'
      end.
Proof.
  intros [->|[after' ->]]; [done|]. by rewrite strip_slash, keep_strip.
Qed.

Lemma is_dot_eq s : is_dot s = true -> s = lit ".".
Proof.
  destruct s as [|c [|? ?]]; try done. simpl.
  by intros ->%ascii_eqb_true.
Qed.

Lemma is_dotdot_eq s : is_dotdot s = true -> s = lit "..".
Proof.
  destruct s as [|c [|d [|? ?]]]; try done. simpl.
  by intros [->%ascii_eqb_true ->%ascii_eqb_true]%andb_true_iff.
Qed.

Lemma is_empty_eq s : is_empty s = true -> s = [].
Proof. by destruct s. Qed.

(** *** The loop *)

Lemma loop_end fuel canon p :
  char_nul canon p = true ->
  canonicalize_loop fuel canon p = Some (canon, p).
Proof. intros H. destruct fuel; simpl; by rewrite H. Qed.

Lemma loop_turn fuel canon p :
  char_nul canon p = false ->
  canonicalize_loop (S fuel) canon p
  = canonicalize_loop fuel (canonicalize_step canon p).1
      (canonicalize_step canon p).2.
Proof.
  intros H. simpl. rewrite H. by destruct (canonicalize_step canon p).
Qed.

(** From any turn but the first, where the string at [p] starts with no
    separator, the loop leaves the string of the segments that the
    canonical form keeps. *)
Lemma loop_segments fuel stack rest :
  stack_ok stack -> head rest <> Some "/"%char ->
  (length rest <= fuel)%nat ->
  exists canon p,
    canonicalize_loop fuel (behind stack ++ rest) (length (behind stack))
    = Some (canon, p) /\
    remove_trailing canon p
    = absolute (keep_segments stack (split_on "/" rest)).
Proof.
  revert stack rest. induction fuel as [|fuel IH];
    intros stack rest Hok Hhead Hfuel.
  { destruct rest; [|simpl in Hfuel; lia].
    exists (behind stack ++ []), (length (behind stack)).
    split; [apply loop_end; by rewrite char_nul_here|].
    rewrite app_nil_r. apply remove_trailing_behind. }
  destruct rest as [|c rest'] eqn:Erest.
  { exists (behind stack ++ []), (length (behind stack)).
    split; [apply loop_end; by rewrite char_nul_here|].
    rewrite app_nil_r. apply remove_trailing_behind. }
  rewrite <- Erest in *.
  destruct (segment_split rest) as (seg & after & Hsplit & Hseg & Hend).
  assert (seg <> []) as Hne.
  { intros ->. destruct Hend as [->|[after' ->]]; simpl in Hsplit;
      [congruence|]. rewrite Hsplit in Hhead. by apply Hhead. }
  assert (length (strip after) < length rest)%nat as Hshort.
  { pose proof (strip_length after). rewrite Hsplit, length_app.
    destruct seg; [done|]. simpl. lia. }
  rewrite loop_turn by (by rewrite char_nul_here, Erest).
  rewrite Hsplit, split_on_segment by done. cbn [keep_segments].
  destruct (is_dot seg) eqn:Edot; [|destruct (is_dotdot seg) eqn:Edd].
  - apply is_dot_eq in Edot. subst seg.
    change (lit "." ++ after) with ("."%char :: after).
    rewrite step_dot by done. cbn [fst snd].
    destruct (IH stack (strip after) Hok (strip_head _))
      as (canon & p & Hloop & Htrail); [lia|].
    exists canon, p. split; [done|]. by rewrite Htrail, keep_after.
  - apply is_dotdot_eq in Edd. subst seg.
    destruct (previous_segment_stack stack after Hok) as [Hprev Htake].
    assert (length (behind (pop stack)) <= length (behind stack))%nat
      as Hle by (rewrite <- Htake; rewrite length_take; lia).
    rewrite step_dotdot by (done || by rewrite Hprev).
    rewrite Hprev. cbn [fst snd]. rewrite Htake.
    destruct (IH (pop stack) (strip after) (stack_ok_pop _ Hok)
                (strip_head _))
      as (canon & p & Hloop & Htrail); [lia|].
    exists canon, p. split; [done|]. by rewrite Htrail, keep_after.
  - assert (is_empty seg = false) as -> by by destruct seg.
    rewrite step_keep by done.
    destruct Hend as [->|[after' ->]].
    + cbn [fst snd]. exists (behind stack ++ seg), (length (behind stack ++ seg)).
      split.
      * apply loop_end. rewrite <- (app_nil_r (behind stack ++ seg)) at 1.
        by rewrite char_nul_here.
      * rewrite remove_trailing_segment by done. cbn [keep_segments].
        by rewrite absolute_snoc.
    + cbn [fst snd]. rewrite <- behind_snoc.
      assert (stack_ok (stack ++ [seg])) as Hok'
        by by apply stack_ok_snoc.
      rewrite strip_slash in Hshort.
      destruct (IH (stack ++ [seg]) (strip after') Hok' (strip_head _))
        as (canon & p & Hloop & Htrail); [lia|].
      exists canon, p. split; [done|]. by rewrite Htrail, keep_strip.
Qed.

(** The first turn on a path of two initial slashes: the empty segment
    between them is kept. *)
Lemma loop_first fuel rest :
  (length rest < fuel)%nat ->
  exists canon p,
    canonicalize_loop fuel ("/"%char :: "/"%char :: rest) start
    = Some (canon, p) /\
    remove_trailing canon p
    = absolute (keep_segments [[]] (split_on "/" rest)).
Proof.
  intros Hfuel. destruct fuel as [|fuel]; [lia|].
  rewrite loop_turn by done.
  pose proof (step_keep ["/"%char] [] ("/"%char :: rest)) as Hstep.
  cbn [app length] in Hstep. unfold start. rewrite Hstep; try done.
  2:{ right. by eexists. }
  cbn [fst snd].
  destruct (loop_segments fuel [[]] (strip rest)) as (canon & p & Hloop & Htrail).
  - split; by repeat constructor.
  - apply strip_head.
  - pose proof (strip_length rest). lia.
  - exists canon, p. split; [done|]. by rewrite Htrail, keep_strip.
Qed.

(** The code computes the canonical form by segments, and always
    returns. *)
Lemma canonicalize_path_canonical_form path :
  g_mount_spec_canonicalize_path path = Some (canonical_form path).
Proof.
  unfold g_mount_spec_canonicalize_path, canonicalize_with, canonical_form,
    strlen.
  assert (stack_ok []) as Hnil by (split; constructor).
  destruct path as [|c path]; [done|].
  unfold char_is, char_at. cbn [lookup list_lookup].
  destruct (ascii_eqb c "/") eqn:E; cbn [negb].
  - apply ascii_eqb_true in E. subst c.
    destruct path as [|d rest]; [done|].
    destruct (ascii_eqb d "/") eqn:E'.
    + apply ascii_eqb_true in E'. subst d.
      destruct (loop_first (length ("/"%char :: "/"%char :: rest)) rest)
        as (canon & p & -> & ->); [simpl; lia | done].
    + destruct (loop_segments (length ("/"%char :: d :: rest)) []
                  (d :: rest) Hnil)
        as (canon & p & Hloop & Htrail).
      * simpl. apply ascii_eqb_false in E'. congruence.
      * simpl. lia.
      * change (behind [] ++ d :: rest) with ("/"%char :: d :: rest)
          in Hloop.
        change (length (behind [])) with start in Hloop.
        by rewrite Hloop, Htrail.
  - destruct (loop_segments (length (c :: path)) [] (c :: path) Hnil)
      as (canon & p & Hloop & Htrail).
    + simpl. apply ascii_eqb_false in E. congruence.
    + done.
    + change (behind [] ++ c :: path) with (lit "/" ++ c :: path) in Hloop.
      change (length (behind [])) with start in Hloop.
      by rewrite Hloop, Htrail, E.
Qed.

(** *** The canonical forms *)

Lemma keep_segments_ok stack segs :
  stack_ok stack -> Forall (Forall (fun c => c <> "/"%char)) segs ->
  stack_ok (keep_segments stack segs).
Proof.
  intros Hok Hsegs. revert stack Hok.
  induction Hsegs as [|s segs Hs Hsegs IH]; intros stack Hok; [done|].
  cbn [keep_segments].
  destruct (is_dot s) eqn:E1; [by apply IH|].
  destruct (is_dotdot s) eqn:E2; [by apply IH, stack_ok_pop|].
  destruct (is_empty s) eqn:E3; [by apply IH|].
  apply IH, stack_ok_snoc; [done | done | by destruct s].
Qed.

Lemma canonical_form_ok path :
  exists stack, stack_ok stack /\ canonical_form path = absolute stack.
Proof.
  unfold canonical_form.
  assert (stack_ok []) as Hnil by (split; constructor).
  assert (stack_ok [[]]) as Hempty by (split; by repeat constructor).
  match goal with |- context [match ?r with [] => [] | _ => _ end] =>
    destruct r as [|c rest] end; [by exists []|].
  destruct (ascii_eqb c "/"); eexists; (split; [|reflexivity]);
    apply keep_segments_ok; try done; apply split_on_no_slash.
Qed.

Lemma join_slash_cons s t segs :
  join_slash (s :: t :: segs) = s ++ "/"%char :: join_slash (t :: segs).
Proof. done. Qed.

Lemma split_on_join segs :
  segs <> [] -> Forall (Forall (fun c => c <> "/"%char)) segs ->
  split_on "/" (join_slash segs) = segs.
Proof.
  intros Hne Hsegs. induction Hsegs as [|s segs Hs Hsegs IH]; [done|].
  destruct segs as [|t segs].
  - by apply split_on_plain.
  - rewrite join_slash_cons, split_on_app by done. by rewrite IH.
Qed.

Lemma keep_all stack segs :
  Forall (fun s => segment_ok s /\ s <> []) segs ->
  keep_segments stack segs = stack ++ segs.
Proof.
  intros Hsegs. revert stack.
  induction Hsegs as [|s segs [(_ & E1 & E2) Hne] Hsegs IH]; intros stack.
  - by rewrite app_nil_r.
  - cbn [keep_segments]. rewrite E1, E2.
    assert (is_empty s = false) as -> by by destruct s.
    rewrite IH. by rewrite <- app_assoc.
Qed.

Lemma canonical_form_slash rest :
  canonical_form ("/"%char :: rest)
  = absolute
      match rest with
      | c :: rest' =>
          if ascii_eqb c "/" then keep_segments [[]] (split_on "/" rest')
          else keep_segments [] (split_on "/" rest)
      | [] => []
      end.
Proof. done. Qed.

(** An absolute path of kept segments is its own canonical form. *)
Lemma canonical_form_absolute stack :
  stack_ok stack -> canonical_form (absolute stack) = absolute stack.
Proof.
  intros [Hok Hne]. unfold absolute at 1. rewrite canonical_form_slash.
  assert (Forall (Forall (fun c => c <> "/"%char)) stack) as Hslash.
  { eapply Forall_impl; [exact Hok|]. by intros s [? _]. }
  assert (Forall (fun s => segment_ok s /\ s <> []) (tail stack)) as Hkeep.
  { destruct stack as [|s stack]; [constructor|]. simpl in *.
    apply Forall_cons in Hok as [_ Hok].
    apply Forall_forall. intros t Ht. rewrite Forall_forall in Hok, Hne.
    split; [by apply Hok | by apply Hne]. }
  destruct stack as [|s stack]; [done|]. cbn [tail] in *.
  destruct s as [|c s].
  - destruct stack as [|t stack]; [done|].
    rewrite join_slash_cons. cbn [app]. rewrite ascii_eqb_refl.
    apply Forall_cons in Hslash as [_ Hslash].
    rewrite split_on_join by done. by rewrite keep_all.
  - apply Forall_cons in Hok as [(Hs & E1 & E2) Hok].
    assert (ascii_eqb c "/" = false) as Hc.
    { apply Forall_cons in Hs as [Hc _]. by apply ascii_eqb_false. }
    assert (exists r, join_slash ((c :: s) :: stack) = c :: r) as [r Hr].
    { destruct stack; simpl; by eexists. }
    rewrite Hr, Hc, <- Hr. rewrite split_on_join by done.
    cbn [keep_segments]. rewrite E1, E2. cbn [is_empty].
    rewrite keep_all by done. done.
Qed.

(** C5 breaks on a path of two initial slashes: the slash after the
    initial one is kept as the separator of an empty first segment, and
    the run of slashes at the start of "//a" and of "///a" is left two
    slashes long, not one.  The examples of the specification hold. *)
Theorem canonicalize_path_leading_slashes :
  g_mount_spec_canonicalize_path (lit "//a") = Some (lit "//a") /\
  g_mount_spec_canonicalize_path (lit "///a") = Some (lit "//a") /\
  g_mount_spec_canonicalize_path (lit "a/./b/../c") = Some (lit "/a/c") /\
  g_mount_spec_canonicalize_path (lit "/a//b///c/") = Some (lit "/a/b/c") /\
  g_mount_spec_canonicalize_path (lit "../../x") = Some (lit "/x").
Proof. by repeat split. Qed.

(** C9. The canonicalizer returns on every path, and its result is a
    path that it returns as it is. *)
Theorem canonicalize_path_idempotent (path : cstr) :
  exists canon,
    g_mount_spec_canonicalize_path path = Some canon /\
    g_mount_spec_canonicalize_path canon = Some canon.
Proof.
  exists (canonical_form path).
  split; [apply canonicalize_path_canonical_form|].
  rewrite canonicalize_path_canonical_form. f_equal.
  destruct (canonical_form_ok path) as (stack & Hok & ->).
  by apply canonical_form_absolute.
Qed.

End Canonicalizer.


Section StoreAccess.

Implicit Types (its : list GMountSpecItem) (k v : cstr) (spec : GMountSpec).

Lemma store_value_stored spec k v :
  store_value spec k v = with_items spec (stored (items spec) k v).
Proof.
  unfold stored, store_value. simpl.
  by destruct (replace_value (items spec) k v).
Qed.

Lemma stored_eq its k v :
  stored its k v
  = match replace_value its k v with
    | Some its' => its'
    | None => g_array_sort item_compare (its ++ [{| key := k; value := v |}])
    end.
Proof.
  unfold stored, store_value. simpl. by destruct (replace_value its k v).
Qed.

Lemma get_items_app its1 its2 k :
  g_mount_spec_get_items (its1 ++ its2) k
  = match g_mount_spec_get_items its1 k with
    | Some v => Some v
    | None => g_mount_spec_get_items its2 k
    end.
Proof.
  induction its1 as [|item its1 IH]; simpl; [done|].
  by destruct (strcmp (key item) k =? 0).
Qed.

Lemma get_items_None its k :
  g_mount_spec_get_items its k = None <-> k ∉ key <$> its.
Proof.
  induction its as [|item its IH]; simpl.
  - split; [intros _; apply not_elem_of_nil | done].
  - rewrite not_elem_of_cons, <- IH.
    destruct (strcmp (key item) k =? 0) eqn:E.
    + apply Z.eqb_eq, strcmp_zero in E. split; [done | by intros [? _]].
    + apply Z.eqb_neq in E. rewrite strcmp_zero in E.
      split; [by split; [congruence|] | by intros [_ ?]].
Qed.

Lemma get_items_Some its k v :
  g_mount_spec_get_items its k = Some v ->
  {| key := k; value := v |} ∈ its.
Proof.
  induction its as [|[k' v'] its IH]; simpl; [done|].
  destruct (strcmp k' k =? 0) eqn:E.
  - apply Z.eqb_eq, strcmp_zero in E. intros [= ->]. subst. left.
  - intros H. right. by apply IH.
Qed.

Lemma get_replace_same its k v its' :
  replace_value its k v = Some its' ->
  g_mount_spec_get_items its' k = Some v.
Proof.
  revert its'. induction its as [|item its IH]; intros its'; simpl; [done|].
  destruct (strcmp (key item) k =? 0) eqn:E.
  - intros [= <-]. simpl. by rewrite E.
  - destruct (replace_value its k v) as [r|]; simpl; [|done].
    intros [= <-]. simpl. rewrite E. by apply IH.
Qed.

Lemma get_replace_other its k v its' k' :
  replace_value its k v = Some its' -> k' <> k ->
  g_mount_spec_get_items its' k' = g_mount_spec_get_items its k'.
Proof.
  intros Hr Hne. revert its' Hr.
  induction its as [|item its IH]; intros its'; simpl; [done|].
  destruct (strcmp (key item) k =? 0) eqn:E.
  - intros [= <-]. simpl. apply Z.eqb_eq, strcmp_zero in E.
    destruct (strcmp (key item) k' =? 0) eqn:E'; [|done].
    apply Z.eqb_eq, strcmp_zero in E'. congruence.
  - destruct (replace_value its k v) as [r|]; simpl; [|done].
    intros [= <-]. simpl.
    destruct (strcmp (key item) k' =? 0); [done | by apply IH].
Qed.

(** The sort is stable: the first item of a key stays the first. *)
Lemma get_sort_insert (x : GMountSpecItem) its k :
  g_mount_spec_get_items (sort_insert item_compare x its) k
  = g_mount_spec_get_items (x :: its) k.
Proof.
  induction its as [|y its IH]; [done|]. cbn [sort_insert].
  destruct (item_compare x y <=? 0) eqn:E; [done|].
  apply Z.leb_gt in E. cbn [g_mount_spec_get_items] in *.
  destruct (strcmp (key y) k =? 0) eqn:Ey.
  - apply Z.eqb_eq, strcmp_zero in Ey. subst k.
    destruct (strcmp (key x) (key y) =? 0) eqn:Ex; [|done].
    apply Z.eqb_eq in Ex. unfold item_compare in E. lia.
  - by rewrite IH.
Qed.

Lemma get_sort its k :
  g_mount_spec_get_items (g_array_sort item_compare its) k
  = g_mount_spec_get_items its k.
Proof.
  induction its as [|x its IH]; [done|]. cbn [g_array_sort foldr].
  rewrite get_sort_insert. cbn [g_mount_spec_get_items].
  fold (g_array_sort item_compare its). by rewrite IH.
Qed.

Lemma get_stored_same its k v :
  g_mount_spec_get_items (stored its k v) k = Some v.
Proof.
  rewrite stored_eq. destruct (replace_value its k v) as [its'|] eqn:E.
  - by eapply get_replace_same.
  - rewrite get_sort, get_items_app.
    apply replace_value_None in E. apply get_items_None in E. rewrite E.
    simpl. by rewrite strcmp_refl.
Qed.

Lemma get_stored_other its k v k' :
  k' <> k ->
  g_mount_spec_get_items (stored its k v) k' = g_mount_spec_get_items its k'.
Proof.
  intros Hne. rewrite stored_eq.
  destruct (replace_value its k v) as [its'|] eqn:E.
  - by eapply get_replace_other.
  - rewrite get_sort, get_items_app.
    destruct (g_mount_spec_get_items its k'); [done|]. simpl.
    destruct (strcmp k k' =? 0) eqn:E'; [|done].
    apply Z.eqb_eq, strcmp_zero in E'. congruence.
Qed.

(** X1. After [g_mount_spec_set_with_len] has stored a value under a key,
    [g_mount_spec_get] returns for that key the copy that was stored, the
    whole value for the length -1 and its first [value_len] characters
    otherwise, and for every other key what it returned before. *)
Theorem get_after_set spec k v (value_len : Z) spec' :
  g_mount_spec_set_with_len spec (Some k) (Some v) value_len = Some spec' ->
  g_mount_spec_get spec' k = value_copy v value_len /\
  forall k', k' <> k -> g_mount_spec_get spec' k' = g_mount_spec_get spec k'.
Proof.
  unfold g_mount_spec_set_with_len, g_mount_spec_get.
  destruct (value_copy v value_len) as [vc|]; simpl; [|done].
  intros [= <-]. rewrite store_value_stored. simpl. split.
  - by rewrite get_stored_same.
  - intros k' Hne. by apply get_stored_other.
Qed.

Lemma get_after_set_witness :
  g_mount_spec_set_with_len ftp_spec (Some (lit "user"))
    (Some (lit "alice@example")) 5
  = Some (with_items ftp_spec
            [{| key := lit "host"; value := lit "example.com" |};
             {| key := lit "type"; value := lit "ftp" |};
             {| key := lit "user"; value := lit "alice" |}]) /\
  g_mount_spec_get
    (with_items ftp_spec
       [{| key := lit "host"; value := lit "example.com" |};
        {| key := lit "type"; value := lit "ftp" |};
        {| key := lit "user"; value := lit "alice" |}]) (lit "user")
  = Some (lit "alice").
Proof.
  split; [reflexivity|].
  apply (get_after_set ftp_spec (lit "user") (lit "alice@example") 5).
  reflexivity.
Defined.

Lemma increasing_head_get (a : GMountSpecItem) its :
  StronglySorted key_lt (a :: its) ->
  g_mount_spec_get_items its (key a) = None.
Proof.
  intros H. apply increasing_NoDup in H. simpl in H.
  apply NoDup_cons in H as [H _]. by apply get_items_None.
Qed.

(** Two lists of items with strictly increasing keys that answer alike for
    every key are the same. *)
Lemma get_items_ext its1 its2 :
  StronglySorted key_lt its1 -> StronglySorted key_lt its2 ->
  (forall k, g_mount_spec_get_items its1 k = g_mount_spec_get_items its2 k) ->
  its1 = its2.
Proof.
  intros H1. revert its2.
  induction its1 as [|a its1 IH]; intros its2 H2 Hget.
  - destruct its2 as [|b its2]; [done|]. specialize (Hget (key b)).
    simpl in Hget. by rewrite strcmp_refl in Hget.
  - destruct its2 as [|b its2].
    { specialize (Hget (key a)). simpl in Hget.
      by rewrite strcmp_refl in Hget. }
    pose proof (increasing_head_get _ _ H1) as Ha.
    pose proof (increasing_head_get _ _ H2) as Hb.
    assert (key a = key b) as Hk.
    { destruct (decide (strcmp (key a) (key b) = 0)) as [E|E];
        [by apply strcmp_zero|]. exfalso.
      assert (key a <> key b) as Hne by (by rewrite <- strcmp_zero).
      pose proof (Hget (key a)) as Hga. pose proof (Hget (key b)) as Hgb.
      simpl in Hga, Hgb. rewrite strcmp_refl in Hga, Hgb. simpl in Hga, Hgb.
      destruct (strcmp (key b) (key a) =? 0) eqn:Eba.
      { apply Z.eqb_eq, strcmp_zero in Eba. congruence. }
      destruct (strcmp (key a) (key b) =? 0) eqn:Eab.
      { apply Z.eqb_eq in Eab. done. }
      symmetry in Hga. apply get_items_Some in Hga.
      apply get_items_Some in Hgb.
      apply StronglySorted_inv in H1 as [_ Hall1].
      apply StronglySorted_inv in H2 as [_ Hall2].
      rewrite Forall_forall in Hall1, Hall2.
      specialize (Hall1 _ Hgb). specialize (Hall2 _ Hga).
      unfold key_lt, item_compare in Hall1, Hall2. simpl in Hall1, Hall2.
      rewrite (strcmp_flip (key a) (key b)) in Hall2. lia. }
    assert (value a = value b) as Hv.
    { specialize (Hget (key a)). simpl in Hget.
      rewrite strcmp_refl, <- Hk, strcmp_refl in Hget. simpl in Hget.
      congruence. }
    assert (a = b) as <- by (destruct a, b; simpl in *; congruence).
    f_equal. apply StronglySorted_inv in H1 as [H1 _].
    apply StronglySorted_inv in H2 as [H2 _]. apply IH; [done | done|].
    intros k. specialize (Hget k). simpl in Hget.
    destruct (strcmp (key a) k =? 0) eqn:E; [|done].
    apply Z.eqb_eq, strcmp_zero in E. subst k. by rewrite Ha, Hb.
Qed.

(** X2. A spec whose keys are strictly increasing is determined by what
    [g_mount_spec_get] returns: two such specs that answer alike for every
    key hold the same items, and are equal when their prefixes are the
    same. *)
Theorem increasing_items_ext A B :
  StronglySorted key_lt (items A) -> StronglySorted key_lt (items B) ->
  (forall k, g_mount_spec_get A k = g_mount_spec_get B k) ->
  items A = items B /\
  (mount_prefix A = mount_prefix B -> g_mount_spec_equal A B = true).
Proof.
  intros HA HB Hget.
  assert (items A = items B) as Hi by by apply get_items_ext.
  split; [done|]. intros Hp. by apply g_mount_spec_equal_eq.
Qed.

Lemma increasing_items_ext_witness :
  items (g_mount_spec_set (g_mount_spec_new (Some (lit "ftp")))
           (Some (lit "host")) (Some (lit "example.com")))
  = items ftp_spec.
Proof.
  apply increasing_items_ext.
  - repeat constructor; by vm_compute.
  - repeat constructor; by vm_compute.
  - intros k. reflexivity.
Defined.

Lemma stored_increasing its k v :
  StronglySorted key_lt its -> StronglySorted key_lt (stored its k v).
Proof.
  intros H. unfold stored.
  by apply (store_value_increasing
              {| ref_count := 1; items := its; mount_prefix := None;
                 is_unique := false |}).
Qed.

Lemma with_items_with_items spec its1 its2 :
  with_items (with_items spec its1) its2 = with_items spec its2.
Proof. done. Qed.

Lemma set_eq spec k v :
  g_mount_spec_set spec (Some k) (Some v)
  = with_items spec (stored (items spec) k v).
Proof. apply store_value_stored. Qed.

(** X3. On a spec whose keys are strictly increasing, a second
    [g_mount_spec_set] under the same key overwrites the first, and two
    [g_mount_spec_set] under different keys give the same spec in either
    order. *)
Theorem set_overwrites_and_commutes spec k1 v1 k2 v2 :
  StronglySorted key_lt (items spec) ->
  g_mount_spec_set (g_mount_spec_set spec (Some k1) (Some v1))
    (Some k1) (Some v2)
  = g_mount_spec_set spec (Some k1) (Some v2) /\
  (k1 <> k2 ->
   g_mount_spec_set (g_mount_spec_set spec (Some k1) (Some v1))
     (Some k2) (Some v2)
   = g_mount_spec_set (g_mount_spec_set spec (Some k2) (Some v2))
       (Some k1) (Some v1)).
Proof.
  intros Hs. rewrite !set_eq. cbn [items with_items].
  rewrite !with_items_with_items. split.
  - f_equal. apply get_items_ext; try by repeat apply stored_increasing.
    intros k. destruct (decide (k = k1)) as [->|Hne].
    + by rewrite !get_stored_same.
    + by rewrite !get_stored_other.
  - intros Hne. f_equal.
    apply get_items_ext; try by repeat apply stored_increasing.
    intros k. destruct (decide (k = k1)) as [->|Hne1].
    + rewrite get_stored_other, !get_stored_same by done. done.
    + destruct (decide (k = k2)) as [->|Hne2].
      * rewrite get_stored_same, get_stored_other, get_stored_same by done.
        done.
      * by rewrite !get_stored_other.
Qed.

Lemma set_overwrites_and_commutes_witness :
  g_mount_spec_set (g_mount_spec_set ftp_spec (Some (lit "user"))
                      (Some (lit "alice")))
    (Some (lit "port")) (Some (lit "21"))
  = g_mount_spec_set (g_mount_spec_set ftp_spec (Some (lit "port"))
                        (Some (lit "21")))
      (Some (lit "user")) (Some (lit "alice")).
Proof.
  assert (StronglySorted key_lt (items ftp_spec)) as Hs
    by (repeat constructor; by vm_compute).
  by apply (set_overwrites_and_commutes ftp_spec (lit "user") (lit "alice")
              (lit "port") (lit "21") Hs).
Defined.

Lemma get_items_elem its k v :
  NoDup (key <$> its) ->
  g_mount_spec_get_items its k = Some v <->
  {| key := k; value := v |} ∈ its.
Proof.
  intros Hnd. split; [apply get_items_Some|].
  induction its as [|[k' v'] its IH]; simpl in *;
    [by intros ?%elem_of_nil|].
  apply NoDup_cons in Hnd as [Hk Hnd].
  intros [[= -> ->]|Hin]%elem_of_cons.
  - by rewrite strcmp_refl.
  - destruct (strcmp k' k =? 0) eqn:E; [|by apply IH].
    apply Z.eqb_eq, strcmp_zero in E. subst k'. exfalso. apply Hk.
    apply list_elem_of_fmap. by exists {| key := k; value := v |}.
Qed.

Lemma get_items_perm its its' k :
  NoDup (key <$> its) -> its ≡ₚ its' ->
  g_mount_spec_get_items its k = g_mount_spec_get_items its' k.
Proof.
  intros Hnd Hp.
  assert (NoDup (key <$> its')) as Hnd' by (by rewrite <- Hp).
  destruct (g_mount_spec_get_items its k) as [v|] eqn:E.
  - symmetry. apply get_items_elem; [done|]. rewrite <- Hp.
    by apply get_items_elem.
  - symmetry. apply get_items_None. rewrite <- Hp.
    by apply get_items_None.
Qed.

(** X4. The bulk constructor does not depend on the order of the items it
    is given, as long as no two of them share a key. *)
Theorem new_from_data_permutation its its' prefix :
  its ≡ₚ its' -> NoDup (key <$> its) ->
  g_mount_spec_new_from_data its prefix
  = g_mount_spec_new_from_data its' prefix.
Proof.
  intros Hp Hnd. unfold g_mount_spec_new_from_data. f_equal.
  assert (NoDup (key <$> its')) as Hnd' by (by rewrite <- Hp).
  apply get_items_ext.
  - apply sorted_NoDup_increasing; [apply g_array_sort_Sorted|].
    by rewrite g_array_sort_perm.
  - apply sorted_NoDup_increasing; [apply g_array_sort_Sorted|].
    by rewrite g_array_sort_perm.
  - intros k. rewrite !get_sort. by apply get_items_perm.
Qed.

Lemma new_from_data_permutation_witness :
  g_mount_spec_new_from_data
    [{| key := lit "type"; value := lit "ftp" |};
     {| key := lit "host"; value := lit "example.com" |}] None
  = g_mount_spec_new_from_data ftp_items None.
Proof.
  apply new_from_data_permutation.
  - apply perm_swap.
  - simpl. repeat constructor.
    + intros [?|?%elem_of_nil]%elem_of_cons; done.
    + apply not_elem_of_nil.
Defined.

(** The items after the loop of [g_mount_spec_copy]. *)
Lemma copy_fold its spec0 :
  fold_left
    (fun copy item =>
       g_mount_spec_set copy (Some (key item)) (Some (value item)))
    its spec0
  = with_items spec0
      (fold_left (fun acc item => stored acc (key item) (value item))
         its (items spec0)).
Proof.
  revert spec0. induction its as [|item its IH]; intros spec0.
  - by destruct spec0.
  - cbn [fold_left]. rewrite IH, set_eq. cbn [items with_items].
    by rewrite with_items_with_items.
Qed.

Lemma fold_stored_increasing its acc :
  StronglySorted key_lt acc ->
  StronglySorted key_lt
    (fold_left (fun acc item => stored acc (key item) (value item)) its acc).
Proof.
  revert acc. induction its as [|item its IH]; intros acc H; simpl; [done|].
  by apply IH, stored_increasing.
Qed.

(** What [g_mount_spec_get] finds after the loop: the value of the last
    item of a key. *)
Lemma get_fold_stored its acc k :
  g_mount_spec_get_items
    (fold_left (fun acc item => stored acc (key item) (value item)) its acc)
    k
  = match g_mount_spec_get_items (rev its) k with
    | Some v => Some v
    | None => g_mount_spec_get_items acc k
    end.
Proof.
  revert acc. induction its as [|item its IH]; intros acc; [done|].
  cbn [fold_left rev]. rewrite IH, get_items_app.
  destruct (g_mount_spec_get_items (rev its) k); [done|]. simpl.
  destruct (strcmp (key item) k =? 0) eqn:E.
  - apply Z.eqb_eq, strcmp_zero in E. subst k. apply get_stored_same.
  - apply get_stored_other. apply Z.eqb_neq in E.
    rewrite strcmp_zero in E. congruence.
Qed.

(** X5. [g_mount_spec_copy] returns a spec with one reference, not marked
    unique, with the prefix of the original and with strictly increasing
    keys, under which [g_mount_spec_get] finds the value of the last item
    of the key in the original; the copy of a spec whose keys are strictly
    increasing has the items of the original and is equal to it. *)
Theorem copy_spec spec :
  ref_count (g_mount_spec_copy spec) = 1 /\
  is_unique (g_mount_spec_copy spec) = false /\
  mount_prefix (g_mount_spec_copy spec) = mount_prefix spec /\
  StronglySorted key_lt (items (g_mount_spec_copy spec)) /\
  (forall k,
      g_mount_spec_get (g_mount_spec_copy spec) k
      = g_mount_spec_get_items (rev (items spec)) k) /\
  (StronglySorted key_lt (items spec) ->
   items (g_mount_spec_copy spec) = items spec /\
   g_mount_spec_equal (g_mount_spec_copy spec) spec = true).
Proof.
  unfold g_mount_spec_copy. rewrite copy_fold. cbn.
  assert (forall k,
             g_mount_spec_get_items
               (fold_left
                  (fun acc item => stored acc (key item) (value item))
                  (items spec) []) k
             = g_mount_spec_get_items (rev (items spec)) k) as Hget.
  { intros k. rewrite get_fold_stored.
    by destruct (g_mount_spec_get_items (rev (items spec)) k). }
  assert (StronglySorted key_lt
            (fold_left (fun acc item => stored acc (key item) (value item))
               (items spec) [])) as Hs
    by (apply fold_stored_increasing; constructor).
  repeat (split; [done|]). intros Hspec.
  assert (fold_left (fun acc item => stored acc (key item) (value item))
            (items spec) [] = items spec) as Heq.
  { apply get_items_ext; [done | done|]. intros k. rewrite Hget.
    symmetry. apply get_items_perm; [by apply increasing_NoDup|].
    by rewrite reverse_Permutation || apply Permutation_rev. }
  split; [done|]. apply g_mount_spec_equal_eq. by simpl.
Qed.

Lemma copy_spec_witness :
  StronglySorted key_lt (items ftp_spec_shared) /\
  g_mount_spec_copy ftp_spec_shared = ftp_spec.
Proof.
  assert (StronglySorted key_lt (items ftp_spec_shared)) as Hs
    by (repeat constructor; by vm_compute).
  split; [done|].
  destruct (copy_spec ftp_spec_shared) as (Hr & Hu & Hp & _ & _ & Hi).
  destruct (Hi Hs) as [Hitems _].
  destruct (g_mount_spec_copy ftp_spec_shared). simpl in *.
  unfold ftp_spec. by subst.
Defined.

End StoreAccess.


Section HashAndMatch.

Lemma lxor_range a b :
  0 <= a < 2 ^ 32 -> 0 <= b < 2 ^ 32 -> 0 <= Z.lxor a b < 2 ^ 32.
Proof.
  intros Ha Hb.
  assert (0 <= Z.lxor a b) as Hnn by (apply Z.lxor_nonneg; lia).
  split; [done|].
  destruct (decide (Z.lxor a b = 0)) as [->|Hne]; [done|].
  apply Z.log2_lt_pow2; [lia|].
  pose proof (Z.log2_lxor a b ltac:(lia) ltac:(lia)) as Hlog.
  assert (Z.log2 a < 32).
  { destruct (decide (a = 0)) as [->|]; [done|].
    apply Z.log2_lt_pow2; lia. }
  assert (Z.log2 b < 32).
  { destruct (decide (b = 0)) as [->|]; [done|].
    apply Z.log2_lt_pow2; lia. }
  lia.
Qed.

Lemma g_str_hash_range v : 0 <= g_str_hash v < 2 ^ 32.
Proof.
  unfold g_str_hash. assert (0 <= 5381 < 2 ^ 32) as H by done.
  revert H. generalize 5381. induction v as [|c v IH]; intros h Hh; [done|].
  simpl. apply IH. unfold wrap32. apply Z.mod_pos_bound. done.
Qed.

(** The hash, as the exclusive-or of a list of hashes. *)
Lemma hash_fold its h :
  fold_left (fun hash item => Z.lxor hash (g_str_hash (value item))) its h
  = Z.lxor h (foldr Z.lxor 0 (g_str_hash <$> (value <$> its))).
Proof.
  revert h. induction its as [|item its IH]; intros h; simpl.
  - by rewrite Z.lxor_0_r.
  - by rewrite IH, Z.lxor_assoc.
Qed.

Lemma lxor_all_perm (l1 l2 : list Z) :
  l1 ≡ₚ l2 -> foldr Z.lxor 0 l1 = foldr Z.lxor 0 l2.
Proof.
  induction 1 as [|x l1 l2 _ IH|x y l|l1 l2 l3 _ IH1 _ IH2]; simpl.
  - done.
  - by rewrite IH.
  - rewrite <- !Z.lxor_assoc. by rewrite (Z.lxor_comm y x).
  - congruence.
Qed.

Lemma lxor_all_range (l : list Z) :
  Forall (fun h => 0 <= h < 2 ^ 32) l -> 0 <= foldr Z.lxor 0 l < 2 ^ 32.
Proof.
  induction 1 as [|h l Hh Hl IH]; simpl; [done|]. by apply lxor_range.
Qed.

(** X6. [g_mount_spec_hash] is a 32-bit value, and it depends neither on
    the order of the items nor on the references and the mark of the spec:
    two specs with the same prefix whose values are the same up to their
    order have the same hash. *)
Theorem hash_range_and_order A B :
  0 <= g_mount_spec_hash A < 2 ^ 32 /\
  (value <$> items A ≡ₚ value <$> items B ->
   mount_prefix A = mount_prefix B ->
   g_mount_spec_hash A = g_mount_spec_hash B).
Proof.
  unfold g_mount_spec_hash. rewrite !hash_fold. split.
  - apply lxor_range.
    + destruct (mount_prefix A); [|done]. rewrite Z.lxor_0_l.
      apply g_str_hash_range.
    + apply lxor_all_range. apply Forall_fmap, Forall_forall.
      intros v _. apply g_str_hash_range.
  - intros Hp ->. f_equal. apply lxor_all_perm. by rewrite Hp.
Qed.

Lemma hash_range_and_order_witness :
  g_mount_spec_hash
    (with_items ftp_spec
       [{| key := lit "a"; value := lit "ftp" |};
        {| key := lit "b"; value := lit "example.com" |}])
  = g_mount_spec_hash ftp_spec.
Proof.
  apply hash_range_and_order; [apply perm_swap | done].
Defined.

(** X7. [g_mount_spec_equal] is an equivalence on the specs, which looks
    at the items and at the prefix only. *)
Theorem equal_equivalence A B C :
  g_mount_spec_equal A A = true /\
  g_mount_spec_equal A B = g_mount_spec_equal B A /\
  (g_mount_spec_equal A B = true -> g_mount_spec_equal B C = true ->
   g_mount_spec_equal A C = true) /\
  (items A = items B -> mount_prefix A = mount_prefix B ->
   g_mount_spec_equal A C = g_mount_spec_equal B C).
Proof.
  split; [apply g_mount_spec_equal_refl|].
  split; [apply g_mount_spec_equal_sym|]. split.
  - rewrite !g_mount_spec_equal_eq. intros [? ?] [? ?]. split; congruence.
  - intros Hi Hp. by apply g_mount_spec_equal_content.
Qed.

Lemma equal_equivalence_witness :
  g_mount_spec_equal ftp_spec_shared (g_mount_spec_copy ftp_spec) = true.
Proof.
  destruct (equal_equivalence ftp_spec_shared ftp_spec
              (g_mount_spec_copy ftp_spec)) as (_ & _ & Htrans & _).
  by apply Htrans.
Defined.

(** The characterisation of [path_has_prefix] for a prefix that is not
    null. *)
Lemma has_prefix_iff path prefix :
  path_has_prefix path (Some prefix) = true <->
  exists rest,
    path = prefix ++ rest /\
    (prefix = [] \/ last prefix = Some "/"%char \/
     rest = [] \/ head rest = Some "/"%char).
Proof.
  unfold path_has_prefix.
  rewrite andb_true_iff, Z.eqb_eq, strncmp_prefix. split.
  - intros [[rest ->] Hb]. exists rest. split; [done|].
    rewrite !orb_true_iff, Nat.eqb_eq, char_is_last,
      char_nul_app, char_is_app in Hb.
    destruct prefix; [by left|]. simpl in Hb.
    destruct Hb as [[[?|?]|?]|?]; [done|by right;left| |]; auto.
  - intros (rest & -> & Hc). split; [by exists rest|].
    rewrite !orb_true_iff, Nat.eqb_eq, char_is_last,
      char_nul_app, char_is_app.
    destruct Hc as [->|[?|[?|?]]]; auto.
Qed.

Lemma has_prefix_refl path : path_has_prefix path (Some path) = true.
Proof.
  apply has_prefix_iff. exists []. rewrite app_nil_r. split; auto.
Qed.

Lemma has_prefix_compose (a b c : cstr) :
  path_has_prefix b (Some a) = true ->
  path_has_prefix c (Some b) = true ->
  path_has_prefix c (Some a) = true.
Proof.
  rewrite !has_prefix_iff.
  intros (r1 & -> & H1) (r2 & -> & H2). exists (r1 ++ r2).
  split; [by rewrite app_assoc|].
  destruct H1 as [->|[H1|[->|H1]]]; [by left | by right; left | |].
  - rewrite app_nil_r in H2. simpl. destruct H2 as [?|[?|[?|?]]]; auto.
  - right. right. right. by destruct r1.
Qed.

(** X8. Having a prefix is a preorder on the paths: every path is under
    itself, and a path under a prefix that is itself under a second prefix
    is under the second one. *)
Theorem has_prefix_trans (a b c : cstr) :
  path_has_prefix a (Some a) = true /\
  (path_has_prefix b (Some a) = true ->
   path_has_prefix c (Some b) = true ->
   path_has_prefix c (Some a) = true).
Proof.
  split; [apply has_prefix_refl | apply has_prefix_compose].
Qed.

Lemma has_prefix_trans_witness :
  path_has_prefix (lit "/pub/a/b") (Some (lit "/pub")) = true.
Proof.
  by apply (has_prefix_trans (lit "/pub") (lit "/pub/a") (lit "/pub/a/b")).
Defined.

(** X9. [g_mount_spec_match] never reads a null pointer on two equal
    specs, which match; and matching is transitive: a spec that matches a
    mount that matches a second mount matches the second mount. *)
Theorem match_equal_and_trans A B C :
  (g_mount_spec_equal A B = true -> g_mount_spec_match A B = Some true) /\
  (g_mount_spec_match A B = Some true ->
   g_mount_spec_match B C = Some true ->
   g_mount_spec_match A C = Some true).
Proof.
  unfold g_mount_spec_match. split.
  - intros [Hi Hp]%g_mount_spec_equal_eq.
    rewrite (proj2 (items_equal_eq _ _) Hi), <- Hp.
    destruct (mount_prefix A) as [p|]; [|done].
    by rewrite has_prefix_refl.
  - destruct (items_equal (items A) (items B)) eqn:EAB; [|done].
    destruct (items_equal (items B) (items C)) eqn:EBC;
      [|by destruct (mount_prefix A), (mount_prefix B)].
    apply items_equal_eq in EAB, EBC.
    rewrite (proj2 (items_equal_eq (items A) (items C)))
      by congruence.
    destruct (mount_prefix A) as [pa|]; [|done].
    destruct (mount_prefix B) as [pb|]; [|done].
    destruct (mount_prefix C) as [pc|]; [|done].
    destruct (path_has_prefix pb (Some pa)) eqn:E1; [|done].
    destruct (path_has_prefix pc (Some pb)) eqn:E2; [|done].
    by rewrite (has_prefix_compose pa pb pc).
Qed.

Lemma match_equal_and_trans_witness :
  g_mount_spec_match ftp_spec ftp_spec_shared = Some true.
Proof.
  by apply (match_equal_and_trans ftp_spec ftp_spec_shared ftp_spec).
Defined.

End HashAndMatch.


Section CanonicalPaths.

Lemma split_on_nonempty delim s : split_on delim s <> [].
Proof.
  destruct s as [|c s]; simpl; [done|].
  destruct (ascii_eqb c delim); [done|]. by destruct (split_on delim s).
Qed.

Lemma split_on_middle delim (s t : cstr) :
  split_on delim (s ++ delim :: t) = split_on delim s ++ split_on delim t.
Proof.
  induction s as [|c s IH]; simpl.
  - by rewrite ascii_eqb_refl.
  - destruct (ascii_eqb c delim); [by rewrite IH|]. rewrite IH.
    pose proof (split_on_nonempty delim s).
    by destruct (split_on delim s).
Qed.

Lemma keep_segments_app stack segs1 segs2 :
  keep_segments stack (segs1 ++ segs2)
  = keep_segments (keep_segments stack segs1) segs2.
Proof.
  revert stack. induction segs1 as [|s segs1 IH]; intros stack; [done|].
  cbn [app keep_segments].
  destruct (is_dot s); [done|]. destruct (is_dotdot s); [done|].
  by destruct (is_empty s).
Qed.

Lemma behind_length stack :
  length (behind stack) = S (with_separators stack).
Proof. done. Qed.

Lemma with_separators_app segs1 segs2 :
  with_separators (segs1 ++ segs2)
  = (with_separators segs1 + with_separators segs2)%nat.
Proof.
  unfold with_separators. by rewrite fmap_app, concat_app, length_app.
Qed.

Lemma with_separators_pop stack :
  (with_separators (pop stack) <= with_separators stack)%nat.
Proof.
  unfold pop. destruct stack as [|s stack _] using rev_ind; [done|].
  rewrite last_snoc. destruct s; [done|].
  rewrite removelast_last, with_separators_app. lia.
Qed.

Lemma with_separators_keep stack segs :
  (with_separators (keep_segments stack segs)
   <= with_separators stack + with_separators segs)%nat.
Proof.
  revert stack. induction segs as [|s segs IH]; intros stack.
  - cbn [keep_segments]. lia.
  - change (s :: segs) with ([s] ++ segs) at 2.
    rewrite with_separators_app. cbn [keep_segments].
    destruct (is_dot s); [specialize (IH stack); lia|].
    destruct (is_dotdot s).
    { specialize (IH (pop stack)).
      pose proof (with_separators_pop stack). lia. }
    destruct (is_empty s); [specialize (IH stack); lia|].
    specialize (IH (stack ++ [s])).
    rewrite with_separators_app in IH. lia.
Qed.

Lemma with_separators_split s :
  with_separators (split_on "/" s) = S (length s).
Proof.
  induction s as [|c s IH]; [done|]. cbn [split_on].
  destruct (ascii_eqb c "/").
  - change ([] :: split_on "/" s) with ([[]] ++ split_on "/" s).
    rewrite with_separators_app, IH. done.
  - pose proof (split_on_nonempty "/" s).
    destruct (split_on "/" s) as [|tok toks]; [done|].
    change (tok :: toks) with ([tok] ++ toks) in IH.
    change ((c :: tok) :: toks) with ([c :: tok] ++ toks).
    rewrite with_separators_app in *.
    unfold with_separators in *. simpl in *. lia.
Qed.

Lemma absolute_length stack :
  stack <> [] -> length (absolute stack) = with_separators stack.
Proof.
  destruct stack as [|s stack _] using rev_ind; [done|]. intros _.
  rewrite absolute_snoc, with_separators_app, length_app, behind_length.
  assert (with_separators [s] = S (length s)) as ->; [|lia].
  unfold with_separators. simpl. rewrite app_nil_r, length_app. simpl. lia.
Qed.

Lemma absolute_keep_length stack rest :
  (length (absolute (keep_segments stack (split_on "/" rest)))
   <= S (with_separators stack + length rest))%nat.
Proof.
  pose proof (with_separators_keep stack (split_on "/" rest)) as H.
  rewrite with_separators_split in H.
  destruct (keep_segments stack (split_on "/" rest)) as [|s st] eqn:E.
  - simpl. lia.
  - rewrite absolute_length by done. lia.
Qed.

(** X10. The shape of a canonical path: the canonicalizer returns, for
    every path, an initial slash followed by segments joined by single
    slashes, none of which has a slash in it or is "." or "..", and none
    of which but the first is empty; and the result is no longer than the
    path, or than the path and the slash put before a relative one. *)
Theorem canonicalize_path_shape path :
  exists stack,
    g_mount_spec_canonicalize_path path = Some (absolute stack) /\
    stack_ok stack /\
    (length (absolute stack)
     <= if char_is path 0 "/" then length path else S (length path))%nat.
Proof.
  destruct (canonical_form_ok path) as (stack & Hok & Hform).
  exists stack. rewrite canonicalize_path_canonical_form, Hform.
  split; [done|]. split; [done|]. rewrite <- Hform. clear.
  unfold canonical_form, char_is, char_at.
  destruct path as [|c path]; [simpl; lia|]. cbn [lookup list_lookup].
  destruct (ascii_eqb c "/") eqn:E.
  - destruct path as [|d rest]; [simpl; lia|].
    destruct (ascii_eqb d "/").
    + pose proof (absolute_keep_length [[]] rest) as H.
      change (with_separators [[]]) with 1%nat in H.
      change (length (c :: d :: rest)) with (S (S (length rest))). lia.
    + pose proof (absolute_keep_length [] (d :: rest)) as H.
      change (with_separators []) with 0%nat in H.
      change (length (c :: d :: rest)) with (S (length (d :: rest))). lia.
  - rewrite E.
    pose proof (absolute_keep_length [] (c :: path)) as H.
    change (with_separators []) with 0%nat in H. lia.
Qed.

Lemma canonical_form_suffix path t :
  (forall stack, keep_segments stack (split_on "/" t) = stack) ->
  char_is t 0 "/" = false ->
  canonical_form (path ++ "/"%char :: t) = canonical_form path.
Proof.
  intros Ht Hrel. unfold canonical_form.
  assert (forall stack s,
            keep_segments stack (split_on "/" (s ++ "/"%char :: t))
            = keep_segments stack (split_on "/" s)) as Hkeep.
  { intros stack s. by rewrite split_on_middle, keep_segments_app, Ht. }
  destruct path as [|c path].
  - cbn [app]. rewrite ascii_eqb_refl. destruct t as [|d t]; [done|].
    unfold char_is, char_at in Hrel. cbn [lookup list_lookup] in Hrel.
    by rewrite Hrel, Ht.
  - cbn [app]. destruct (ascii_eqb c "/") eqn:E.
    + destruct path as [|d path].
      * cbn [app]. rewrite ascii_eqb_refl. by rewrite Ht.
      * cbn [app]. destruct (ascii_eqb d "/"); [by rewrite Hkeep|].
        change (d :: path ++ "/"%char :: t)
          with ((d :: path) ++ "/"%char :: t).
        by rewrite Hkeep.
    + rewrite E.
      change (c :: path ++ "/"%char :: t)
        with ((c :: path) ++ "/"%char :: t).
      by rewrite Hkeep.
Qed.

(** X11. A relative path is canonicalized as the path with a slash before
    it, and a slash or a "." segment at the end of a path makes no
    difference. *)
Theorem canonicalize_path_same path :
  (char_is path 0 "/" = false ->
   g_mount_spec_canonicalize_path path
   = g_mount_spec_canonicalize_path ("/"%char :: path)) /\
  g_mount_spec_canonicalize_path (path ++ lit "/")
  = g_mount_spec_canonicalize_path path /\
  g_mount_spec_canonicalize_path (path ++ lit "/.")
  = g_mount_spec_canonicalize_path path.
Proof.
  rewrite !canonicalize_path_canonical_form. split.
  - intros Hrel. f_equal. rewrite canonical_form_slash.
    unfold canonical_form. destruct path as [|c path]; [done|].
    unfold char_is, char_at in Hrel. cbn [lookup list_lookup] in Hrel.
    rewrite Hrel. cbn iota. by rewrite Hrel.
  - split; f_equal.
    + by apply (canonical_form_suffix path []).
    + by apply (canonical_form_suffix path (lit ".")).
Qed.

Lemma canonicalize_path_same_witness :
  g_mount_spec_canonicalize_path (lit "pub/./a/")
  = g_mount_spec_canonicalize_path (lit "/pub/./a/").
Proof.
  by apply (canonicalize_path_same (lit "pub/./a/")).
Defined.

End CanonicalPaths.


Section References.

Lemma remove_subset h table obj e :
  e ∈ g_hash_table_remove h table obj -> e ∈ table.
Proof.
  induction table as [|e' table IH]; simpl; [done|].
  destruct (key_matches h obj e').
  - intros Hin. by right.
  - intros [->|Hin]%elem_of_cons; [by left | right; by apply IH].
Qed.

Lemma remove_NoDup h table obj :
  NoDup table -> NoDup (g_hash_table_remove h table obj).
Proof.
  induction 1 as [|e table Hnotin Hnd IH]; simpl; [constructor|].
  destruct (key_matches h obj e); [done|].
  constructor; [|done]. intros Hin. by apply remove_subset in Hin.
Qed.

Lemma remove_other h table obj e :
  e ∈ table -> key_matches h obj e = false ->
  e ∈ g_hash_table_remove h table obj.
Proof.
  intros Hin Hm. induction table as [|e' table IH]; simpl; [done|].
  apply elem_of_cons in Hin as [->|Hin].
  - rewrite Hm. by left.
  - destruct (key_matches h obj e'); [done|]. right. by apply IH.
Qed.

Lemma remove_gone h table obj e :
  NoDup table -> key_matches h obj e = true ->
  (forall e', e' ∈ table -> key_matches h obj e' = true -> e' = e) ->
  e ∉ g_hash_table_remove h table obj.
Proof.
  intros Hnd Hm Hone. induction Hnd as [|e' table Hnotin Hnd IH]; simpl.
  - apply not_elem_of_nil.
  - destruct (key_matches h obj e') eqn:E.
    + rewrite <- (Hone e'); [done | by left | done].
    + intros [->|Hin]%elem_of_cons; [congruence|].
      revert Hin. apply IH. intros e'' Hin. apply Hone. by right.
Qed.

Lemma key_matches_self (h : gmap ptr GMountSpec) p obj :
  h !! p = Some obj -> key_matches h obj (p, p) = true.
Proof.
  intros Hobj. unfold key_matches. simpl.
  by rewrite Hobj, Z.eqb_refl, g_mount_spec_equal_refl.
Qed.

Lemma key_matches_equal (h : gmap ptr GMountSpec) obj k v :
  key_matches h obj (k, v) = true ->
  exists A, h !! k = Some A /\ g_mount_spec_equal A obj = true.
Proof.
  unfold key_matches. simpl. destruct (h !! k) as [A|]; [|done].
  intros [_ Heq]%andb_true_iff. by exists A.
Qed.

Lemma unref_table st p obj st' :
  heap st !! p = Some obj ->
  (g_atomic_int_dec_and_test (ref_count obj)).2 = true ->
  g_mount_spec_unref st p = Some st' ->
  heap st' = delete p (heap st) /\
  table_of st'
  = if is_unique obj then g_hash_table_remove (heap st) (table_of st) obj
    else table_of st.
Proof.
  intros Hobj Hlast. unfold g_mount_spec_unref. rewrite Hobj.
  destruct (g_atomic_int_dec_and_test (ref_count obj)) as [count is_zero].
  simpl in Hlast. rewrite Hlast. intros [= <-]. split; [done|]. unfold table_of. simpl.
  destruct (unique_hash st); by destruct (is_unique obj).
Qed.

Lemma unref_registry_ok st p st' :
  registry_ok st -> NoDup (table_of st) ->
  g_mount_spec_unref st p = Some st' ->
  registry_ok st' /\ NoDup (table_of st').
Proof.
  intros (H1 & H2 & H3) Hnd Hcall.
  destruct (heap st !! p) as [obj|] eqn:Hobj;
    [|unfold g_mount_spec_unref in Hcall; by rewrite Hobj in Hcall].
  destruct ((g_atomic_int_dec_and_test (ref_count obj)).2)
    eqn:Hlast; [|rename Hlast into Hmore].
  - destruct (unref_table _ _ _ _ Hobj Hlast Hcall) as [Hheap Htable].
    assert (forall q B, heap st' !! q = Some B ->
                        q <> p /\ heap st !! q = Some B) as Hback.
    { intros q B. rewrite Hheap. intros [? ?]%lookup_delete_Some.
      split; [congruence | done]. }
    assert (one_unique_per_class st') as H3'.
    { intros q1 q2 B1 B2 [_ HB1]%Hback [_ HB2]%Hback. by apply H3. }
    destruct (is_unique obj) eqn:Hu.
    + assert ((p, p) ∉ table_of st') as Hgone.
      { rewrite Htable. apply remove_gone; [done | by apply key_matches_self|].
        intros [k v] Hin Hm. destruct (H1 k v Hin) as (-> & A & HA & HuA).
        destruct (key_matches_equal _ _ _ _ Hm) as (A' & HA' & Heq).
        assert (A' = A) as -> by congruence.
        by rewrite (H3 v p A obj HA Hobj HuA Hu Heq). }
      split; [split; [|split; [|done]]|].
      * intros k v Hin. pose proof Hin as Hin'.
        rewrite Htable in Hin'. apply remove_subset in Hin'.
        destruct (H1 k v Hin') as (-> & A & HA & HuA). split; [done|].
        exists A. split; [|done]. rewrite Hheap.
        apply lookup_delete_Some. split; [|done]. by intros <-.
      * intros q B [Hne HB]%Hback HuB. rewrite Htable.
        apply remove_other; [by eapply H2|].
        destruct (key_matches (heap st) obj (q, q)) eqn:Hm; [|done].
        destruct (key_matches_equal _ _ _ _ Hm) as (B' & HB' & Heq).
        assert (B' = B) as -> by congruence.
        by destruct (Hne (H3 q p B obj HB Hobj HuB Hu Heq)).
      * rewrite Htable. by apply remove_NoDup.
    + rewrite Htable. split; [split; [|split; [|done]]|done].
      * intros k v Hin. rewrite Htable in Hin.
        destruct (H1 k v Hin) as (-> & A & HA & HuA). split; [done|].
        exists A. split; [|done]. rewrite Hheap.
        apply lookup_delete_Some. split; [|done]. intros <-. congruence.
      * intros q B [Hne HB]%Hback HuB. rewrite Htable. by eapply H2.
  - unfold g_mount_spec_unref in Hcall. rewrite Hobj in Hcall.
    destruct (g_atomic_int_dec_and_test (ref_count obj))
      as [count is_zero].
    simpl in Hmore. rewrite Hmore in Hcall. injection Hcall as <-.
    match goal with |- registry_ok ?s /\ _ =>
      assert (table_of s = table_of st) as Htable by done end.
    rewrite Htable. split; [|done]. unfold registry_ok. rewrite Htable.
    cbn [heap].
    assert (forall q B,
              <[p:=set_ref_count obj count]> (heap st) !! q = Some B ->
              exists A, heap st !! q = Some A /\ items B = items A /\
                        mount_prefix B = mount_prefix A /\
                        is_unique B = is_unique A) as Hback.
    { intros q B. destruct (decide (p = q)) as [<-|Hne].
      - rewrite lookup_insert_eq. intros [= <-]. by exists obj.
      - rewrite lookup_insert_ne by done. intros HB. by exists B. }
    split; [|split].
    + intros k v Hin. destruct (H1 k v Hin) as (-> & A & HA & HuA).
      split; [done|]. simpl. destruct (decide (p = v)) as [<-|Hne].
      * rewrite lookup_insert_eq. eexists. split; [done|]. simpl.
        congruence.
      * rewrite lookup_insert_ne by done. by exists A.
    + intros q B HB HuB. destruct (Hback q B HB) as (A & HA & _ & _ & HuA).
      apply (H2 q A HA). congruence.
    + intros q1 q2 B1 B2 HB1 HB2 Hu1 Hu2 Heq.
      destruct (Hback q1 B1 HB1) as (A1 & HA1 & Hi1 & Hp1 & Hu1').
      destruct (Hback q2 B2 HB2) as (A2 & HA2 & Hi2 & Hp2 & Hu2').
      apply (H3 q1 q2 A1 A2 HA1 HA2); [congruence | congruence |].
      by rewrite <- (g_mount_spec_equal_content A1 B1 A2 B2).
Qed.

Lemma get_unique_for_NoDup st p r st' :
  registry_ok st -> NoDup (table_of st) ->
  g_mount_spec_get_unique_for st p = Some (r, st') ->
  NoDup (table_of st').
Proof.
  intros Hok Hnd. unfold g_mount_spec_get_unique_for.
  destruct (heap st !! p) as [obj|] eqn:Hobj; [|done].
  destruct (is_unique obj) eqn:Hu; [by intros [= <- <-]|].
  destruct (g_hash_table_lookup _ _ obj) as [q|] eqn:Hlookup.
  - by intros [= <- <-].
  - intros [= <- <-].
    destruct (miss_registry_ok st p obj Hok Hobj Hu Hlookup)
      as (Htable & _ & _).
    change (NoDup (table_of st ++ [(p, p)])) in Htable || idtac.
    unfold table_of at 1. simpl. unfold table_of at 1 in Htable.
    simpl in Htable. rewrite Htable. apply NoDup_app.
    split; [done|]. split; [|apply NoDup_singleton].
    intros e Hin ->%list_elem_of_singleton.
    destruct Hok as (H1 & _ & _).
    destruct (H1 p p Hin) as (_ & A & HA & HuA). congruence.
Qed.

(** X12. From the state of a process that made no call yet, after any
    sequence of calls of [g_mount_spec_ref], [g_mount_spec_unref] and
    [g_mount_spec_get_unique_for] on specs that exist, the table is in
    order: every entry holds a spec that is not freed, marked unique, under
    itself; every spec marked unique is in the table, once; and no two
    specs marked unique are equal. *)
Theorem registry_invariant st0 calls st :
  fresh st0 -> run_calls st0 calls = Some st ->
  registry_ok st /\ NoDup (table_of st).
Proof.
  intros Hfresh.
  assert (registry_ok st0 /\ NoDup (table_of st0)) as Hinv.
  { split; [by apply fresh_registry_ok|].
    destruct Hfresh as [Hnone _]. unfold table_of. rewrite Hnone.
    constructor. }
  clear Hfresh. revert st0 Hinv.
  induction calls as [|call calls IH]; intros st0 [Hok Hnd]; simpl.
  { by intros [= <-]. }
  destruct (run_call st0 call) as [st1|] eqn:Hcall; [|done].
  apply IH. destruct call as [p|p|p]; simpl in Hcall.
  - destruct (heap st0 !! p); [|done]. injection Hcall as <-.
    split; [by apply ref_registry_ok | done].
  - by eapply unref_registry_ok.
  - destruct (g_mount_spec_get_unique_for st0 p) as [[r st']|] eqn:E;
      [|done].
    injection Hcall as <-.
    split; [by eapply get_unique_for_ok | by eapply get_unique_for_NoDup].
Qed.

Lemma registry_invariant_witness :
  fresh three_specs /\
  exists st,
    run_calls three_specs
      [CallGetUniqueFor 1; CallGetUniqueFor 2; CallUnref 1; CallUnref 1;
       CallUnref 1; CallGetUniqueFor 2]%nat = Some st /\
    heap st !! 1%nat = None /\
    registry_ok st /\ NoDup (table_of st).
Proof.
  assert (fresh three_specs) as Hfresh.
  { split; [done|]. apply (bool_decide_unpack _). by vm_compute. }
  split; [done|].
  destruct (run_calls three_specs
              [CallGetUniqueFor 1; CallGetUniqueFor 2; CallUnref 1;
               CallUnref 1; CallUnref 1; CallGetUniqueFor 2]%nat)
    as [st|] eqn:Hrun; [|by vm_compute in Hrun].
  exists st. split; [done|]. split.
  - vm_compute in Hrun. by injection Hrun as <-.
  - exact (registry_invariant three_specs _ st Hfresh Hrun).
Defined.

Lemma wrap_int_inc_dec n :
  - 2 ^ 31 <= n < 2 ^ 31 ->
  (g_atomic_int_dec_and_test (g_atomic_int_inc n)).1 = n.
Proof.
  intros Hn. unfold g_atomic_int_dec_and_test, g_atomic_int_inc. cbn [fst].
  destruct (decide (n = 2 ^ 31 - 1)) as [->|Hmax]; [done|].
  unfold wrap_int. rewrite (Z.mod_small (n + 1 + 2 ^ 31)) by lia.
  replace (n + 1 + 2 ^ 31 - 2 ^ 31 - 1 + 2 ^ 31) with (n + 2 ^ 31) by lia.
  rewrite Z.mod_small by lia. lia.
Qed.

(** X13. Counting a reference and dropping it again leaves the state as
    it was, for a spec that exists and is referenced, whose count is an
    int of 32 bits: also at the largest count, from which
    [g_atomic_int_inc] goes to the smallest and
    [g_atomic_int_dec_and_test] back. *)
Theorem ref_unref st p obj :
  heap st !! p = Some obj ->
  - 2 ^ 31 <= ref_count obj < 2 ^ 31 -> ref_count obj <> 0 ->
  g_mount_spec_unref (g_mount_spec_ref st p) p = Some st /\
  (ref_count obj = 2 ^ 31 - 1 ->
   ref_count <$> heap (g_mount_spec_ref st p) !! p = Some (- 2 ^ 31)).
Proof.
  intros Hobj Hint Hrc. split.
  - unfold g_mount_spec_unref.
    rewrite ref_lookup, Hobj. simpl. rewrite decide_True by done.
    pose proof (wrap_int_inc_dec (ref_count obj) Hint) as Hback.
    unfold g_atomic_int_dec_and_test in *. cbn [fst] in Hback.
    cbn [ref_count set_ref_count]. cbn zeta. rewrite !Hback.
    rewrite (proj2 (Z.eqb_neq _ _) Hrc). f_equal.
    destruct st as [h table]. simpl in *. f_equal.
    apply map_eq. intros q. destruct (decide (p = q)) as [<-|Hne].
    + rewrite lookup_insert_eq, Hobj. by destruct obj.
    + rewrite lookup_insert_ne, lookup_alter_ne by done. done.
  - intros Hmax. rewrite ref_lookup, Hobj. simpl.
    rewrite decide_True by done. simpl. by rewrite Hmax.
Qed.

Lemma ref_unref_witness :
  g_mount_spec_unref
    (g_mount_spec_ref
       {| heap := {[ 1%nat := set_ref_count ftp_spec (2 ^ 31 - 1) ]};
          unique_hash := None |} 1%nat) 1%nat
  = Some {| heap := {[ 1%nat := set_ref_count ftp_spec (2 ^ 31 - 1) ]};
            unique_hash := None |} /\
  ref_count
    <$> heap (g_mount_spec_ref
                {| heap := {[ 1%nat := set_ref_count ftp_spec (2 ^ 31 - 1) ]};
                   unique_hash := None |} 1%nat) !! 1%nat
  = Some (- 2 ^ 31).
Proof.
  destruct (ref_unref
              {| heap := {[ 1%nat := set_ref_count ftp_spec (2 ^ 31 - 1) ]};
                 unique_hash := None |} 1%nat
              (set_ref_count ftp_spec (2 ^ 31 - 1)))
    as [Hback Hmax]; [apply lookup_singleton_eq | done | done |].
  split; [exact Hback | by apply Hmax].
Defined.

End References.


Section DaemonArguments.

Lemma strchr_app (k v : cstr) c :
  c ∉ k -> strchr (k ++ c :: v) c = Some (length k).
Proof.
  induction k as [|d k IH]; simpl.
  - intros _. by rewrite ascii_eqb_refl.
  - intros [Hd Hk]%not_elem_of_cons.
    assert (ascii_eqb d c = false) as -> by (apply ascii_eqb_false; congruence).
    by rewrite IH.
Qed.

Lemma strchr_None (s : cstr) c : c ∉ s -> strchr s c = None.
Proof.
  induction s as [|d s IH]; simpl; [done|].
  intros [Hd Hs]%not_elem_of_cons.
  assert (ascii_eqb d c = false) as -> by (apply ascii_eqb_false; congruence).
  by rewrite IH.
Qed.

Lemma new_type_items (type : option cstr) :
  StronglySorted key_lt (items (g_mount_spec_new type)) /\
  (is_Some type -> is_Some (g_mount_spec_get_type (g_mount_spec_new type))) /\
  ref_count (g_mount_spec_new type) = 1 /\
  mount_prefix (g_mount_spec_new type) = Some (lit "/") /\
  is_unique (g_mount_spec_new type) = false.
Proof.
  unfold g_mount_spec_new. destruct type as [t|].
  - rewrite set_eq. cbn [items with_items ref_count mount_prefix is_unique].
    split; [apply stored_increasing; constructor|].
    split; [|done]. intros _. unfold g_mount_spec_get_type, g_mount_spec_get.
    cbn [items with_items]. by rewrite get_stored_same.
  - split; [constructor|]. split; [by intros [? ?]|done].
Qed.

(** The loop keeps the keys increasing, and [found_type] tells that the
    spec has a type. *)
Lemma parse_key_values_inv args spec found spec' found' :
  parse_key_values args spec found = Some (spec', found') ->
  StronglySorted key_lt (items spec) ->
  (found = true -> is_Some (g_mount_spec_get_type spec)) ->
  StronglySorted key_lt (items spec') /\
  (found' = true -> is_Some (g_mount_spec_get_type spec')) /\
  ref_count spec' = ref_count spec /\
  mount_prefix spec' = mount_prefix spec /\
  is_unique spec' = is_unique spec.
Proof.
  revert spec found. induction args as [|arg args IH]; intros spec found.
  { intros [= <- <-]. by repeat split. }
  cbn [parse_key_values]. destruct (strchr arg "=") as [p|]; [|done].
  destruct (char_nul arg (p + 1) || (p =? 0)%nat); [done|].
  intros Hloop Hsorted Htype. apply IH in Hloop.
  - by rewrite set_eq in Hloop.
  - rewrite set_eq. cbn [items with_items]. by apply stored_increasing.
  - rewrite set_eq. unfold g_mount_spec_get_type, g_mount_spec_get.
    cbn [items with_items].
    destruct (strcmp (g_strndup arg p) (lit "type") =? 0) eqn:E.
    + apply Z.eqb_eq, strcmp_zero in E. rewrite E.
      by rewrite get_stored_same.
    + intros Hfound. rewrite get_stored_other; [by apply Htype|].
      intros Heq. apply Z.eqb_neq in E. apply E, strcmp_zero. by rewrite Heq.
Qed.

(** X14. Every spec that [daemon_parse_args] returns has a type, its keys
    strictly increasing, the prefix "/", one reference and no mark; and
    the call that returns it leaves the spawner names alone and does not
    turn the debug output off. *)
Theorem parse_args_has_type globals gvfs_debug argv default_type
    spec globals' :
  daemon_parse_args globals gvfs_debug argv default_type
  = Returns (Some spec) globals' ->
  is_Some (g_mount_spec_get_type spec) /\
  StronglySorted key_lt (items spec) /\
  mount_prefix spec = Some (lit "/") /\
  ref_count spec = 1 /\ is_unique spec = false /\
  spawner_id globals' = spawner_id globals /\
  spawner_path globals' = spawner_path globals /\
  (print_debug globals = true -> print_debug globals' = true).
Proof.
  unfold daemon_parse_args.
  match goal with |- context [let '(_, _) := ?shift in _] =>
    destruct shift as [debug argv'] eqn:Eshift end.
  assert (print_debug globals = true -> debug = true) as Hdebug.
  { revert Eshift.
    match goal with |- context [if ?c then (true, tail argv) else _] =>
      destruct c end; [by intros [= <- _]|].
    destruct gvfs_debug; by intros [= <- _]. }
  clear Eshift.
  destruct ((1 <? length argv')%nat && _).
  { by destruct (length argv' <? 4)%nat. }
  destruct ((1 <? length argv')%nat || _); [|done].
  destruct (parse_key_values _ _ _) as [[mount_spec found_type]|] eqn:Eloop;
    [|done].
  destruct found_type; [|done]. cbn [negb]. intros [= <- <-].
  destruct (new_type_items default_type) as (Hs & Ht & Hr & Hp & Hu).
  apply parse_key_values_inv in Eloop
    as (Hs' & Ht' & Hr' & Hp' & Hu'); [|done|].
  - split; [by apply Ht'|]. split; [done|].
    repeat split; [congruence | congruence | congruence | done].
  - intros Hfound. apply Ht. by apply bool_decide_eq_true in Hfound.
Qed.

Lemma parse_args_has_type_witness :
  exists spec globals',
    daemon_parse_args
      {| spawner_id := None; spawner_path := None; print_debug := false |}
      false
      [lit "gvfsd-ftp"; lit "--debug"; lit "host=example.com";
       lit "user=a=b"] (Some (lit "ftp"))
    = Returns (Some spec) globals' /\
    g_mount_spec_get spec (lit "user") = Some (lit "a=b") /\
    is_Some (g_mount_spec_get_type spec) /\
    StronglySorted key_lt (items spec).
Proof.
  eexists _, _. split; [by vm_compute|]. split; [by vm_compute|].
  match goal with |- is_Some (g_mount_spec_get_type ?s) /\ _ =>
    destruct (parse_args_has_type
                {| spawner_id := None; spawner_path := None;
                   print_debug := false |}
                false
                [lit "gvfsd-ftp"; lit "--debug"; lit "host=example.com";
                 lit "user=a=b"] (Some (lit "ftp")) s
                {| spawner_id := None; spawner_path := None;
                   print_debug := true |})
      as (Ht & Hs & _) end; [by vm_compute|].
  by split.
Defined.

Lemma key_value_arg_strchr kv :
  arg_pair kv ->
  strchr (key_value_arg kv) "=" = Some (length kv.1) /\
  char_nul (key_value_arg kv) (length kv.1 + 1) = false /\
  (length kv.1 =? 0)%nat = false /\
  g_strndup (key_value_arg kv) (length kv.1) = kv.1 /\
  drop (length kv.1 + 1) (key_value_arg kv) = kv.2.
Proof.
  destruct kv as [k v]. unfold arg_pair, key_value_arg. simpl.
  intros (Hk & Heq & Hv). split; [by apply strchr_app|].
  split.
  { unfold char_nul, char_at. rewrite lookup_app_r by lia.
    replace (length k + 1 - length k)%nat with 1%nat by lia.
    by destruct v. }
  split; [by destruct k|]. unfold g_strndup.
  split; [by rewrite take_app_length|].
  rewrite drop_app_ge by lia.
  replace (length k + 1 - length k)%nat with 1%nat by lia. done.
Qed.

Lemma parse_key_values_pairs kvs spec found :
  Forall arg_pair kvs ->
  exists found',
    parse_key_values (key_value_arg <$> kvs) spec found
    = Some (fold_left
              (fun spec kv => g_mount_spec_set spec (Some kv.1) (Some kv.2))
              kvs spec, found') /\
    (found = true \/ lit "type" ∈ kvs.*1 -> found' = true).
Proof.
  intros Hkvs. revert spec found.
  induction Hkvs as [|kv kvs Hkv Hkvs IH]; intros spec found.
  { exists found. split; [done|]. intros [?|[]%elem_of_nil]. done. }
  destruct (key_value_arg_strchr kv Hkv) as (Hchr & Hnul & Hzero & Hk & Hv).
  cbn [fmap list_fmap parse_key_values fold_left].
  change (list_fmap _ _ key_value_arg kvs) with (key_value_arg <$> kvs).
  rewrite Hchr, Hnul, Hzero, Hk, Hv. cbn [orb].
  destruct (IH (g_mount_spec_set spec (Some kv.1) (Some kv.2))
              (if strcmp kv.1 (lit "type") =? 0 then true else found))
    as (found' & Hloop & Hfound).
  exists found'. split; [done|]. intros Hor. apply Hfound.
  destruct (strcmp kv.1 (lit "type") =? 0) eqn:E; [by left|].
  destruct Hor as [?|Hin]; [by left|]. right.
  change ((kv :: kvs).*1) with (kv.1 :: kvs.*1) in Hin.
  apply elem_of_cons in Hin as [Heq|?]; [|done].
  apply Z.eqb_neq in E. destruct E. apply strcmp_zero. by rewrite Heq.
Qed.

Lemma not_option_arg (arg option_name : cstr) :
  "="%char ∈ arg -> "="%char ∉ option_name ->
  (strcmp arg option_name =? 0) = false.
Proof.
  intros Hin Hnotin. apply Z.eqb_neq. intros Heq%strcmp_zero. congruence.
Qed.

(** The first tests of [daemon_parse_args], on arguments none of which
    is an option. *)
Lemma parse_args_no_option globals gvfs_debug prog args default_type :
  head args <> Some (lit "--debug") ->
  head args <> Some (lit "--spawner") ->
  daemon_parse_args globals gvfs_debug (prog :: args) default_type
  = let globals :=
      {| spawner_id := spawner_id globals;
         spawner_path := spawner_path globals;
         print_debug := gvfs_debug || print_debug globals |} in
    if (1 <? length (prog :: args))%nat
       || bool_decide (is_Some default_type)
    then
      match parse_key_values args (g_mount_spec_new default_type)
              (bool_decide (is_Some default_type)) with
      | None => Exits 1 (UsageKeyValue (Some prog))
      | Some (mount_spec, found_type) =>
          if negb found_type then Exits 1 (NoMountType (Some prog))
          else Returns (Some mount_spec) globals
      end
    else Returns None globals.
Proof.
  intros Hdebug Hspawner. unfold daemon_parse_args.
  assert (forall name,
            head args <> Some name ->
            (1 <? length (prog :: args))%nat
            && (strcmp (default [] ((prog :: args) !! 1%nat)) name =? 0)
            = false) as Hno.
  { intros name Hname. destruct args as [|arg args]; [done|]. simpl.
    apply Z.eqb_neq. intros Heq%strcmp_zero. simpl in Hname. congruence. }
  rewrite (Hno _ Hdebug).
  by destruct gvfs_debug; rewrite (Hno _ Hspawner).
Qed.

Lemma key_value_arg_head kvs (option_name : cstr) :
  Forall arg_pair kvs -> "="%char ∉ option_name ->
  head (key_value_arg <$> kvs) <> Some option_name.
Proof.
  intros Hkvs Hname. destruct Hkvs as [|[k v] kvs _ _]; [done|].
  simpl. intros [= <-]. apply Hname. unfold key_value_arg.
  apply elem_of_app. right. by left.
Qed.

Lemma no_equals_sign (s : string) :
  forallb (fun c => negb (ascii_eqb c "=")) (lit s) = true ->
  "="%char ∉ lit s.
Proof.
  intros Hall Hin. rewrite forallb_forall in Hall.
  apply list_elem_of_In, Hall in Hin. by rewrite ascii_eqb_refl in Hin.
Qed.

(** X15. Arguments that are each a key, an equals sign and a value, the
    key without an equals sign and neither one empty, are stored in
    order into the spec of the default type, which is returned, when
    there is a default type or one of the keys is "type"; the debug output
    is on when it was, or when the environment asks for it. *)
Theorem parse_args_key_values globals gvfs_debug prog kvs default_type :
  Forall arg_pair kvs ->
  is_Some default_type \/ lit "type" ∈ kvs.*1 ->
  daemon_parse_args globals gvfs_debug (prog :: (key_value_arg <$> kvs))
    default_type
  = Returns
      (Some (fold_left
               (fun spec kv => g_mount_spec_set spec (Some kv.1) (Some kv.2))
               kvs (g_mount_spec_new default_type)))
      {| spawner_id := spawner_id globals;
         spawner_path := spawner_path globals;
         print_debug := gvfs_debug || print_debug globals |}.
Proof.
  intros Hkvs Htype.
  rewrite parse_args_no_option
    by (apply key_value_arg_head; [done | by apply no_equals_sign]).
  cbn zeta.
  destruct (parse_key_values_pairs kvs (g_mount_spec_new default_type)
              (bool_decide (is_Some default_type)) Hkvs)
    as (found' & -> & Hfound).
  rewrite Hfound.
  - cbn [negb].
    destruct ((1 <? length (prog :: (key_value_arg <$> kvs)))%nat
              || bool_decide (is_Some default_type)) eqn:E; [done|].
    apply orb_false_iff in E as [Hlen Hdef].
    destruct Htype as [Hsome|Hin].
    + by rewrite bool_decide_eq_true_2 in Hdef.
    + destruct kvs; [by apply elem_of_nil in Hin | done].
  - destruct Htype as [?|?]; [left | by right].
    by apply bool_decide_eq_true_2.
Qed.

Lemma parse_args_key_values_witness :
  daemon_parse_args
    {| spawner_id := None; spawner_path := None; print_debug := false |}
    true [lit "gvfsd-ftp"; lit "type=sftp"; lit "host=example.com"] None
  = Returns
      (Some {| ref_count := 1;
               items := [{| key := lit "host"; value := lit "example.com" |};
                         {| key := lit "type"; value := lit "sftp" |}];
               mount_prefix := Some (lit "/"); is_unique := false |})
      {| spawner_id := None; spawner_path := None; print_debug := true |}.
Proof.
  apply (parse_args_key_values
           {| spawner_id := None; spawner_path := None;
              print_debug := false |}
           true (lit "gvfsd-ftp")
           [(lit "type", lit "sftp"); (lit "host", lit "example.com")] None).
  - repeat constructor; try done; by apply no_equals_sign.
  - right. by left.
Defined.

(** X16. An argument that is no option and has no equals sign, or starts
    with its first equals sign, or ends with it, ends the process with
    the usage message, whatever follows it, when the arguments before it
    are keys and values. *)
Theorem parse_args_malformed globals gvfs_debug prog kvs bad rest
    default_type :
  Forall arg_pair kvs ->
  ("="%char ∉ bad \/ head bad = Some "="%char \/
   exists k, bad = k ++ ["="%char] /\ "="%char ∉ k) ->
  head ((key_value_arg <$> kvs) ++ bad :: rest) <> Some (lit "--debug") ->
  head ((key_value_arg <$> kvs) ++ bad :: rest) <> Some (lit "--spawner") ->
  daemon_parse_args globals gvfs_debug
    (prog :: (key_value_arg <$> kvs) ++ bad :: rest) default_type
  = Exits 1 (UsageKeyValue (Some prog)).
Proof.
  intros Hkvs Hbad Hdebug Hspawner.
  rewrite parse_args_no_option by done. cbn zeta.
  assert (((1 <? length (prog :: (key_value_arg <$> kvs) ++ bad :: rest))%nat)
          = true) as ->.
  { apply Nat.ltb_lt. simpl. rewrite length_app. simpl. lia. }
  cbn [orb].
  assert (forall spec found,
            parse_key_values ((key_value_arg <$> kvs) ++ bad :: rest)
              spec found = None) as ->; [|done].
  clear Hdebug Hspawner.
  induction Hkvs as [|kv kvs Hkv Hkvs IH]; intros spec found.
  - cbn [fmap list_fmap app parse_key_values].
    destruct Hbad as [Hno|[Hfirst|(k & -> & Hk)]].
    + by rewrite strchr_None.
    + destruct bad as [|c bad]; [done|]. injection Hfirst as ->.
      simpl. by rewrite orb_true_r.
    + rewrite strchr_app by done. unfold char_nul, char_at.
      rewrite lookup_ge_None_2; [done|]. rewrite length_app. simpl. lia.
  - destruct (key_value_arg_strchr kv Hkv) as (Hchr & Hnul & Hzero & _).
    cbn [fmap list_fmap app parse_key_values].
    change (list_fmap _ _ key_value_arg kvs) with (key_value_arg <$> kvs).
    rewrite Hchr, Hnul, Hzero. cbn [orb]. apply IH.
Qed.

Lemma parse_args_malformed_witness :
  daemon_parse_args
    {| spawner_id := None; spawner_path := None; print_debug := false |}
    false [lit "gvfsd-ftp"; lit "host=example.com"; lit "user="; lit "x=y"]
    (Some (lit "ftp"))
  = Exits 1 (UsageKeyValue (Some (lit "gvfsd-ftp"))).
Proof.
  apply (parse_args_malformed
           {| spawner_id := None; spawner_path := None;
              print_debug := false |}
           false (lit "gvfsd-ftp") [(lit "host", lit "example.com")]
           (lit "user=") [lit "x=y"] (Some (lit "ftp"))).
  - repeat constructor; try done; by apply no_equals_sign.
  - right. right. exists (lit "user"). split; [done|].
    by apply no_equals_sign.
  - done.
  - done.
Defined.

End DaemonArguments.


Section UDisksConversion.

(** X17. The conversion of an error leaves an error of the domain of
    GIO, with the message stripped.  Its code is busy exactly for the
    device-busy error of udisks, failed-handled exactly for the
    dismissed-authorization error of udisks, and failed for every other
    error, of udisks or not.  A second conversion leaves the code failed:
    the conversion of a busy or dismissed error is not idempotent. *)
Theorem udisks_error_conversion (strip : cstr -> cstr)
    (error : domain_error) :
  let converted := gvfs_udisks2_utils_udisks_error_to_gio_error strip error in
  error_domain_of converted = G_IO_ERROR /\
  error_message converted = strip (error_message error) /\
  (error_code converted = gio_code G_IO_ERROR_BUSY <->
   error_domain_of error = UDISKS_ERROR /\
   error_code error = UDISKS_ERROR_DEVICE_BUSY) /\
  (error_code converted = gio_code G_IO_ERROR_FAILED_HANDLED <->
   error_domain_of error = UDISKS_ERROR /\
   error_code error = UDISKS_ERROR_NOT_AUTHORIZED_DISMISSED) /\
  (error_code converted = gio_code G_IO_ERROR_FAILED <->
   ~ (error_domain_of error = UDISKS_ERROR /\
      (error_code error = UDISKS_ERROR_DEVICE_BUSY \/
       error_code error = UDISKS_ERROR_NOT_AUTHORIZED_DISMISSED))) /\
  error_code
    (gvfs_udisks2_utils_udisks_error_to_gio_error strip converted)
  = gio_code G_IO_ERROR_FAILED /\
  (error_code converted <> gio_code G_IO_ERROR_FAILED ->
   gvfs_udisks2_utils_udisks_error_to_gio_error strip converted
   <> converted).
Proof.
  cbn zeta.
  assert (error_code
            (gvfs_udisks2_utils_udisks_error_to_gio_error strip
               (gvfs_udisks2_utils_udisks_error_to_gio_error strip error))
          = gio_code G_IO_ERROR_FAILED) as Hsecond by done.
  assert (error_code
            (gvfs_udisks2_utils_udisks_error_to_gio_error strip error)
          = match error_domain_of error with
            | UDISKS_ERROR =>
                if error_code error =? UDISKS_ERROR_DEVICE_BUSY
                then gio_code G_IO_ERROR_BUSY
                else if error_code error
                        =? UDISKS_ERROR_NOT_AUTHORIZED_DISMISSED
                then gio_code G_IO_ERROR_FAILED_HANDLED
                else gio_code G_IO_ERROR_FAILED
            | _ => gio_code G_IO_ERROR_FAILED
            end) as Hcode by done.
  split; [done|]. split; [done|].
  split; [|split; [|split; [|split; [exact Hsecond|]]]];
    [rewrite Hcode; clear Hcode Hsecond..|].
  - destruct (error_domain_of error);
      [|split; [done | by intros [? _]]..].
    destruct (error_code error =? UDISKS_ERROR_DEVICE_BUSY) eqn:E1.
    { apply Z.eqb_eq in E1. by split. }
    apply Z.eqb_neq in E1.
    destruct (error_code error =? UDISKS_ERROR_NOT_AUTHORIZED_DISMISSED);
      (split; [done | by intros [_ ?]]).
  - destruct (error_domain_of error);
      [|split; [done | by intros [? _]]..].
    destruct (error_code error =? UDISKS_ERROR_DEVICE_BUSY) eqn:E1.
    { apply Z.eqb_eq in E1. split; [done|]. intros [_ E2].
      rewrite E1 in E2. done. }
    destruct (error_code error =? UDISKS_ERROR_NOT_AUTHORIZED_DISMISSED)
      eqn:E2.
    { apply Z.eqb_eq in E2. by split. }
    apply Z.eqb_neq in E2. split; [done | by intros [_ ?]].
  - destruct (error_domain_of error);
      [|split; [by intros _ [? _] | done]..].
    destruct (error_code error =? UDISKS_ERROR_DEVICE_BUSY) eqn:E1.
    { apply Z.eqb_eq in E1. split; [done|]. intros H. destruct H. auto. }
    destruct (error_code error =? UDISKS_ERROR_NOT_AUTHORIZED_DISMISSED)
      eqn:E2.
    { apply Z.eqb_eq in E2. split; [done|]. intros H. destruct H. auto. }
    apply Z.eqb_neq in E1, E2. split; [|done].
    intros _ [_ [?|?]]; done.
  - intros Hne Heq. apply Hne. rewrite <- Heq. exact Hsecond.
Qed.

Lemma udisks_error_conversion_witness :
  error_code
    (gvfs_udisks2_utils_udisks_error_to_gio_error (fun message => message)
       {| error_domain_of := UDISKS_ERROR;
          error_code := UDISKS_ERROR_DEVICE_BUSY;
          error_message := lit "busy" |})
  = gio_code G_IO_ERROR_BUSY /\
  gvfs_udisks2_utils_udisks_error_to_gio_error (fun message => message)
    (gvfs_udisks2_utils_udisks_error_to_gio_error (fun message => message)
       {| error_domain_of := UDISKS_ERROR;
          error_code := UDISKS_ERROR_DEVICE_BUSY;
          error_message := lit "busy" |})
  <> gvfs_udisks2_utils_udisks_error_to_gio_error (fun message => message)
       {| error_domain_of := UDISKS_ERROR;
          error_code := UDISKS_ERROR_DEVICE_BUSY;
          error_message := lit "busy" |}.
Proof.
  destruct (udisks_error_conversion (fun message => message)
              {| error_domain_of := UDISKS_ERROR;
                 error_code := UDISKS_ERROR_DEVICE_BUSY;
                 error_message := lit "busy" |})
    as (_ & _ & Hbusy & _ & _ & _ & Hagain).
  assert (error_code
            (gvfs_udisks2_utils_udisks_error_to_gio_error
               (fun message => message)
               {| error_domain_of := UDISKS_ERROR;
                  error_code := UDISKS_ERROR_DEVICE_BUSY;
                  error_message := lit "busy" |})
          = gio_code G_IO_ERROR_BUSY) as Hcode by (by apply Hbusy).
  split; [exact Hcode|]. apply Hagain. by rewrite Hcode.
Defined.

End UDisksConversion.


Section Decoders.

(** X18. A canonical path is under the root: a mount with the prefix "/",
    as [g_mount_spec_new] leaves it, matches a spec with any canonical
    path exactly when their items are equal. *)
Theorem canonical_under_root mount spec path canon :
  mount_prefix mount = Some (lit "/") ->
  g_mount_spec_canonicalize_path path = Some canon ->
  g_mount_spec_match_with_path mount spec canon
  = items_equal (items mount) (items spec).
Proof.
  intros Hroot. rewrite canonicalize_path_canonical_form. intros [= <-].
  unfold g_mount_spec_match_with_path. rewrite Hroot.
  destruct (canonical_form_ok path) as (stack & _ & ->).
  assert (path_has_prefix (absolute stack) (Some (lit "/")) = true) as ->.
  { apply has_prefix_iff. exists (join_slash stack). split; [done|].
    right. by left. }
  by destruct (items_equal (items mount) (items spec)).
Qed.

Lemma canonical_under_root_witness :
  g_mount_spec_match_with_path (g_mount_spec_new (Some (lit "ftp")))
    (g_mount_spec_new (Some (lit "ftp"))) (lit "/pub/a")
  = true /\
  g_mount_spec_match_with_path (g_mount_spec_new (Some (lit "ftp")))
    (g_mount_spec_new (Some (lit "ftp"))) (lit "pub/../pub/a/")
  = false.
Proof.
  split; [|by vm_compute].
  by rewrite (canonical_under_root (g_mount_spec_new (Some (lit "ftp")))
                (g_mount_spec_new (Some (lit "ftp")))
                (lit "pub/../pub/a/") (lit "/pub/a")).
Defined.

(** X19. What [g_mount_spec_to_dbus_with_path] writes for any spec and
    any path, null or not, [g_mount_spec_from_dbus] reads back as a new
    spec, with one reference and no mark, of the items of the spec sorted
    by key, and of the path as its prefix, the empty string for the null
    path; the iterator is moved past the struct. *)
Theorem wire_with_path S path rest :
  exists S',
    g_mount_spec_from_dbus (g_mount_spec_to_dbus_with_path [] S path ++ rest)
    = Some (S', rest) /\
    items S' = g_array_sort item_compare (items S) /\
    mount_prefix S' = Some (default [] path) /\
    ref_count S' = 1 /\ is_unique S' = false.
Proof.
  rewrite to_dbus_with_path_eq. unfold g_mount_spec_from_dbus. simpl.
  rewrite from_dbus_items_structs. simpl. eexists. by split.
Qed.

(** X20. Every spec that [g_mount_spec_from_dbus] returns is new, with
    one reference and no mark, has its items sorted by key and a prefix
    that is not null, and at most as many items as the array has
    elements; the iterator is moved past one value. *)
Theorem from_dbus_result iter spec iter' :
  g_mount_spec_from_dbus iter = Some (spec, iter') ->
  Sorted key_le (items spec) /\
  ref_count spec = 1 /\ is_unique spec = false /\
  is_Some (mount_prefix spec) /\
  iter' = tail iter /\
  exists prefix elements more,
    head iter
    = Some (DStruct (DCString prefix :: DArray DBUS_TYPE_STRUCT elements
                       :: more)) /\
    mount_prefix spec = Some prefix /\
    (length (items spec) <= length elements)%nat.
Proof.
  intros Hdec. split; [by eapply from_dbus_sorted|]. revert Hdec.
  unfold g_mount_spec_from_dbus.
  destruct iter as [|[| | |fields|] iter]; try done. simpl.
  destruct fields as [|[|prefix| | |] fields]; try done. simpl.
  destruct fields as [|[| |t elements| |] more]; try done. simpl.
  destruct t; try done. simpl. intros [= <- <-]. simpl.
  split; [|split; [|split; [|split]]].
  - assert (forall elems sp, ref_count (from_dbus_items elems sp)
                             = ref_count sp) as ->; [|done].
    induction elems as [|[| | |fs|] elems IH]; intros sp; try done.
    simpl. rewrite IH. by destruct (get_args_string_cstring fs) as [[[? ?] ?]|].
  - assert (forall elems sp, is_unique (from_dbus_items elems sp)
                             = is_unique sp) as ->; [|done].
    induction elems as [|[| | |fs|] elems IH]; intros sp; try done.
    simpl. rewrite IH. by destruct (get_args_string_cstring fs) as [[[? ?] ?]|].
  - assert (forall elems sp, mount_prefix (from_dbus_items elems sp)
                             = mount_prefix sp) as ->; [|done].
    induction elems as [|[| | |fs|] elems IH]; intros sp; try done.
    simpl. rewrite IH. by destruct (get_args_string_cstring fs) as [[[? ?] ?]|].
  - done.
  - exists prefix, elements, more. split; [done|]. split.
    + assert (forall elems sp, mount_prefix (from_dbus_items elems sp)
                               = mount_prefix sp) as ->; [|done].
      induction elems as [|[| | |fs|] elems IH]; intros sp; try done.
      simpl. rewrite IH.
      by destruct (get_args_string_cstring fs) as [[[? ?] ?]|].
    + rewrite (Permutation_length (g_array_sort_perm _)).
      assert (forall elems sp,
                (length (items (from_dbus_items elems sp))
                 <= length (items sp) + length elems)%nat) as Hlen.
      { induction elems as [|[| | |fs|] elems IH]; intros sp; simpl;
          try lia.
        specialize (IH match get_args_string_cstring fs with
                       | Some (k, v, _) => add_item sp k v
                       | None => sp
                       end).
        destruct (get_args_string_cstring fs) as [[[k v] ?]|];
          [|lia].
        unfold add_item in IH at 2. simpl in IH.
        rewrite length_app in IH. simpl in IH. lia. }
      apply (Hlen elements
               (g_mount_spec_set_mount_prefix (g_mount_spec_new None)
                  (Some prefix))).
Qed.

Lemma from_dbus_result_witness :
  exists spec,
    g_mount_spec_from_dbus
      [DStruct [DCString (lit "/pub");
                DArray DBUS_TYPE_STRUCT
                  [DStruct [DString (lit "type"); DCString (lit "ftp")];
                   DStruct [DOther];
                   DStruct [DString (lit "host");
                            DCString (lit "example.com")]]];
       DOther]
    = Some (spec, [DOther]) /\
    items spec = ftp_items /\
    Sorted key_le (items spec).
Proof.
  eexists. split; [by vm_compute|]. split; [by vm_compute|].
  eapply (from_dbus_result
            [DStruct [DCString (lit "/pub");
                      DArray DBUS_TYPE_STRUCT
                        [DStruct [DString (lit "type"); DCString (lit "ftp")];
                         DStruct [DOther];
                         DStruct [DString (lit "host");
                                  DCString (lit "example.com")]]];
             DOther]).
  by vm_compute.
Defined.

Lemma checked_items_keys its l :
  checked_items its = Some l -> key <$> l = its.*1.
Proof.
  revert l. induction its as [|[k [v|]] its IH]; intros l; simpl;
    [by intros [= <-] | | done].
  destruct (checked_items its) as [l'|]; [|done]. simpl.
  intros [= <-]. cbn [fmap list_fmap]. f_equal. by apply IH.
Qed.

Lemma decode_pairs_outcome str kv_pairs (its : list raw_item) prefix :
  Forall (fun k => k <> lit "__mount_prefix") its.*1 ->
  match decode_pairs str kv_pairs its prefix with
  | Decoded spec =>
      Forall (fun k => k <> lit "__mount_prefix") (key <$> items spec) /\
      ref_count spec = 1 /\ is_unique spec = false /\
      is_Some (mount_prefix spec) /\
      (length its <= length (items spec) <= length its + length kv_pairs)%nat
  | NullValue its' _ =>
      Forall (fun k => k <> lit "__mount_prefix") its'.*1 /\
      (length its <= length its' <= length its + length kv_pairs)%nat
  | DecodeError error => code error = G_IO_ERROR_INVALID_ARGUMENT
  | NullKey => True
  end.
Proof.
  revert its prefix. induction kv_pairs as [|kv_pair kv_pairs IH];
    intros its prefix Hits.
  - cbn [decode_pairs]. unfold decode_finish.
    destruct prefix as [prefix|]; [|done].
    destruct (checked_items its) as [l|] eqn:Hl.
    + pose proof (checked_items_keys _ _ Hl) as Hkeys.
      unfold g_mount_spec_new_from_data. cbn [items ref_count is_unique
        mount_prefix].
      split; [|split; [done|split; [done|split; [done|]]]].
      * rewrite (g_array_sort_perm l). by rewrite Hkeys.
      * rewrite (Permutation_length (g_array_sort_perm l)).
        assert (length l = length its) as ->; [|simpl; lia].
        by rewrite <- (length_fmap key l), Hkeys, length_fmap.
    + split.
      * by rewrite (g_array_sort_perm_any raw_compare its).
      * rewrite (Permutation_length (g_array_sort_perm_any raw_compare its)).
        simpl. lia.
  - cbn [decode_pairs].
    destruct (g_strsplit kv_pair "=") as [|token0 [|token1 [|? ?]]];
      try done.
    destruct (g_uri_unescape_string token0) as [item_key|]; [|done].
    destruct (strcmp item_key (lit "__mount_prefix") =? 0) eqn:E.
    + specialize (IH its (g_uri_unescape_string token1) Hits).
      destruct (decode_pairs _ _ _ _); try done.
      * destruct IH as (? & ? & ? & ? & ?).
        repeat split; try done; cbn [length]; lia.
      * destruct IH as (? & ?). repeat split; try done; cbn [length]; lia.
    + assert (Forall (fun k => k <> lit "__mount_prefix")
                (its ++ [(item_key, g_uri_unescape_string token1)]).*1)
        as Hits'.
      { rewrite fmap_app. apply Forall_app. split; [done|].
        repeat constructor. simpl. intros ->.
        by rewrite strcmp_refl in E. }
      specialize (IH _ prefix Hits').
      destruct (decode_pairs _ _ _ _); try done.
      * destruct IH as (? & ? & ? & ? & Hlen).
        rewrite length_app in Hlen. cbn [length] in *.
        repeat split; try done; lia.
      * destruct IH as (? & Hlen).
        rewrite length_app in Hlen. cbn [length] in *.
        repeat split; try done; lia.
Qed.

(** X21. Every spec that [g_mount_spec_new_from_string] returns is new,
    with one reference and no mark, has its items sorted by key, none of
    them under the key "__mount_prefix", a prefix that is not null, and at
    most as many items as the string has pairs, which is not empty.  This
    holds, too, of the spec that it returns for a value that does not
    unescape: that spec has an item whose value is the null pointer, and
    no error is set.  Every error that it sets has the code of an invalid
    argument. *)
Theorem new_from_string_outcome str :
  match g_mount_spec_new_from_string str with
  | Decoded spec =>
      Sorted key_le (items spec) /\
      Forall (fun k => k <> lit "__mount_prefix") (key <$> items spec) /\
      ref_count spec = 1 /\ is_unique spec = false /\
      is_Some (mount_prefix spec) /\
      (length (items spec) <= length (g_strsplit str ","))%nat /\
      str <> []
  | NullValue its prefix =>
      Sorted key_le (raw_as_item <$> its) /\
      Forall (fun k => k <> lit "__mount_prefix") its.*1 /\
      (exists k, (k, None) ∈ its) /\
      (length its <= length (g_strsplit str ","))%nat /\
      str <> []
  | DecodeError error => code error = G_IO_ERROR_INVALID_ARGUMENT
  | NullKey => True
  end.
Proof.
  pose proof (new_from_string_sorted str) as Hsorted.
  pose proof (new_from_string_given str) as Hgiven.
  pose proof (decode_pairs_outcome str (g_strsplit str ",") [] None
                (Forall_nil_2 _)) as Hout.
  unfold g_mount_spec_new_from_string in *.
  destruct (decode_pairs _ _ _ _) as [spec| | |its prefix] eqn:E;
    try done.
  - destruct Hout as (? & ? & ? & ? & ?).
    split; [by apply Hsorted|]. repeat split; try done.
    + simpl in *. lia.
    + intros ->. by vm_compute in E.
  - destruct Hout as (? & ?). destruct Hgiven as (? & _ & _ & _ & ?).
    repeat split; try done.
    + simpl in *. lia.
    + intros ->. by vm_compute in E.
Qed.

Lemma new_from_string_outcome_witness :
  g_mount_spec_new_from_string (lit "a=%zz,__mount_prefix=/")
  = NullValue [(lit "a", None)] (lit "/") /\
  exists k, (k, None) ∈ [(lit "a", @None cstr)].
Proof.
  split; [by vm_compute|].
  pose proof (new_from_string_outcome (lit "a=%zz,__mount_prefix=/")) as H.
  destruct (g_mount_spec_new_from_string (lit "a=%zz,__mount_prefix=/"))
    as [spec| | |its prefix] eqn:E; try (by vm_compute in E).
  vm_compute in E. injection E as <- <-.
  by destruct H as (_ & _ & Hnull & _).
Defined.

End Decoders.
